(** * DroneSimulator: navigation grid, A* pathfinder, waypoint stitching,
      flight physics and fleet formation

    A shallow embedding of the JavaScript sources
    [NavigationGrid.js], [Pathfinder.js], [WaypointNavigator.js], [drone.js]
    and [droneManager.js], followed by the properties of the specification.

    Numbers.  A JavaScript number is an IEEE-754 binary64 value.  The grid,
    the pathfinder and the flight physics are written once over small
    interfaces of the arithmetic they use ([Number], [SearchNumber],
    [FlightNumber]) and instantiated
    - at Rocq's primitive binary64 floats, whose operations are the ones a
      JavaScript engine performs, for runs of the code on concrete inputs;
    - at [Rounded.t], the binary64 values as what they denote: NaN, the two
      infinities and the finite values as real numbers, every operation
      being the exact one followed by a rounding to a nearest binary64
      value, with overflow to an infinity, for what holds of all inputs in
      a range;
    - at the real numbers, for the agent and the fleet, where the claims
      are about flags, queues and offsets.
    The language leaves the precision of [Math.sin], [Math.cos] and
    [Math.atan2] to the implementation: on [Rounded.t] they are any
    functions within the range of a sine, of a cosine and of an angle.

    Integers.  Loop counters, cell indices and cell counts are integer valued
    in the code; they are values of [Z]. *)

From Stdlib Require Import List ZArith Bool Lia.
From Stdlib Require Import Reals Lra.
From Stdlib Require Import Permutation ClassicalChoice.
From Stdlib Require String Floats Uint63.
Import ListNotations.

Set Implicit Arguments.

(** ** Outcomes of a call

    A call either returns a value, or raises the [TypeError] JavaScript
    raises on reading a property of [null] or [undefined], or is cut off by
    the bound the model puts on a [while] loop. *)

Inductive Outcome (A : Type) : Type :=
| Returned (a : A)
| Threw
| OutOfFuel.

Arguments Returned {A} a.
Arguments Threw {A}.
Arguments OutOfFuel {A}.

Definition bind {A B : Type} (m : Outcome A) (k : A -> Outcome B) : Outcome B :=
  match m with
  | Returned a => k a
  | Threw => Threw
  | OutOfFuel => OutOfFuel
  end.

Declare Scope outcome_scope.
Delimit Scope outcome_scope with outcome.
Notation "x <- m ;; k" := (bind m (fun x => k))
  (at level 61, m at next level, right associativity) : outcome_scope.
Notation "' p <- m ;; k" := (bind m (fun x => let p := x in k))
  (at level 61, p pattern, m at next level, right associativity) : outcome_scope.

(** [obj.field] where [obj] may be [undefined]. *)
Definition defined {A : Type} (o : option A) : Outcome A :=
  match o with
  | Some a => Returned a
  | None => Threw
  end.

(** A [for (const x of xs)] loop whose body updates a state and may raise. *)
Fixpoint for_each {A S : Type} (body : S -> A -> Outcome S) (xs : list A) (s : S)
  : Outcome S :=
  match xs with
  | [] => Returned s
  | x :: xs' => bind (body s x) (for_each body xs')
  end.

(** ** The arithmetic the grid uses *)

Class Number (num : Type) : Type := {
  nzero : num;
  nhalf : num;                       (* the literal 0.5 *)
  ntwo : num;                        (* the literal 2 *)
  nadd : num -> num -> num;
  nsub : num -> num -> num;
  nmul : num -> num -> num;
  ndiv : num -> num -> num;
  nmax : num -> num -> num;          (* Math.max *)
  nofZ : Z -> num;                   (* an integer-valued number *)
  nfloor : num -> option Z           (* Math.floor; None on NaN and the infinities *)
}.

(** ** What the search needs on top of it *)

Class SearchNumber (num : Type) `{Number num} : Type := {
  ninfinity : num;                   (* Infinity *)
  nSQRT2 : num;                      (* Math.SQRT2 *)
  nsqrt : num -> num;                (* Math.sqrt *)
  nabs : num -> num;                 (* Math.abs *)
  nltb : num -> num -> bool;         (* a < b *)
  neqb : num -> num -> bool          (* a === b *)
}.

Declare Scope num_scope.
Delimit Scope num_scope with num.
Infix "+" := nadd : num_scope.
Infix "-" := nsub : num_scope.
Infix "*" := nmul : num_scope.
Infix "/" := ndiv : num_scope.

(** THREE.Vector3, by value ([clone] is the identity on values). *)
Record Vector3 (num : Type) : Type := mkVector3 { vx : num; vy : num; vz : num }.
Arguments mkVector3 {num} _ _ _.
Arguments vx {num} _.
Arguments vy {num} _.
Arguments vz {num} _.

(** THREE.Box3: the bounding box [new THREE.Box3().setFromObject(object)]
    yields.  An obstacle is given by its box. *)
Record Box3 (num : Type) : Type := mkBox3 { bmin : Vector3 num; bmax : Vector3 num }.
Arguments mkBox3 {num} _ _.
Arguments bmin {num} _.
Arguments bmax {num} _.

(** [for (let i = 0; i < n; i++)]: the values [i] takes. *)
Definition indices (n : Z) : list Z := map Z.of_nat (seq 0 (Z.to_nat n)).

(** [for (let i = a; i <= b; i++)]: the values [i] takes. *)
Definition from_to (a b : Z) : list Z :=
  map (fun k => (a + Z.of_nat k)%Z) (seq 0 (Z.to_nat (b - a + 1))).

(** [l[n] = f(l[n])] on an array that has an element at [n]. *)
Fixpoint update_nth {A : Type} (f : A -> A) (n : nat) (l : list A) : list A :=
  match l, n with
  | [], _ => []
  | a :: l', O => f a :: l'
  | a :: l', S n' => a :: update_nth f n' l'
  end.

(** ** NavigationGrid *)

Module NavigationGrid.
Section Grid.
Context {num : Type} `{Number num}.
Local Open Scope num_scope.

(** A cell object as the constructor makes it. The fields the search
    attaches to it ([gCost], [hCost], [fCost], [parent], [flyY]) are reset
    at the start of every search and never read before; they are kept in
    the table [Pathfinder.Node], indexed like [grid]. *)
Record Cell : Type := mkCell {
  maxObstacleHeight : num;
  isObstacle : bool;
  worldX : num;
  worldZ : num
}.

Record t : Type := mkGrid {
  worldWidth : num;
  worldDepth : num;
  cellSize : num;
  groundLevel : num;
  gridCellsX : Z;
  gridCellsZ : Z;
  grid : list (list Cell)
}.

Definition new_cell (w d c ground : num) (i j : Z) : Cell :=
  {| maxObstacleHeight := ground;
     isObstacle := false;
     worldX := (nofZ i + nhalf) * c - (w / ntwo);
     worldZ := (nofZ j + nhalf) * c - (d / ntwo) |}.

(** [new NavigationGrid(worldWidth, worldDepth, cellSize, groundLevel)].
    [None] when a cell count is not a finite number (a zero [cellSize]):
    the JavaScript constructor then builds no usable grid. *)
Definition construct (w d c ground : num) : option t :=
  match nfloor (w / c), nfloor (d / c) with
  | Some cx, Some cz =>
      Some {| worldWidth := w; worldDepth := d; cellSize := c;
              groundLevel := ground;
              gridCellsX := cx; gridCellsZ := cz;
              grid := map (fun i => map (fun j => new_cell w d c ground i j)
                                        (indices cz))
                          (indices cx) |}
  | _, _ => None
  end.

(** [this.grid[i][j]], [None] for [undefined]. *)
Definition cell_at (g : t) (i j : Z) : option Cell :=
  if ((i <? 0) || (j <? 0))%Z then None
  else match nth_error (grid g) (Z.to_nat i) with
       | Some row => nth_error row (Z.to_nat j)
       | None => None
       end.

(** The grid object with its cell array changed. *)
Definition with_rows (rows : list (list Cell)) (g : t) : t :=
  {| worldWidth := worldWidth g; worldDepth := worldDepth g;
     cellSize := cellSize g; groundLevel := groundLevel g;
     gridCellsX := gridCellsX g; gridCellsZ := gridCellsZ g;
     grid := rows |}.

(** An assignment to fields of [this.grid[i][j]].  Every use below is at an
    index inside [0, gridCellsX) x [0, gridCellsZ), where a grid built by
    [construct] has a cell. *)
Definition update_cell (f : Cell -> Cell) (i j : Z) (g : t) : t :=
  with_rows (update_nth (update_nth f (Z.to_nat j)) (Z.to_nat i) (grid g)) g.

Definition in_bounds (g : t) (i j : Z) : bool :=
  ((0 <=? i) && (i <? gridCellsX g) && (0 <=? j) && (j <? gridCellsZ g))%Z.

(** [worldToGridCoordinates(worldX, worldZ)]: [None] is [null]. *)
Definition worldToGridCoordinates (g : t) (x z : num) : option (Z * Z) :=
  match nfloor ((x + worldWidth g / ntwo) / cellSize g),
        nfloor ((z + worldDepth g / ntwo) / cellSize g) with
  | Some gridX, Some gridZ =>
      if in_bounds g gridX gridZ then Some (gridX, gridZ) else None
  | _, _ => None
  end.

(** [gridToWorldCoordinates(gridX, gridZ)]: [None] is [null]. *)
Definition gridToWorldCoordinates (g : t) (i j : Z) : option (num * num) :=
  if in_bounds g i j then
    match cell_at g i j with
    | Some c => Some (worldX c, worldZ c)
    | None => None
    end
  else None.

Definition reset_cell (ground : num) (c : Cell) : Cell :=
  {| maxObstacleHeight := ground; isObstacle := false;
     worldX := worldX c; worldZ := worldZ c |}.

Definition mark_cell (topY : num) (c : Cell) : Cell :=
  {| maxObstacleHeight := nmax (maxObstacleHeight c) topY; isObstacle := true;
     worldX := worldX c; worldZ := worldZ c |}.

(** The first loop of [populateFromObjects]. *)
Definition reset_obstacles (g : t) : t :=
  fold_left
    (fun g i =>
       fold_left (fun g j => update_cell (reset_cell (groundLevel g)) i j g)
                 (indices (gridCellsZ g)) g)
    (indices (gridCellsX g)) g.

(** The body of the loop over the objects. *)
Definition mark_object (g : t) (object : Box3 num) : t :=
  let minWorldX := vx (bmin object) in
  let maxWorldX := vx (bmax object) in
  let minWorldZ := vz (bmin object) in
  let maxWorldZ := vz (bmax object) in
  let objectTopY := vy (bmax object) in
  match worldToGridCoordinates g minWorldX minWorldZ,
        worldToGridCoordinates g maxWorldX maxWorldZ with
  | Some (sx, sz), Some (ex, ez) =>
      fold_left
        (fun g i =>
           if ((i <? 0) || (gridCellsX g <=? i))%Z then g
           else fold_left
                  (fun g j =>
                     if ((j <? 0) || (gridCellsZ g <=? j))%Z then g
                     else update_cell (mark_cell objectTopY) i j g)
                  (from_to sz ez) g)
        (from_to sx ex) g
  | _, _ => g
  end.

(** [populateFromObjects(collidableObjects)]. *)
Definition populateFromObjects (g : t) (collidableObjects : list (Box3 num)) : t :=
  fold_left mark_object collidableObjects (reset_obstacles g).

Definition directions : list (Z * Z) :=
  [ (-1, 0); (1, 0); (0, -1); (0, 1);
    (-1, -1); (-1, 1); (1, -1); (1, 1) ]%Z.

(** [getNeighbors(gridX, gridZ)]. *)
Definition getNeighbors (g : t) (gridX gridZ : Z) : list (Z * Z) :=
  flat_map
    (fun dir =>
       let nextX := (gridX + fst dir)%Z in
       let nextZ := (gridZ + snd dir)%Z in
       if in_bounds g nextX nextZ
          && match cell_at g nextX nextZ with
             | Some c => negb (isObstacle c)
             | None => false
             end
       then [(nextX, nextZ)] else [])
    directions.

(** Every index pair inside the counts has a cell object. *)
Definition well_formed (g : t) : Prop :=
  List.length (grid g) = Z.to_nat (gridCellsX g) /\
  Forall (fun row => List.length row = Z.to_nat (gridCellsZ g)) (grid g).

(** The fields of a grid that no method assigns after construction. *)
Definition same_frame (g g' : t) : Prop :=
  worldWidth g' = worldWidth g /\ worldDepth g' = worldDepth g /\
  cellSize g' = cellSize g /\ groundLevel g' = groundLevel g /\
  gridCellsX g' = gridCellsX g /\ gridCellsZ g' = gridCellsZ g.

(** What a method keeps of a grid [g] when it leaves [g']: the frame, the
    shape, and the part [erase] reads of every cell. *)
Definition keeps {B : Type} (erase : Cell -> B) (g g' : t) : Prop :=
  same_frame g g' /\
  (well_formed g -> well_formed g') /\
  map (map erase) (grid g') = map (map erase) (grid g).

(** [worldToGridCoordinates] maps the centre [gridToWorldCoordinates]
    gives for [(i, j)] back to [(i, j)]. *)
Definition round_trips (g : t) (i j : Z) : bool :=
  match gridToWorldCoordinates g i j with
  | Some (x, z) =>
      match worldToGridCoordinates g x z with
      | Some (i', j') => ((i =? i') && (j =? j'))%Z
      | None => false
      end
  | None => false
  end.

Definition all_round_trip (g : t) : bool :=
  forallb (fun i => forallb (round_trips g i) (indices (gridCellsZ g)))
          (indices (gridCellsX g)).

(** The state a grid object can be in: built by the constructor, then
    populated any number of times. *)
Inductive Reachable : t -> Prop :=
| Reachable_construct : forall w d c ground g,
    construct w d c ground = Some g -> Reachable g
| Reachable_populate : forall g objects,
    Reachable g -> Reachable (populateFromObjects g objects).

End Grid.
Arguments Cell : clear implicits.
Arguments t : clear implicits.
End NavigationGrid.

(** ** Pathfinder *)

Module Pathfinder.
Section Search.
Context {num : Type} `{SearchNumber num}.
Local Open Scope num_scope.
Local Open Scope outcome_scope.
Import NavigationGrid.

(** A cell object is referred to by its place in [grid]: two references
    are the same object ([===]) when the index pairs are equal. *)
Definition Ref : Type := (Z * Z)%type.

Definition ref_eqb (a b : Ref) : bool :=
  ((fst a =? fst b) && (snd a =? snd b))%Z.

(** The fields [findPath] attaches to a cell object. *)
Record Node : Type := mkNode {
  gCost : num;
  hCost : num;
  fCost : num;
  parent : option Ref;             (* null, or the parent cell *)
  flyY : num
}.

Definition Nodes : Type := list (list Node).

Definition node_at (nodes : Nodes) (r : Ref) : option Node :=
  if ((fst r <? 0) || (snd r <? 0))%Z then None
  else match nth_error nodes (Z.to_nat (fst r)) with
       | Some row => nth_error row (Z.to_nat (snd r))
       | None => None
       end.

Definition update_node (f : Node -> Node) (r : Ref) (nodes : Nodes) : Nodes :=
  update_nth (update_nth f (Z.to_nat (snd r))) (Z.to_nat (fst r)) nodes.

(** Step 3: the reset of the search fields of every cell. *)
Definition reset_nodes (g : t num) : Nodes :=
  map (fun _ =>
         map (fun _ => {| gCost := ninfinity; hCost := ninfinity;
                          fCost := ninfinity; parent := None; flyY := nzero |})
             (indices (gridCellsZ g)))
      (indices (gridCellsX g)).

Definition heuristic (cellA : Cell num) (flyYA cellB_worldX cellB_worldZ flyYB : num) : num :=
  let dx := cellB_worldX - worldX cellA in
  let dz := cellB_worldZ - worldZ cellA in
  let dy := flyYB - flyYA in
  nsqrt (dx * dx + dz * dz + dy * dy).

(** [openSet.sort((a, b) => a.fCost - b.fCost)]: the sort is stable, an
    element moves in front of another only when the comparator is
    negative. *)
Definition fCost_of (nodes : Nodes) (r : Ref) : num :=
  match node_at nodes r with
  | Some n => fCost n
  | None => ninfinity
  end.

Fixpoint insert_by_fCost (nodes : Nodes) (a : Ref) (sorted : list Ref) : list Ref :=
  match sorted with
  | [] => [a]
  | b :: rest =>
      if nltb (fCost_of nodes a - fCost_of nodes b) nzero
      then a :: b :: rest
      else b :: insert_by_fCost nodes a rest
  end.

Definition sort_by_fCost (nodes : Nodes) (openSet : list Ref) : list Ref :=
  fold_left (fun sorted a => insert_by_fCost nodes a sorted) openSet [].

Record SearchState : Type := mkState {
  nodes : Nodes;
  openSet : list Ref;
  closedSet : list Ref     (* the keys "x,z", one per index pair *)
}.

Definition in_set (r : Ref) (s : list Ref) : bool := existsb (ref_eqb r) s.

Section FindPath.
Variables (navGrid : t num) (startWorldPos endWorldPos : Vector3 num).
Variables (droneSafetyMargin altitudeChangePenalty : num).

(** [reconstructPath(endNode, navGrid, droneSafetyMargin, targetWaypointY)]:
    the loop [while (currentNode)], with [path.unshift]. *)
Fixpoint reconstructPath (fuel : nat) (nodes : Nodes) (currentNode : option Ref)
         (targetWaypointY : num) (path : list (Vector3 num))
  : Outcome (list (Vector3 num)) :=
  match currentNode with
  | None => Returned path
  | Some r =>
      match fuel with
      | O => OutOfFuel
      | S fuel' =>
          cell <- defined (cell_at navGrid (fst r) (snd r)) ;;
          node <- defined (node_at nodes r) ;;
          let flyY := nmax targetWaypointY (maxObstacleHeight cell + droneSafetyMargin) in
          reconstructPath fuel' nodes (parent node) targetWaypointY
                          (mkVector3 (worldX cell) flyY (worldZ cell) :: path)
      end
  end.

Variables (endCell : Cell num) (endCellFlyY : num).

(** The body of [for (const neighborCoord of neighborsGridCoords)]. *)
Definition visit_neighbor (currentNode : Ref) (currentGridCoords : Ref)
           (st : SearchState) (neighborCoord : Ref) : Outcome SearchState :=
  neighborCell <- defined (cell_at navGrid (fst neighborCoord) (snd neighborCoord)) ;;
  neighborNode <- defined (node_at (nodes st) neighborCoord) ;;
  if in_set neighborCoord (closedSet st) then Returned st
  else
    let nFlyY := nmax (vy endWorldPos) (maxObstacleHeight neighborCell + droneSafetyMargin) in
    let nodes1 :=
      update_node (fun n => {| gCost := gCost n; hCost := hCost n; fCost := fCost n;
                               parent := parent n; flyY := nFlyY |})
                  neighborCoord (nodes st) in
    let dxNeighbor := Z.abs (fst neighborCoord - fst currentGridCoords) in
    let dzNeighbor := Z.abs (snd neighborCoord - snd currentGridCoords) in
    let isDiagonalMove := ((dxNeighbor =? 1) && (dzNeighbor =? 1))%Z in
    let costToMove :=
      if isDiagonalMove then cellSize navGrid * nSQRT2 else cellSize navGrid in
    current <- defined (node_at nodes1 currentNode) ;;
    let altitudeChange := nabs (nFlyY - flyY current) in
    let tentativeGCost :=
      gCost current + costToMove + (altitudeChange * altitudeChangePenalty) in
    let h := heuristic neighborCell nFlyY (worldX endCell) (worldZ endCell) endCellFlyY in
    if nltb tentativeGCost (gCost neighborNode) then
      let nodes2 :=
        update_node (fun n => {| gCost := tentativeGCost; hCost := h;
                                 fCost := tentativeGCost + h;
                                 parent := Some currentNode; flyY := flyY n |})
                    neighborCoord nodes1 in
      Returned {| nodes := nodes2;
                  openSet := if in_set neighborCoord (openSet st) then openSet st
                             else openSet st ++ [neighborCoord];
                  closedSet := closedSet st |}
    else if negb (in_set neighborCoord (openSet st)) then
      let nodes2 :=
        update_node (fun n => {| gCost := gCost n; hCost := h;
                                 fCost := gCost n + h;
                                 parent := parent n; flyY := flyY n |})
                    neighborCoord nodes1 in
      Returned {| nodes := nodes2;
                  openSet := if neqb (gCost neighborNode) ninfinity
                             then openSet st ++ [neighborCoord]
                             else openSet st;
                  closedSet := closedSet st |}
    else Returned {| nodes := nodes1; openSet := openSet st; closedSet := closedSet st |}.

(** Step 5: [while (openSet.length > 0)], at most [fuel] rounds. *)
Fixpoint search (fuel : nat) (endRef : Ref) (st : SearchState)
  : Outcome (option (list (Vector3 num))) :=
  match fuel with
  | O => OutOfFuel
  | S fuel' =>
      match sort_by_fCost (nodes st) (openSet st) with
      | [] => Returned None
      | currentNode :: rest =>
          if ref_eqb currentNode endRef then
            path <- reconstructPath (S fuel') (nodes st) (Some currentNode)
                                    (vy endWorldPos) [] ;;
            Returned (Some path)
          else
            currentCell <- defined (cell_at navGrid (fst currentNode) (snd currentNode)) ;;
            currentGridCoords <-
              defined (worldToGridCoordinates navGrid (worldX currentCell)
                                              (worldZ currentCell)) ;;
            let st1 := {| nodes := nodes st; openSet := rest;
                          closedSet := currentGridCoords :: closedSet st |} in
            st2 <- for_each (visit_neighbor currentNode currentGridCoords)
                            (getNeighbors navGrid (fst currentGridCoords)
                                          (snd currentGridCoords))
                            st1 ;;
            search fuel' endRef st2
      end
  end.
End FindPath.

(** [Pathfinder.findPath(navGrid, startWorldPos, endWorldPos,
    droneSafetyMargin, altitudeChangePenalty)]; [Returned None] is [null].
    [fuel] bounds the rounds of the [while] loops. *)
Definition findPath (fuel : nat) (navGrid : t num) (startWorldPos endWorldPos : Vector3 num)
           (droneSafetyMargin altitudeChangePenalty : num)
  : Outcome (option (list (Vector3 num))) :=
  match worldToGridCoordinates navGrid (vx startWorldPos) (vz startWorldPos),
        worldToGridCoordinates navGrid (vx endWorldPos) (vz endWorldPos) with
  | Some startNodeCoords, Some endNodeCoords =>
      startCell <- defined (cell_at navGrid (fst startNodeCoords) (snd startNodeCoords)) ;;
      endCell <- defined (cell_at navGrid (fst endNodeCoords) (snd endNodeCoords)) ;;
      if isObstacle startCell || isObstacle endCell then Returned None
      else
        let startFlyY :=
          nmax (vy startWorldPos) (maxObstacleHeight startCell + droneSafetyMargin) in
        let endCellFlyY :=
          nmax (vy endWorldPos) (maxObstacleHeight endCell + droneSafetyMargin) in
        let startH :=
          heuristic startCell startFlyY (worldX endCell) (worldZ endCell) endCellFlyY in
        let nodes0 :=
          update_node (fun _ => {| gCost := nzero; hCost := startH;
                                   fCost := nzero + startH;
                                   parent := None; flyY := startFlyY |})
                      startNodeCoords (reset_nodes navGrid) in
        search navGrid endWorldPos droneSafetyMargin altitudeChangePenalty
               endCell endCellFlyY fuel endNodeCoords
               {| nodes := nodes0; openSet := [startNodeCoords]; closedSet := [] |}
  | _, _ => Returned None
  end.

(** A world position that maps outside the grid. *)
Definition outside (navGrid : t num) (p : Vector3 num) : Prop :=
  worldToGridCoordinates navGrid (vx p) (vz p) = None.

(** A world position whose cell is flagged as an obstacle. *)
Definition blocked (navGrid : t num) (p : Vector3 num) : Prop :=
  exists i j cell,
    worldToGridCoordinates navGrid (vx p) (vz p) = Some (i, j) /\
    cell_at navGrid i j = Some cell /\ isObstacle cell = true.

(** The index pair of the cell a point lies in. *)
Definition cell_of (navGrid : t num) (p : Vector3 num) : option (Z * Z) :=
  worldToGridCoordinates navGrid (vx p) (vz p).

(** Every two consecutive points of a path lie in cells one apart in the
    x index and one apart in the z index. *)
Fixpoint diagonal_steps (navGrid : t num) (path : list (Vector3 num)) : bool :=
  match path with
  | a :: (b :: _) as rest =>
      match worldToGridCoordinates navGrid (vx a) (vz a),
            worldToGridCoordinates navGrid (vx b) (vz b) with
      | Some (ax, az), Some (bx, bz) =>
          ((Z.abs (bx - ax) =? 1) && (Z.abs (bz - az) =? 1))%Z
          && diagonal_steps navGrid rest
      | _, _ => false
      end
  | _ => true
  end.

(** The world centre of cell [(i, j)], at altitude [y]. *)
Definition centre (navGrid : t num) (i j : Z) (y : num) : option (Vector3 num) :=
  match gridToWorldCoordinates navGrid i j with
  | Some (x, z) => Some (mkVector3 x y z)
  | None => None
  end.

(** [findPath] from the centre of cell (0, 0) at altitude [startY] to the
    centre of cell (9, 9) at altitude [endY] returns a path of ten points,
    each step one cell in x and one cell in z: the points lie in the cells
    (0, 0), (1, 1), ..., (9, 9). *)
Definition staircase (navGrid : t num)
           (startY endY droneSafetyMargin altitudeChangePenalty : num) : Prop :=
  exists start goal path,
    centre navGrid 0 0 startY = Some start /\
    centre navGrid 9 9 endY = Some goal /\
    findPath 100 navGrid start goal droneSafetyMargin altitudeChangePenalty
    = Returned (Some path) /\
    List.length path = 10%nat /\
    diagonal_steps navGrid path = true /\
    map (cell_of navGrid) path = map (fun k => Some (k, k)) (indices 10).

End Search.
Arguments Node : clear implicits.
Arguments SearchState : clear implicits.
End Pathfinder.

(** ** Binary64 numbers *)

Module Binary64.
Import Floats.
Local Open Scope float_scope.

Definition is_nan (x : float) : bool := negb (PrimFloat.eqb x x).

(** [Math.max(a, b)]: NaN when an argument is NaN, and [+0] above [-0]. *)
Definition max (a b : float) : float :=
  if is_nan a || is_nan b then nan
  else if PrimFloat.ltb a b then b
  else if PrimFloat.ltb b a then a
  else match PrimFloat.classify a with
       | NZero => b
       | _ => a
       end.

(** The binary64 value of an integer (exact below 2^53). *)
Definition of_Z (z : Z) : float :=
  match z with
  | Z0 => 0
  | Zpos _ => PrimFloat.of_uint63 (Uint63.of_Z z)
  | Zneg p => PrimFloat.opp (PrimFloat.of_uint63 (Uint63.of_Z (Zpos p)))
  end.

(** [Math.floor] of a finite value [(-1)^s * m * 2^e]. *)
Definition floor (x : float) : option Z :=
  match Prim2SF x with
  | S754_zero _ => Some 0%Z
  | S754_finite s m e => Some (Z.shiftl (if s then Zneg m else Zpos m) e)
  | S754_infinity _ => None
  | S754_nan => None
  end.

#[global] Instance number : Number float := {|
  nzero := 0;
  nhalf := 0.5;
  ntwo := 2;
  nadd := PrimFloat.add;
  nsub := PrimFloat.sub;
  nmul := PrimFloat.mul;
  ndiv := PrimFloat.div;
  nmax := max;
  nofZ := of_Z;
  nfloor := floor
|}.

#[global] Instance search_number : @SearchNumber float number := {|
  ninfinity := infinity;
  nSQRT2 := PrimFloat.sqrt 2;
  nsqrt := PrimFloat.sqrt;
  nabs := PrimFloat.abs;
  nltb := PrimFloat.ltb;
  neqb := PrimFloat.eqb
|}.

(** The defaults of [findPath]: [droneSafetyMargin = 1.0],
    [altitudeChangePenalty = 1.5]. *)
Definition defaultSafetyMargin : float := 1.
Definition defaultAltitudePenalty : float := 1.5.
End Binary64.


(** ** Real numbers as exact grid arithmetic *)

Module Exact.
Local Open Scope R_scope.

#[global] Instance number : Number R := {|
  nzero := 0;
  nhalf := 0.5;
  ntwo := 2;
  nadd := Rplus;
  nsub := Rminus;
  nmul := Rmult;
  ndiv := Rdiv;
  nmax := Rmax;
  nofZ := IZR;
  nfloor := fun x => Some (Int_part x)
|}.
End Exact.


(** ** WaypointNavigator *)

Module WaypointNavigator.
Section Navigator.
Context {num Grid : Type}.
Local Open Scope outcome_scope.

(** [this.pathfinder.findPath] and [this.navGrid], as given to the
    constructor. *)
Variable findPath :
  Grid -> Vector3 num -> Vector3 num -> num -> num ->
  Outcome (option (list (Vector3 num))).
Variable navGrid : Grid.

(** The loop [for (let i = 0; i < waypoints.length; i++)] from waypoint
    [i] on, with the values of [fullPath] and [currentPosition] there.
    [segmentPath.slice(1)] is [tl]; [last segmentPath nextWaypoint] is the
    last point of a non-empty segment and [nextWaypoint] for an empty one. *)
Fixpoint plan_legs (waypoints : list (Vector3 num)) (fullPath : list (Vector3 num))
         (currentPosition : Vector3 num) (droneSafetyMargin altitudeChangePenalty : num)
  : Outcome (option (list (Vector3 num))) :=
  match waypoints with
  | [] => Returned (Some fullPath)
  | nextWaypoint :: rest =>
      segmentPath <- findPath navGrid currentPosition nextWaypoint
                              droneSafetyMargin altitudeChangePenalty ;;
      match segmentPath with
      | None => Returned None
      | Some segment =>
          plan_legs rest (fullPath ++ tl segment) (last segment nextWaypoint)
                    droneSafetyMargin altitudeChangePenalty
      end
  end.

(** [generatePathThroughWaypoints(startPos, waypoints, droneSafetyMargin,
    altitudeChangePenalty)]. *)
Definition generatePathThroughWaypoints (startPos : Vector3 num)
           (waypoints : list (Vector3 num)) (droneSafetyMargin altitudeChangePenalty : num)
  : Outcome (option (list (Vector3 num))) :=
  match waypoints with
  | [] => Returned (Some [startPos])
  | _ :: _ =>
      plan_legs waypoints [startPos] startPos droneSafetyMargin altitudeChangePenalty
  end.

(** The legs of a route, in the words of the specification: one search per
    waypoint in order, the first from the start position, each later one
    from the last point the previous leg returned. *)
Inductive Legs (droneSafetyMargin altitudeChangePenalty : num)
  : Vector3 num -> list (Vector3 num) -> list (list (Vector3 num)) -> Prop :=
| Legs_nil : forall from, Legs droneSafetyMargin altitudeChangePenalty from [] []
| Legs_cons : forall from waypoint rest leg legs,
    findPath navGrid from waypoint droneSafetyMargin altitudeChangePenalty
      = Returned (Some leg) ->
    Legs droneSafetyMargin altitudeChangePenalty (last leg waypoint) rest legs ->
    Legs droneSafetyMargin altitudeChangePenalty from (waypoint :: rest) (leg :: legs).

(** The position the navigator holds after the given legs. *)
Fixpoint position_after (from : Vector3 num) (waypoints : list (Vector3 num))
         (legs : list (list (Vector3 num))) : Vector3 num :=
  match waypoints, legs with
  | waypoint :: rest, leg :: legs' => position_after (last leg waypoint) rest legs'
  | _, _ => from
  end.

(** The concatenation the specification describes: the first leg in full,
    every later leg without its first point. *)
Definition first_leg_in_full (legs : list (list (Vector3 num))) : list (Vector3 num) :=
  match legs with
  | [] => []
  | first :: later => first ++ concat (map (@tl _) later)
  end.

(** The concatenation the code builds: the start position, then every leg
    without its first point. *)
Definition start_then_tails (startPos : Vector3 num) (legs : list (list (Vector3 num)))
  : list (Vector3 num) :=
  startPos :: concat (map (@tl _) legs).

End Navigator.
End WaypointNavigator.

(** ** The arithmetic the flight code uses

    On top of the arithmetic of the grid: decimal literals, negation,
    [Math.min], [Math.sqrt], [Math.abs], [Math.sin], [Math.cos],
    [Math.atan2], [Math.PI], the remainder [%], the comparison [<] and the
    reading of a number as a condition. *)

Class FlightNumber (num : Type) `{Number num} : Type := {
  flit : R -> num;                   (* a decimal literal *)
  fPI : num;                         (* Math.PI *)
  fopp : num -> num;                 (* -a *)
  fmin : num -> num -> num;          (* Math.min *)
  fsqrt : num -> num;                (* Math.sqrt *)
  fabs : num -> num;                 (* Math.abs *)
  fsin : num -> num;                 (* Math.sin *)
  fcos : num -> num;                 (* Math.cos *)
  fatan2 : num -> num -> num;        (* Math.atan2 *)
  frem : num -> num -> num;          (* a % b *)
  fltb : num -> num -> bool;         (* a < b *)
  ftruthy : num -> bool              (* a as a condition: false for 0 and NaN *)
}.

(** ** The functions of [Math] and [THREE] the flight code calls *)

Module JSMath.
Local Open Scope R_scope.

(** Rounding towards zero. *)
Definition trunc (x : R) : Z :=
  if Rle_dec 0 x then Int_part x else (- Int_part (- x))%Z.

(** [a % b] on reals: the remainder takes the sign of the dividend. *)
Definition rem (a b : R) : R := a - b * IZR (trunc (a / b)).


(** [Math.atan2(y, x)] on reals. *)
Definition atan2 (y x : R) : R :=
  if Rlt_dec 0 x then atan (y / x)
  else if Rlt_dec x 0 then
         if Rle_dec 0 y then atan (y / x) + PI else atan (y / x) - PI
  else if Rlt_dec 0 y then PI / 2
  else if Rlt_dec y 0 then - (PI / 2)
  else 0.

(** The flight arithmetic on reals, nothing rounded. *)
#[global] Instance flight : @FlightNumber R Exact.number := {|
  flit := fun r => r;
  fPI := PI;
  fopp := Ropp;
  fmin := Rmin;
  fsqrt := sqrt;
  fabs := Rabs;
  fsin := sin;
  fcos := cos;
  fatan2 := atan2;
  frem := rem;
  fltb := fun a b => if Rlt_dec a b then true else false;
  ftruthy := fun a => if Req_dec_T a 0 then false else true
|}.

Section Vectors.
Context {num : Type} `{FlightNumber num}.
Local Open Scope num_scope.

(** [THREE.MathUtils.clamp(value, min, max)] is
    [Math.max(min, Math.min(max, value))]. *)
Definition clamp (value min max : num) : num := nmax min (fmin max value).

(** [THREE.MathUtils.radToDeg]: [radians * RAD2DEG], with
    [RAD2DEG = 180 / Math.PI]. *)
Definition radToDeg (radians : num) : num := radians * (flit 180 / fPI).

(** [new THREE.Vector3().subVectors(a, b)]. *)
Definition subVectors (a b : Vector3 num) : Vector3 num :=
  mkVector3 (vx a - vx b) (vy a - vy b) (vz a - vz b).

(** [v.length()]. *)
Definition length (v : Vector3 num) : num :=
  fsqrt (vx v * vx v + vy v * vy v + vz v * vz v).

Definition multiplyScalar (v : Vector3 num) (s : num) : Vector3 num :=
  mkVector3 (vx v * s) (vy v * s) (vz v * s).

(** [v.setLength(l)] is [v.normalize().multiplyScalar(l)]; [normalize] is
    [divideScalar(this.length() || 1)], and [divideScalar(s)] is
    [multiplyScalar(1 / s)]. *)
Definition setLength (v : Vector3 num) (l : num) : Vector3 num :=
  let len := length v in
  let divisor := if ftruthy len then len else flit 1 in
  multiplyScalar (multiplyScalar v (flit 1 / divisor)) l.

(** [a.distanceTo(b)]. *)
Definition distanceTo (a b : Vector3 num) : num := length (subVectors a b).

End Vectors.
End JSMath.

(** ** DronePhysics *)

Module DronePhysics.
Import JSMath.
Section Physics.
Context {num : Type} `{FlightNumber num}.
Local Open Scope num_scope.

Definition GRAVITY : num := flit 9.8.
Definition LIFT_POWER : num := flit 6.
Definition MAX_TILT : num := flit 30.
Definition ROTATION_SPEED : num := flit 1.0.
Definition MOVEMENT_SPEED : num := flit 25.
Definition DRAG_FACTOR : num := flit 0.95.
Definition VERTICAL_DRAG_FACTOR : num := flit 0.97.
Definition FORMATION_FOLLOW_SPEED : num := flit 10.
Definition autonomousTargetReachedThreshold : num := flit 1.5.

Record Tilt : Type := mkTilt { tilt_x : num; tilt_z : num }.

Record t : Type := mkPhysics {
  altitude : num;
  velocity : Vector3 num;
  rotation : num;                  (* degrees *)
  tilt : Tilt;                     (* degrees *)
  position : Vector3 num;
  inFormation : bool;
  crashed : bool
}.

(** [new DronePhysics(initialPosition)]. *)
Definition construct (initialPosition : Vector3 num) : t :=
  {| altitude := vy initialPosition;
     velocity := mkVector3 (flit 0) (flit 0) (flit 0);
     rotation := flit 0;
     tilt := mkTilt (flit 0) (flit 0);
     position := initialPosition;
     inFormation := false;
     crashed := false |}.

Definition set_altitude (a : num) (p : t) : t :=
  mkPhysics a (velocity p) (rotation p) (tilt p) (position p) (inFormation p) (crashed p).
Definition set_velocity (v : Vector3 num) (p : t) : t :=
  mkPhysics (altitude p) v (rotation p) (tilt p) (position p) (inFormation p) (crashed p).
Definition set_rotation (r : num) (p : t) : t :=
  mkPhysics (altitude p) (velocity p) r (tilt p) (position p) (inFormation p) (crashed p).
Definition set_tilt (tl : Tilt) (p : t) : t :=
  mkPhysics (altitude p) (velocity p) (rotation p) tl (position p) (inFormation p) (crashed p).
Definition set_position (q : Vector3 num) (p : t) : t :=
  mkPhysics (altitude p) (velocity p) (rotation p) (tilt p) q (inFormation p) (crashed p).
Definition set_inFormation (b : bool) (p : t) : t :=
  mkPhysics (altitude p) (velocity p) (rotation p) (tilt p) (position p) b (crashed p).
Definition set_crashed (b : bool) (p : t) : t :=
  mkPhysics (altitude p) (velocity p) (rotation p) (tilt p) (position p) (inFormation p) b.

(** The key states [update] reads; [{}] is [no_keys]. *)
Record Keys : Type := mkKeys {
  key_w : bool; key_a : bool; key_s : bool; key_d : bool;
  ArrowUp : bool; ArrowDown : bool; Space : bool;
  ShiftLeft : bool; ShiftRight : bool;
  key_q : bool; key_e : bool; key_r : bool
}.

Definition no_keys : Keys :=
  mkKeys false false false false false false false false false false false false.

(** What a tick reads from outside the program: [Date.now()] and
    [Math.random()]. *)
Record Ambient : Type := mkAmbient { now : num; random : num }.

(** [reset()]. *)
Definition reset (p : t) : t :=
  {| altitude := altitude p;
     velocity := mkVector3 (flit 0) (flit 0) (flit 0);
     rotation := flit 0;
     tilt := mkTilt (flit 0) (flit 0);
     position := mkVector3 (flit 0) (flit 10) (flit 0);
     inFormation := inFormation p;
     crashed := false |}.

(** [_calculateLift(keys)]. *)
Definition _calculateLift (keys : Keys) (amb : Ambient) (p : t) : num :=
  if ArrowUp keys || Space keys then flit 0 + LIFT_POWER * flit 4.5
  else if ArrowDown keys || ShiftLeft keys || ShiftRight keys
       then flit 0 - LIFT_POWER * flit 4.5
  else
    let lift := GRAVITY in
    let lift := lift + fsin (now amb / flit 500) * flit 3.0 in
    let lift := lift + (random amb - flit 0.5) * flit 3.0 in
    let distanceFromHover := altitude p - vy (position p) in
    if fltb (flit 2.0) (fabs distanceFromHover) then lift + distanceFromHover * flit 0.1
    else lift.

(** [_handleRotation(keys)]. *)
Definition _handleRotation (keys : Keys) (p : t) : t :=
  let r := rotation p in
  let r := if key_q keys then r + ROTATION_SPEED else r in
  let r := if key_e keys then r - ROTATION_SPEED else r in
  set_rotation (frem (r + flit 360) (flit 360)) p.

(** [_handleMovement(delta, keys)]. *)
Definition _handleMovement (delta : num) (keys : Keys) (p : t) : t :=
  let rotationRad := rotation p * fPI / flit 180 in
  let p :=
    if key_w keys then
      let p := set_tilt (mkTilt (fmin (tilt_x (tilt p) + flit 1) MAX_TILT)
                                (tilt_z (tilt p))) p in
      let v := velocity p in
      let v := mkVector3 (vx v) (vy v) (vz v + fcos rotationRad * MOVEMENT_SPEED * delta) in
      let v := mkVector3 (vx v + fsin rotationRad * MOVEMENT_SPEED * delta) (vy v) (vz v) in
      set_velocity v p
    else if key_s keys then
      let p := set_tilt (mkTilt (nmax (tilt_x (tilt p) - flit 1) (fopp MAX_TILT))
                                (tilt_z (tilt p))) p in
      let v := velocity p in
      let v := mkVector3 (vx v) (vy v) (vz v - fcos rotationRad * MOVEMENT_SPEED * delta) in
      let v := mkVector3 (vx v - fsin rotationRad * MOVEMENT_SPEED * delta) (vy v) (vz v) in
      set_velocity v p
    else
      set_tilt (mkTilt (tilt_x (tilt p) * flit 0.95) (tilt_z (tilt p))) p in
  let p :=
    if key_a keys then
      let p := set_tilt (mkTilt (tilt_x (tilt p))
                                (nmax (tilt_z (tilt p) - flit 1) (fopp MAX_TILT))) p in
      let v := velocity p in
      let v := mkVector3 (vx v + fcos rotationRad * MOVEMENT_SPEED * delta) (vy v) (vz v) in
      let v := mkVector3 (vx v) (vy v) (vz v - fsin rotationRad * MOVEMENT_SPEED * delta) in
      set_velocity v p
    else if key_d keys then
      let p := set_tilt (mkTilt (tilt_x (tilt p))
                                (fmin (tilt_z (tilt p) + flit 1) MAX_TILT)) p in
      let v := velocity p in
      let v := mkVector3 (vx v - fcos rotationRad * MOVEMENT_SPEED * delta) (vy v) (vz v) in
      let v := mkVector3 (vx v) (vy v) (vz v + fsin rotationRad * MOVEMENT_SPEED * delta) in
      set_velocity v p
    else
      set_tilt (mkTilt (tilt_x (tilt p)) (tilt_z (tilt p) * flit 0.95)) p in
  if key_r keys then reset p else p.

(** [_applyDrag()]. *)
Definition _applyDrag (p : t) : t :=
  let v := velocity p in
  set_velocity (mkVector3 (vx v * DRAG_FACTOR) (vy v * VERTICAL_DRAG_FACTOR)
                          (vz v * DRAG_FACTOR)) p.

(** [_updatePosition(delta)]. *)
Definition _updatePosition (delta : num) (p : t) : t :=
  let v := velocity p in
  let q := position p in
  set_position (mkVector3 (vx q + vx v * delta) (vy q + vy v * delta)
                          (vz q + vz v * delta)) p.

(** [_handleGroundCollision()]. *)
Definition _handleGroundCollision (p : t) : t :=
  if fltb (vy (position p)) (flit 1) then
    let p := set_position (mkVector3 (vx (position p)) (flit 1) (vz (position p))) p in
    set_velocity (mkVector3 (vx (velocity p)) (flit 0) (vz (velocity p))) p
  else p.

(** [_steerTowardsPoint(targetWorldPos, delta)]. *)
Definition _steerTowardsPoint (targetWorldPos : Vector3 num) (delta : num) (p : t) : t :=
  let desiredVelocity := subVectors targetWorldPos (position p) in
  let distanceToTarget := length desiredVelocity in
  (* yaw *)
  let p :=
    if fltb (flit 0.1) distanceToTarget then
      let targetRotationRad := fatan2 (vx desiredVelocity) (vz desiredVelocity) in
      let targetRotationDeg := radToDeg targetRotationRad in
      let targetRotationDeg :=
        if fltb targetRotationDeg (flit 0) then targetRotationDeg + flit 360
        else targetRotationDeg in
      let rotationDiff := targetRotationDeg - rotation p in
      let rotationDiff :=
        if fltb (flit 180) rotationDiff then rotationDiff - flit 360 else rotationDiff in
      let rotationDiff :=
        if fltb rotationDiff (fopp (flit 180)) then rotationDiff + flit 360
        else rotationDiff in
      let maxRotationChange := ROTATION_SPEED * flit 2.0 in
      let r := rotation p
               + clamp rotationDiff (fopp maxRotationChange) maxRotationChange
                 * delta * flit 50 in
      set_rotation (frem (r + flit 360) (flit 360)) p
    else p in
  (* lift *)
  let heightDifference := vy targetWorldPos - vy (position p) in
  let verticalSpeedFactor := flit 5.0 in
  let velY :=
    if fltb (flit 0.2) (fabs heightDifference)
    then vy (velocity p) + heightDifference * verticalSpeedFactor * delta
    else vy (velocity p) * flit 0.8 in
  let velY := clamp velY (fopp LIFT_POWER) LIFT_POWER in
  let p := set_velocity (mkVector3 (vx (velocity p)) velY (vz (velocity p))) p in
  (* horizontal movement *)
  let maxHorizontalSpeed := MOVEMENT_SPEED * flit 0.03 in
  let p :=
    if fltb (autonomousTargetReachedThreshold * flit 0.5) distanceToTarget then
      let speedReductionFactor :=
        fmin (flit 1.0) (distanceToTarget / (autonomousTargetReachedThreshold * flit 2)) in
      let desiredVelocity :=
        setLength desiredVelocity (maxHorizontalSpeed * speedReductionFactor) in
      set_velocity (mkVector3 (vx desiredVelocity) (vy (velocity p)) (vz desiredVelocity)) p
    else if fltb (flit 0.1) distanceToTarget then
      let desiredVelocity := setLength desiredVelocity (maxHorizontalSpeed * flit 0.2) in
      set_velocity (mkVector3 (vx desiredVelocity) (vy (velocity p)) (vz desiredVelocity)) p
    else
      set_velocity (mkVector3 (vx (velocity p) * flit 0.9) (vy (velocity p))
                              (vz (velocity p) * flit 0.9)) p in
  (* tilt *)
  let rotationRad := rotation p * fPI / flit 180 in
  let localVelocityZ :=
    vz (velocity p) * fcos rotationRad - vx (velocity p) * fsin rotationRad in
  let localVelocityX :=
    vx (velocity p) * fcos rotationRad + vz (velocity p) * fsin rotationRad in
  let tiltFactor := flit 0.5 in
  set_tilt (mkTilt (clamp (localVelocityZ * tiltFactor) (fopp MAX_TILT) MAX_TILT)
                   (clamp (fopp localVelocityX * tiltFactor) (fopp MAX_TILT) MAX_TILT)) p.

(** [moveToFormationPosition(targetPosition, targetRotation, delta)]. *)
Definition moveToFormationPosition (targetPosition : Vector3 num) (targetRotation : num)
           (delta : num) (p : t) : t :=
  let p := set_inFormation true p in
  let moveSpeed := FORMATION_FOLLOW_SPEED * delta in
  let dirX := vx targetPosition - vx (position p) in
  let dirY := vy targetPosition - vy (position p) in
  let dirZ := vz targetPosition - vz (position p) in
  let distance := fsqrt (dirX * dirX + dirY * dirY + dirZ * dirZ) in
  let p :=
    if fltb (flit 0.1) distance then
      let stepX := (dirX / distance) * moveSpeed * distance in
      let stepY := (dirY / distance) * moveSpeed * distance in
      let stepZ := (dirZ / distance) * moveSpeed * distance in
      let q := position p in
      let p := set_position (mkVector3 (vx q + stepX) (vy q + stepY) (vz q + stepZ)) p in
      set_velocity (mkVector3 stepX stepY stepZ) p
    else
      let v := velocity p in
      set_velocity (mkVector3 (vx v * flit 0.8) (vy v * flit 0.8) (vz v * flit 0.8)) p in
  let rotDiff := targetRotation - rotation p in
  let normalizedRotDiff := frem (rotDiff + flit 180) (flit 360) - flit 180 in
  let p :=
    if fltb (flit 0.5) (fabs normalizedRotDiff) then
      let r := rotation p + normalizedRotDiff * flit 0.1 in
      set_rotation (frem (r + flit 360) (flit 360)) p
    else p in
  let p := set_tilt (mkTilt (tilt_x (tilt p) * flit 0.9) (tilt_z (tilt p) * flit 0.9)) p in
  set_altitude (vy (position p)) p.

(** [exitFormation()]. *)
Definition exitFormation (p : t) : t := set_inFormation false p.

(** [box.intersectsBox(other)] of THREE.Box3. *)
Definition intersectsBox (a b : Box3 num) : bool :=
  if fltb (vx (bmax b)) (vx (bmin a)) then false
  else if fltb (vx (bmax a)) (vx (bmin b)) then false
  else if fltb (vy (bmax b)) (vy (bmin a)) then false
  else if fltb (vy (bmax a)) (vy (bmin b)) then false
  else if fltb (vz (bmax b)) (vz (bmin a)) then false
  else if fltb (vz (bmax a)) (vz (bmin b)) then false
  else true.

(** [checkCollision(collidableObjects, droneBoundingBox)], each object
    given by its bounding box. *)
Definition checkCollision (collidableObjects : list (Box3 num)) (droneBoundingBox : Box3 num)
           (p : t) : t :=
  if crashed p then p
  else if existsb (intersectsBox droneBoundingBox) collidableObjects then
    let p := set_crashed true p in
    set_velocity (mkVector3 (flit 0) (vy (velocity p)) (flit 0)) p
  else p.

(** [update(delta, keys, isFlying, autonomousTarget)]; [None] is the
    default [null] target. *)
Definition update (delta : num) (keys : Keys) (isFlying : bool)
           (autonomousTarget : option (Vector3 num)) (amb : Ambient) (p : t) : t :=
  if negb isFlying then p
  else if crashed p then
    let v := velocity p in
    let p := set_velocity (mkVector3 (vx v) (vy v - GRAVITY * delta) (vz v)) p in
    let p := _updatePosition delta p in
    let p := _handleGroundCollision p in
    let p := set_altitude (vy (position p)) p in
    set_tilt (mkTilt (flit 0) (flit 0)) p
  else
    let p :=
      match autonomousTarget with
      | Some target => _steerTowardsPoint target delta p
      | None =>
          let lift := _calculateLift keys amb p in
          let v := velocity p in
          let p := set_velocity (mkVector3 (vx v) (vy v + (lift - GRAVITY) * delta) (vz v)) p in
          let p := _handleRotation keys p in
          _handleMovement delta keys p
      end in
    let p := _applyDrag p in
    let p := _updatePosition delta p in
    let p := _handleGroundCollision p in
    set_altitude (vy (position p)) p.

(** The calls that reach the physics of an agent in a frame:
    [Drone.update] calls [update] and then [checkCollision];
    [Drone.followFormationPosition], the tick of a follower in formation
    mode, calls [moveToFormationPosition]; [Drone.exitFormation] calls
    [exitFormation]. *)
Inductive Call : Type :=
| Update (delta : num) (keys : Keys) (isFlying : bool)
         (autonomousTarget : option (Vector3 num)) (amb : Ambient)
| CheckCollision (collidableObjects : list (Box3 num)) (droneBoundingBox : Box3 num)
| MoveToFormationPosition (targetPosition : Vector3 num) (targetRotation delta : num)
| ExitFormation.

Definition call (p : t) (c : Call) : t :=
  match c with
  | Update delta keys isFlying autonomousTarget amb =>
      update delta keys isFlying autonomousTarget amb p
  | CheckCollision collidableObjects droneBoundingBox =>
      checkCollision collidableObjects droneBoundingBox p
  | MoveToFormationPosition targetPosition targetRotation delta =>
      moveToFormationPosition targetPosition targetRotation delta p
  | ExitFormation => exitFormation p
  end.

(** A sequence of calls. *)
Definition run (calls : list Call) (p : t) : t := fold_left call calls p.


End Physics.
Arguments Tilt : clear implicits.
Arguments t : clear implicits.
Arguments Ambient : clear implicits.
Arguments Call : clear implicits.
End DronePhysics.

(** ** Drone: the autonomous-navigation state of an agent *)

Module Drone.
Section Drone.
Local Open Scope Z_scope.
Local Open Scope outcome_scope.

(** [this.navigationGrid] ([None] is [null]) and the search
    [Pathfinder.findPath(this.navigationGrid, startPos, endPos)] with its
    default margin and penalty. *)
Variable Grid : Type.
Variable navigationGrid : option Grid.
Variable findPath :
  Grid -> Vector3 R -> Vector3 R -> Outcome (option (list (Vector3 R))).

Record t : Type := mkDrone {
  physics : DronePhysics.t R;
  isFlying : bool;
  collidableObjects : list (Box3 R);
  isAutonomous : bool;
  waypoints : list (Vector3 R);
  currentWaypointIndex : Z;
  currentPath : option (list (Vector3 R));     (* None is null *)
  currentTargetPathNodeIndex : Z
}.

Definition set_physics (ph : DronePhysics.t R) (d : t) : t :=
  mkDrone ph (isFlying d) (collidableObjects d) (isAutonomous d) (waypoints d)
          (currentWaypointIndex d) (currentPath d) (currentTargetPathNodeIndex d).
Definition set_isAutonomous (b : bool) (d : t) : t :=
  mkDrone (physics d) (isFlying d) (collidableObjects d) b (waypoints d)
          (currentWaypointIndex d) (currentPath d) (currentTargetPathNodeIndex d).
Definition set_currentWaypointIndex (i : Z) (d : t) : t :=
  mkDrone (physics d) (isFlying d) (collidableObjects d) (isAutonomous d) (waypoints d)
          i (currentPath d) (currentTargetPathNodeIndex d).
(** [this.currentPath = path; this.currentTargetPathNodeIndex = i]. *)
Definition set_path (path : option (list (Vector3 R))) (i : Z) (d : t) : t :=
  mkDrone (physics d) (isFlying d) (collidableObjects d) (isAutonomous d) (waypoints d)
          (currentWaypointIndex d) path i.

(** [new Drone(scene, camera, options, navigationGrid)]. *)
Definition construct (initialPosition : Vector3 R) (objects : list (Box3 R)) : t :=
  {| physics := DronePhysics.construct initialPosition;
     isFlying := false;
     collidableObjects := objects;
     isAutonomous := false;
     waypoints := [];
     currentWaypointIndex := -1;
     currentPath := None;
     currentTargetPathNodeIndex := -1 |}.

(** [startFlying()]. *)
Definition startFlying (d : t) : t :=
  mkDrone (physics d) true (collidableObjects d) (isAutonomous d) (waypoints d)
          (currentWaypointIndex d) (currentPath d) (currentTargetPathNodeIndex d).

Definition waypoint_count (d : t) : Z := Z.of_nat (List.length (waypoints d)).

(** [array[i]], [None] for [undefined]. *)
Definition item {A : Type} (l : list A) (i : Z) : option A :=
  if i <? 0 then None else nth_error l (Z.to_nat i).

(** [_calculatePathToCurrentWaypoint()]. *)
Definition _calculatePathToCurrentWaypoint (d : t) : Outcome t :=
  match navigationGrid with
  | None => Returned (set_path None (-1) d)
  | Some grid =>
      if (currentWaypointIndex d <? 0) || (waypoint_count d <=? currentWaypointIndex d)
      then Returned (set_path None (-1) d)
      else
        let startPos := DronePhysics.position (physics d) in
        endPos <- defined (item (waypoints d) (currentWaypointIndex d)) ;;
        path <- findPath grid startPos endPos ;;
        match path with
        | Some (node :: nodes) => Returned (set_path (Some (node :: nodes)) 0 d)
        | _ => Returned (set_path None (-1) d)
        end
  end.

(** [setWaypoints(waypointsArray)]. *)
Definition setWaypoints (waypointsArray : list (Vector3 R)) (d : t) : Outcome t :=
  let d := mkDrone (physics d) (isFlying d) (collidableObjects d) (isAutonomous d)
                   waypointsArray 0 None (-1) in
  if isAutonomous d && (0 <? waypoint_count d)
  then _calculatePathToCurrentWaypoint d
  else Returned d.

(** [toggleAutonomousMode()]. *)
Definition toggleAutonomousMode (d : t) : Outcome t :=
  let d := set_isAutonomous (negb (isAutonomous d)) d in
  if isAutonomous d then
    let d := set_physics (DronePhysics.exitFormation (physics d)) d in
    if (0 <? waypoint_count d) && (currentWaypointIndex d <? waypoint_count d)
       && match currentPath d with None => true | Some _ => false end
    then _calculatePathToCurrentWaypoint d
    else Returned d
  else Returned (set_path None (-1) d).

(** [_updateAutonomousMovement(delta)]. *)
Definition _updateAutonomousMovement (delta : R) (amb : DronePhysics.Ambient R) (d : t)
  : Outcome t :=
  let hover d :=
    set_physics (DronePhysics.update delta DronePhysics.no_keys (isFlying d) None amb
                                     (physics d)) d in
  if (waypoint_count d =? 0) || (currentWaypointIndex d <? 0)
     || (waypoint_count d <=? currentWaypointIndex d)
  then
    let d :=
      if isAutonomous d && (0 <? waypoint_count d)
         && (waypoint_count d <=? currentWaypointIndex d)
      then set_isAutonomous false d else d in
    Returned (hover d)
  else
    d <- match currentPath d with
         | Some _ =>
             if currentTargetPathNodeIndex d <? 0
             then _calculatePathToCurrentWaypoint d else Returned d
         | None => _calculatePathToCurrentWaypoint d
         end ;;
    match currentPath d with
    | None => Returned (hover d)
    | Some path =>
        targetPathNode <- defined (item path (currentTargetPathNodeIndex d)) ;;
        let d :=
          set_physics (DronePhysics.update delta DronePhysics.no_keys (isFlying d)
                                           (Some targetPathNode) amb (physics d)) d in
        let distanceToNode :=
          JSMath.distanceTo (DronePhysics.position (physics d)) targetPathNode in
        if Rlt_dec distanceToNode DronePhysics.autonomousTargetReachedThreshold then
          let d := set_path (currentPath d) (currentTargetPathNodeIndex d + 1) d in
          if Z.of_nat (List.length path) <=? currentTargetPathNodeIndex d then
            let d := set_currentWaypointIndex (currentWaypointIndex d + 1) d in
            let d := set_path None (-1) d in
            if waypoint_count d <=? currentWaypointIndex d
            then Returned (set_isAutonomous false d)
            else Returned d
          else Returned d
        else Returned d
    end.

(** [update(delta, keys)].  [droneBoundingBox] is the box of the rendered
    model, [this.droneBoundingBox.setFromObject(this.renderer.object)]. *)
Definition update (delta : R) (keys : DronePhysics.Keys) (amb : DronePhysics.Ambient R)
           (droneBoundingBox : Box3 R) (d : t) : Outcome t :=
  if negb (isFlying d) then Returned d
  else
    d <- (if isAutonomous d then _updateAutonomousMovement delta amb d
          else Returned (set_physics (DronePhysics.update delta keys (isFlying d) None amb
                                                          (physics d)) d)) ;;
    if (0 <? Z.of_nat (List.length (collidableObjects d)))
       && negb (DronePhysics.crashed (physics d))
    then Returned (set_physics (DronePhysics.checkCollision (collidableObjects d)
                                                            droneBoundingBox (physics d)) d)
    else Returned d.

(** [followFormationPosition(targetPosition, targetRotation, delta)]. *)
Definition followFormationPosition (targetPosition : Vector3 R) (targetRotation : R)
           (delta : R) (d : t) : t :=
  if negb (isFlying d) then d
  else set_physics (DronePhysics.moveToFormationPosition targetPosition targetRotation
                                                         delta (physics d)) d.

(** [exitFormation()]. *)
Definition exitFormation (d : t) : t :=
  set_physics (DronePhysics.exitFormation (physics d)) d.

End Drone.
End Drone.

(** ** DroneManager: formation targets *)

Module DroneManager.
Import String.
Section Manager.
Local Open Scope R_scope.
Local Open Scope outcome_scope.

Record t : Type := mkManager {
  drones : list Drone.t;
  activeDroneIndex : Z;            (* -1 when there is none *)
  formationMode : bool;
  formationPattern : String.string;
  formationSpacing : R
}.





End Manager.
End DroneManager.

(** ** Concrete data for runs of the code, in binary64 *)

Module Scenario.
Import Floats.
Local Open Scope float_scope.

(** [new NavigationGrid(10, 10, 1)]: ten by ten cells of size 1, ground
    level 0, no obstacle. *)
Definition grid10 : option (NavigationGrid.t float) :=
  NavigationGrid.construct 10 10 1 0.

(** The same grid as a value. *)
Definition open10 : NavigationGrid.t float :=
  Eval vm_compute in
    match grid10 with
    | Some g => g
    | None => NavigationGrid.mkGrid 10 10 1 0 0 0 []
    end.

(** Start and target altitudes the runs are made at: below the ground
    clearance of [0 + 1.0], at it, and above it. *)
Definition altitudes : list float :=
  [-5; 0; 0.5; 1; 1.5; 2; 5; 10; 12.5; 20; 50; 100; 1000].

(** A box of height 8 over the cells with indices 7 and 8 in x and z. *)
Definition tower : Box3 float :=
  mkBox3 (mkVector3 2.25 0 2.25) (mkVector3 3.75 8 3.75).

Definition city10 : option (NavigationGrid.t float) :=
  option_map (fun g => NavigationGrid.populateFromObjects g [tower]) grid10.

(** The grid with the tower on it. *)
Definition city : NavigationGrid.t float :=
  NavigationGrid.populateFromObjects open10 [tower].

(** Positions: the centre of cell (0, 0), a point of that cell off its
    centre, the centres of cells (2, 2), (2, 0) and (9, 0), a point under
    the tower, and a point outside the grid, at altitudes 5 and 7. *)
Definition corner : Vector3 float := mkVector3 (-4.5) 5 (-4.5).
Definition off_centre : Vector3 float := mkVector3 (-4.25) 5 (-4.25).
Definition inner : Vector3 float := mkVector3 (-2.5) 5 (-2.5).
Definition edge : Vector3 float := mkVector3 (-2.5) 7 (-4.5).
Definition far_corner : Vector3 float := mkVector3 4.5 5 (-4.5).
Definition under_tower : Vector3 float := mkVector3 2.5 5 2.5.
Definition far_away : Vector3 float := mkVector3 (-20) 5 0.

(** Grids of several sizes: the ten by ten grid, a world of 200 by 200
    with the cell size 5 of [main.js], and cell sizes that binary64 does
    not hold exactly or that do not divide the world. *)
Definition grids : list (option (NavigationGrid.t float)) :=
  [ NavigationGrid.construct 10 10 1 0;
    NavigationGrid.construct 200 200 5 0;
    NavigationGrid.construct 10 10 (1 / 10) 0;
    NavigationGrid.construct 20 20 (1 / 3) 0;
    NavigationGrid.construct 7 13 (7 / 100) 0 ].

(** [Pathfinder.findPath] as the navigator calls it; one hundred rounds
    cover the hundred cells. *)
Definition search (g : NavigationGrid.t float) (from to : Vector3 float)
           (droneSafetyMargin altitudeChangePenalty : float)
  : Outcome (option (list (Vector3 float))) :=
  Pathfinder.findPath 100 g from to droneSafetyMargin altitudeChangePenalty.
End Scenario.

(** ** A fleet of three, in exact arithmetic *)

Module Fleet.
Import String.
Local Open Scope R_scope.


End Fleet.

(** ** What the grid's methods compute, cell by cell *)

Module GridSpec.
Section Spec.
Context {num : Type} `{Number num}.
Import NavigationGrid.

(** The cell at [(i, j)] is inside the grid and not an obstacle. *)
Definition free (g : t num) (i j : Z) : bool :=
  in_bounds g i j
  && match cell_at g i j with
     | Some c => negb (isObstacle c)
     | None => false
     end.

(** [(nx, nz)] is one of the eight cells around [(x, z)]. *)
Definition adjacent (x z nx nz : Z) : bool :=
  (Z.max (Z.abs (nx - x)) (Z.abs (nz - z)) =? 1)%Z.

(** The index range [populateFromObjects] marks for an object holds
    [(i, j)]: both corners of the footprint map into the grid, and
    [(i, j)] lies between the cells of the two corners. *)
Definition covers (g : t num) (object : Box3 num) (i j : Z) : bool :=
  match worldToGridCoordinates g (vx (bmin object)) (vz (bmin object)),
        worldToGridCoordinates g (vx (bmax object)) (vz (bmax object)) with
  | Some (sx, sz), Some (ex, ez) =>
      ((sx <=? i) && (i <=? ex) && (sz <=? j) && (j <=? ez))%Z
  | _, _ => false
  end.

(** The height [populateFromObjects] leaves in a cell that held [h]: the
    maximum, taken in the order of the list, with the tops of the objects
    that cover the cell. *)
Definition raised (g : t num) (objects : list (Box3 num)) (i j : Z) (h : num) : num :=
  fold_left (fun h object => if covers g object i j then nmax h (vy (bmax object)) else h)
            objects h.

(** The cell [populateFromObjects] leaves at [(i, j)], where [c] was. *)
Definition populated (g : t num) (objects : list (Box3 num)) (i j : Z) (c : Cell num)
  : Cell num :=
  {| maxObstacleHeight := raised g objects i j (groundLevel g);
     isObstacle := existsb (fun object => covers g object i j) objects;
     worldX := worldX c;
     worldZ := worldZ c |}.

End Spec.
End GridSpec.

(** ** What a path of the search is made of *)

Module PathSpec.
Section Spec.
Context {num : Type} `{SearchNumber num}.
Import NavigationGrid Pathfinder GridSpec.
Local Open Scope num_scope.

(** The point [reconstructPath] makes of a cell. *)
Definition point_of (targetWaypointY droneSafetyMargin : num) (c : Cell num) : Vector3 num :=
  mkVector3 (worldX c) (nmax targetWaypointY (maxObstacleHeight c + droneSafetyMargin))
            (worldZ c).

(** [p] is the point of the cell at [r], and that cell is free. *)
Definition at_free_cell (g : t num) (targetWaypointY droneSafetyMargin : num)
           (r : Ref) (p : Vector3 num) : Prop :=
  free g (fst r) (snd r) = true /\
  exists c, cell_at g (fst r) (snd r) = Some c /\
            p = point_of targetWaypointY droneSafetyMargin c.

(** The points of [path] are the points of the cells [refs], in order. *)
Definition follows (g : t num) (targetWaypointY droneSafetyMargin : num)
           (refs : list Ref) (path : list (Vector3 num)) : Prop :=
  Forall2 (at_free_cell g targetWaypointY droneSafetyMargin) refs path.

(** Every two consecutive cells of [refs] are related by [link]. *)
Fixpoint chained (link : Ref -> Ref -> Prop) (refs : list Ref) : Prop :=
  match refs with
  | q :: (r :: _) as rest => link q r /\ chained link rest
  | _ => True
  end.

(** [r] is one of the eight cells around [q]. *)
Definition next_to (q r : Ref) : Prop :=
  adjacent (fst q) (snd q) (fst r) (snd r) = true.

(** The centre of every cell maps back to the cell. *)
Definition centres_round_trip (g : t num) : Prop :=
  forall i j c,
    in_bounds g i j = true -> cell_at g i j = Some c ->
    worldToGridCoordinates g (worldX c) (worldZ c) = Some (i, j).

(** The table of search fields has an entry for every cell of the grid. *)
Definition shaped (g : t num) (nodes : list (list (Node num))) : Prop :=
  List.length nodes = Z.to_nat (gridCellsX g) /\
  Forall (fun row => List.length row = Z.to_nat (gridCellsZ g)) nodes.

Definition free_ref (g : t num) (r : Ref) : Prop := free g (fst r) (snd r) = true.

(** What a round of the search keeps: the table has the shape of the
    grid, the cells of the open set are free, and the parent of a cell is
    a free cell that [link] relates to it. *)
Definition sound (g : t num) (link : Ref -> Ref -> Prop) (st : SearchState num) : Prop :=
  shaped g (nodes st) /\
  Forall (free_ref g) (openSet st) /\
  forall r n q,
    node_at (nodes st) r = Some n -> parent n = Some q ->
    free_ref g q /\ link q r.

End Spec.

(** The call raised an exception. *)
Definition threw {A : Type} (o : Outcome A) : bool :=
  match o with
  | Threw => true
  | _ => false
  end.
End PathSpec.

(** ** Binary64 numbers as the reals they are

    A JavaScript number is NaN, one of the two infinities, or a finite
    binary64 value [m * 2^e] with [|m| < 2^53] and [-1074 <= e <= 971].
    An operation returns the exact result rounded to a nearest such value,
    or an infinity when the exact result is beyond the largest of them by
    half a unit in the last place or more.  IEEE-754 breaks a tie towards
    the even significand; here the rounding is any function to a nearest
    value, so that what is proved holds for that choice too.  There is no
    negative zero. *)

Module Rounded.
Local Open Scope R_scope.

Inductive t : Type :=
| Fin (r : R)
| PosInf
| NegInf
| NaN.

Definition representable (x : R) : Prop :=
  exists m e : Z,
    (Z.abs m < 2 ^ 53)%Z /\ (-1074 <= e <= 971)%Z /\ x = IZR m * powerRZ 2 e.

(** [y] is a binary64 value nearest to [x]. *)
Definition nearest (x y : R) : Prop :=
  representable y /\ forall z, representable z -> Rabs (y - x) <= Rabs (z - x).

Class Rounding : Type := {
  rnd : R -> R;
  rnd_nearest : forall x, nearest x (rnd x)
}.

(** What the engine returns for [Math.sin], [Math.cos] and [Math.atan2] at
    finite arguments.  The language leaves their precision to the
    implementation; a sine and a cosine are taken to lie between -1 and 1,
    and an angle to be of size at most 4. *)
Class MathLibrary : Type := {
  approx_sin : R -> R;
  approx_cos : R -> R;
  approx_atan2 : R -> R -> R;
  approx_sin_range : forall x, Rabs (approx_sin x) <= 1;
  approx_cos_range : forall x, Rabs (approx_cos x) <= 1;
  approx_atan2_range : forall y x, Rabs (approx_atan2 y x) <= 4
}.

(** [2^1024 - 2^970]: from here on a result rounds to an infinity. *)
Definition huge : R := IZR (2 ^ 54 - 1) * powerRZ 2 970.

Section Arithmetic.
Context `{Rounding}.

Definition round (x : R) : t :=
  if Rle_dec huge x then PosInf
  else if Rle_dec x (- huge) then NegInf
  else Fin (rnd x).

(** [r * Infinity]. *)
Definition scaled_infinity (r : R) : t :=
  if Rlt_dec 0 r then PosInf else if Rlt_dec r 0 then NegInf else NaN.

Definition opp (x : t) : t :=
  match x with
  | Fin r => Fin (- r)
  | PosInf => NegInf
  | NegInf => PosInf
  | NaN => NaN
  end.

Definition add (x y : t) : t :=
  match x, y with
  | Fin a, Fin b => round (a + b)
  | NaN, _ | _, NaN => NaN
  | PosInf, NegInf | NegInf, PosInf => NaN
  | PosInf, _ | _, PosInf => PosInf
  | NegInf, _ | _, NegInf => NegInf
  end.

Definition sub (x y : t) : t := add x (opp y).

Definition mul (x y : t) : t :=
  match x, y with
  | Fin a, Fin b => round (a * b)
  | NaN, _ | _, NaN => NaN
  | Fin a, PosInf | PosInf, Fin a => scaled_infinity a
  | Fin a, NegInf | NegInf, Fin a => scaled_infinity (- a)
  | PosInf, PosInf | NegInf, NegInf => PosInf
  | PosInf, NegInf | NegInf, PosInf => NegInf
  end.

Definition div (x y : t) : t :=
  match x, y with
  | Fin a, Fin b => if Req_dec_T b 0 then scaled_infinity a else round (a / b)
  | NaN, _ | _, NaN => NaN
  | Fin _, _ => Fin 0
  | PosInf, Fin b => if Rlt_dec b 0 then NegInf else PosInf
  | NegInf, Fin b => if Rlt_dec b 0 then PosInf else NegInf
  | _, _ => NaN
  end.

(** [Math.max] and [Math.min]. *)
Definition max (x y : t) : t :=
  match x, y with
  | Fin a, Fin b => Fin (Rmax a b)
  | NaN, _ | _, NaN => NaN
  | PosInf, _ | _, PosInf => PosInf
  | NegInf, z | z, NegInf => z
  end.

Definition min (x y : t) : t :=
  match x, y with
  | Fin a, Fin b => Fin (Rmin a b)
  | NaN, _ | _, NaN => NaN
  | NegInf, _ | _, NegInf => NegInf
  | PosInf, z | z, PosInf => z
  end.

(** [Math.sqrt]. *)
Definition sqrt (x : t) : t :=
  match x with
  | Fin a => if Rlt_dec a 0 then NaN else round (R_sqrt.sqrt a)
  | PosInf => PosInf
  | _ => NaN
  end.

(** [Math.abs]. *)
Definition abs (x : t) : t :=
  match x with
  | Fin a => Fin (Rabs a)
  | NaN => NaN
  | _ => PosInf
  end.

(** [x < y]. *)
Definition ltb (x y : t) : bool :=
  match x, y with
  | Fin a, Fin b => if Rlt_dec a b then true else false
  | NaN, _ | _, NaN => false
  | NegInf, NegInf => false
  | NegInf, _ => true
  | _, PosInf => match x with PosInf => false | _ => true end
  | _, _ => false
  end.

(** [x === y]. *)
Definition eqb (x y : t) : bool :=
  match x, y with
  | Fin a, Fin b => if Req_dec_T a b then true else false
  | PosInf, PosInf | NegInf, NegInf => true
  | _, _ => false
  end.

(** [Math.floor], where its value is an integer. *)
Definition floor (x : t) : option Z :=
  match x with
  | Fin a => Some (Int_part a)
  | _ => None
  end.

#[global] Instance number : Number t := {|
  nzero := Fin 0;
  nhalf := Fin 0.5;
  ntwo := Fin 2;
  nadd := add;
  nsub := sub;
  nmul := mul;
  ndiv := div;
  nmax := max;
  nofZ := fun z => round (IZR z);
  nfloor := floor
|}.

#[global] Instance search_number : @SearchNumber t number := {|
  ninfinity := PosInf;
  nSQRT2 := round (R_sqrt.sqrt 2);
  nsqrt := sqrt;
  nabs := abs;
  nltb := ltb;
  neqb := eqb
|}.

(** [a % b]: the exact remainder, with the sign of the dividend. *)
Definition rem (x y : t) : t :=
  match x, y with
  | Fin a, Fin b => if Req_dec_T b 0 then NaN else round (JSMath.rem a b)
  | Fin a, (PosInf | NegInf) => Fin a
  | _, _ => NaN
  end.

(** A number as a condition. *)
Definition truthy (x : t) : bool :=
  match x with
  | Fin a => if Req_dec_T a 0 then false else true
  | NaN => false
  | _ => true
  end.

Context `{MathLibrary}.

Definition sin (x : t) : t :=
  match x with
  | Fin a => round (approx_sin a)
  | _ => NaN
  end.

Definition cos (x : t) : t :=
  match x with
  | Fin a => round (approx_cos a)
  | _ => NaN
  end.

Definition atan2 (y x : t) : t :=
  match y, x with
  | NaN, _ | _, NaN => NaN
  | Fin a, Fin b => round (approx_atan2 a b)
  | Fin a, PosInf => Fin 0
  | Fin a, NegInf => if Rlt_dec a 0 then round (- PI) else round PI
  | PosInf, Fin _ => round (PI / 2)
  | NegInf, Fin _ => round (- (PI / 2))
  | PosInf, PosInf => round (PI / 4)
  | PosInf, NegInf => round (3 * PI / 4)
  | NegInf, PosInf => round (- (PI / 4))
  | NegInf, NegInf => round (- (3 * PI / 4))
  end.

#[global] Instance flight_number : @FlightNumber t number := {|
  flit := round;
  fPI := round PI;
  fopp := opp;
  fmin := min;
  fsqrt := sqrt;
  fabs := abs;
  fsin := sin;
  fcos := cos;
  fatan2 := atan2;
  frem := rem;
  fltb := ltb;
  ftruthy := truthy
|}.

End Arithmetic.

(** A value that is not negative: a non-negative number or [Infinity]. *)
Definition nonnegative (x : t) : Prop :=
  x = PosInf \/ exists r, x = Fin r /\ 0 <= r.

(** A finite value of magnitude at most [bound]. *)
Definition within (bound : R) (x : t) : Prop :=
  exists r, x = Fin r /\ Rabs r <= bound.

End Rounded.

(** ** The flight physics on binary64 values: what the claims speak of *)

Module Flight.
Import Rounded DronePhysics.
Local Open Scope R_scope.

(** Both tilt angles are numbers within [MAX_TILT] = 30 degrees. *)
Definition tilt_bounded (p : DronePhysics.t Rounded.t) : Prop :=
  within 30 (tilt_x (tilt p)) /\ within 30 (tilt_z (tilt p)).

(** A vector of finite coordinates of magnitude at most [2^1000]. *)
Definition moderate (v : Vector3 Rounded.t) : Prop :=
  within (powerRZ 2 1000) (vx v) /\ within (powerRZ 2 1000) (vy v) /\
  within (powerRZ 2 1000) (vz v).

(** What steering at [target] with time step [delta] reads, all finite
    and of magnitude at most [2^1000] (about 1e301): the position, the
    target, the velocity, the heading and the time step. *)
Definition steerable (p : DronePhysics.t Rounded.t) (target : Vector3 Rounded.t)
           (delta : Rounded.t) : Prop :=
  moderate (position p) /\ moderate target /\ moderate (velocity p) /\
  within (powerRZ 2 1000) (rotation p) /\ within (powerRZ 2 1000) delta.

End Flight.

(** ** Grids of moderate size, on binary64 values *)

Module Moderate.
Import Rounded NavigationGrid.
Local Open Scope R_scope.

(** The world extents and the cell size are finite numbers, the cell size
    is between [2^-1000] and [2^900], and an axis has at most [2^40]
    cells: each extent is at most [2^40] cell sizes. *)
Definition moderate (g : NavigationGrid.t Rounded.t) : Prop :=
  exists w d s,
    worldWidth g = Fin w /\ worldDepth g = Fin d /\ cellSize g = Fin s /\
    powerRZ 2 (-1000) <= s <= powerRZ 2 900 /\
    Rabs w <= s * powerRZ 2 40 /\ Rabs d <= s * powerRZ 2 40.

End Moderate.

(** ** The search along the diagonal of the open 10 x 10 grid, on binary64
       values *)

Module Diagonal.
Section Run.
Import Rounded NavigationGrid Pathfinder.
Context `{Rounding}.
Local Open Scope R_scope.

(** The grid object [new NavigationGrid(10, 10, 1)] holds. *)
Definition open10 : NavigationGrid.t Rounded.t :=
  {| worldWidth := Fin 10; worldDepth := Fin 10; cellSize := Fin 1;
     groundLevel := Fin 0; gridCellsX := 10; gridCellsZ := 10;
     grid := map (fun i => map (fun j => new_cell (Fin 10) (Fin 10) (Fin 1) (Fin 0) i j)
                               (indices 10))
                 (indices 10) |}.

(** The world coordinate of the centre of the cells of index [i]. *)
Definition coordinate (i : Z) : R := IZR i - 4.5.

Definition cell (i j : Z) : Cell Rounded.t :=
  {| maxObstacleHeight := Fin 0; isObstacle := false;
     worldX := Fin (coordinate i); worldZ := Fin (coordinate j) |}.

(** The altitudes of the start and of the target position. *)
Variables startY endY : R.

Definition start : Vector3 Rounded.t :=
  mkVector3 (Fin (coordinate 0)) (Fin startY) (Fin (coordinate 0)).
Definition goal : Vector3 Rounded.t :=
  mkVector3 (Fin (coordinate 9)) (Fin endY) (Fin (coordinate 9)).

(** The flight altitude over the start cell, and over every other cell. *)
Definition takeoff : R := Rmax startY 1.
Definition cruise : R := Rmax endY 1.

(** [Math.SQRT2], and the cost of the change of altitude on leaving the
    start cell. *)
Definition root2 : R := rnd (R_sqrt.sqrt 2).
Definition climb : R := rnd (Rabs (rnd (cruise - takeoff)) * 1.5).

(** The cost of reaching the cell [(k, k)] along the diagonal, and of a
    whole path along it, without rounding. *)
Definition line (k : Z) : R := climb + IZR k * R_sqrt.sqrt 2.

(** The point of the returned path over the cell [(i, i)]. *)
Definition point (i : Z) : Vector3 Rounded.t :=
  mkVector3 (Fin (coordinate i)) (Fin cruise) (Fin (coordinate i)).

(** A node the search has not touched. *)
Definition untouched : Node Rounded.t :=
  {| gCost := PosInf; hCost := PosInf; fCost := PosInf; parent := None; flyY := Fin 0 |}.

(** The cost of the step to a neighbour, and the squared distance the
    heuristic takes the root of. *)
Definition step_cost (k : Z) (n : Ref) : R :=
  if ((Z.abs (fst n - k) =? 1) && (Z.abs (snd n - k) =? 1))%Z then root2 else 1.
Definition squared_distance (n : Ref) : Z :=
  ((9 - fst n) * (9 - fst n) + (9 - snd n) * (9 - snd n))%Z.

(** A node of the open set whose total cost is clearly above the cost of
    the path along the diagonal. *)
Definition dearer (nodes : list (list (Node Rounded.t))) (r : Ref) : Prop :=
  exists n f, node_at nodes r = Some n /\ fCost n = Fin f /\ line 9 + 0.3 <= f.

Definition on_diagonal (k : Z) (r : Ref) : Prop :=
  exists j, (0 <= j < k)%Z /\ r = (j, j).

(** [r] is [(j, j)] or one of its neighbours. *)
Definition around (j : Z) (r : Ref) : Prop :=
  (Z.abs (fst r - j) <= 1)%Z /\ (Z.abs (snd r - j) <= 1)%Z.

Definition near_diagonal (k : Z) (r : Ref) : Prop :=
  exists j, (0 <= j < k)%Z /\ around j r.

(** What the step from a node costs before the step itself: the cost so
    far, [b]; the start node adds the cost of the change of altitude. *)
Definition base_of (n : Node Rounded.t) (b : R) : Prop :=
  (gCost n = Fin 0 /\ flyY n = Fin takeoff /\ b = climb) \/
  (gCost n = Fin b /\ flyY n = Fin cruise).

Definition chain (k : Z) (nodes : list (list (Node Rounded.t))) : Prop :=
  forall j, (0 <= j <= k)%Z ->
    exists n, node_at nodes (j, j) = Some n /\
              parent n = (if (j =? 0)%Z then None else Some ((j - 1)%Z, (j - 1)%Z)).

(** The state while the neighbours of [(k, k)] are visited, before the
    visit of [(k + 1, k + 1)]. *)
Record expanding (k : Z) (st : SearchState Rounded.t) : Prop := {
  e_shaped : PathSpec.shaped open10 (nodes st);
  e_closed : forall r, in_set r (closedSet st) = true <-> on_diagonal (k + 1) r;
  e_chain : chain k (nodes st);
  e_base : exists n b, node_at (nodes st) (k, k) = Some n /\ base_of n b /\
                       Rabs (b - line k) <= IZR k / 1000;
  e_open : forall r, In r (openSet st) -> dearer (nodes st) r;
  e_nodup : NoDup (openSet st);
  e_untouched : forall r,
      in_bounds open10 (fst r) (snd r) = true ->
      ~ near_diagonal (k + 1) r \/ r = ((k + 1)%Z, (k + 1)%Z) ->
      node_at (nodes st) r = Some untouched /\ ~ In r (openSet st)
}.

(** The state at the start of the round that takes [(k, k)] out of the
    open set. *)
Record ready (k : Z) (st : SearchState Rounded.t) : Prop := {
  r_shaped : PathSpec.shaped open10 (nodes st);
  r_closed : forall r, in_set r (closedSet st) = true <-> on_diagonal k r;
  r_chain : chain k (nodes st);
  r_head : In (k, k) (openSet st) /\
           exists n g f, node_at (nodes st) (k, k) = Some n /\
                         gCost n = Fin g /\ flyY n = Fin cruise /\
                         Rabs (g - line k) <= IZR k / 1000 /\
                         fCost n = Fin f /\ f <= line 9 + 0.05;
  r_open : forall r, In r (openSet st) -> r <> (k, k) -> dearer (nodes st) r;
  r_nodup : NoDup (openSet st);
  r_untouched : forall r,
      in_bounds open10 (fst r) (snd r) = true -> ~ near_diagonal k r ->
      node_at (nodes st) r = Some untouched /\ ~ In r (openSet st)
}.

End Run.
End Diagonal.

(** * Properties *)

(** ** Arrays updated in place *)

Section UpdateFacts.
Context {A : Type}.

Lemma update_nth_length (f : A -> A) (n : nat) (l : list A) :
  List.length (update_nth f n l) = List.length l.
Proof.
  revert n; induction l as [|a l IH]; intros [|n]; simpl; auto.
Qed.

Lemma update_nth_erase {B : Type} (erase : A -> B) (f : A -> A) (n : nat) (l : list A) :
  (forall a, erase (f a) = erase a) ->
  map erase (update_nth f n l) = map erase l.
Proof.
  intros Hf; revert n; induction l as [|a l IH]; intros [|n]; simpl; auto.
  - now rewrite Hf.
  - now rewrite IH.
Qed.

Lemma update_nth_Forall (P : A -> Prop) (f : A -> A) (n : nat) (l : list A) :
  (forall a, P a -> P (f a)) -> Forall P l -> Forall P (update_nth f n l).
Proof.
  intros Hf Hl; revert n; induction Hl as [|a l Ha Hl IH]; intros [|n]; simpl;
    constructor; auto.
Qed.

Lemma update_nth_ext_in (f f' : A -> A) (n : nat) (l : list A) :
  (forall a, In a l -> f a = f' a) -> update_nth f n l = update_nth f' n l.
Proof.
  revert n; induction l as [|a l IH]; intros [|n] Hf; simpl; auto.
  - rewrite Hf by (left; reflexivity); reflexivity.
  - rewrite IH; auto. intros b Hb; apply Hf; right; exact Hb.
Qed.

Lemma update_nth_twice (f f' : A -> A) (n : nat) (l : list A) :
  update_nth f' n (update_nth f n l) = update_nth (fun a => f' (f a)) n l.
Proof.
  revert n; induction l as [|a l IH]; intros [|n]; simpl; auto.
  now rewrite IH.
Qed.

Lemma update_nth_shift (f : A -> A) (ks : list nat) (a : A) (l : list A) :
  fold_left (fun l k => update_nth f k l) (map S ks) (a :: l)
  = a :: fold_left (fun l k => update_nth f k l) ks l.
Proof.
  revert l; induction ks as [|k ks IH]; intros l; simpl; auto.
Qed.

(** Updating every index of an array in turn maps the update over it. *)
Lemma update_every_index (f : A -> A) (l : list A) :
  fold_left (fun l k => update_nth f k l) (seq 0 (List.length l)) l = map f l.
Proof.
  induction l as [|a l IH]; simpl; auto.
  rewrite <- seq_shift, update_nth_shift, IH; reflexivity.
Qed.

Lemma fold_left_invariant {S' X : Type} (P : S' -> Prop) (step : S' -> X -> S')
      (xs : list X) (s : S') :
  (forall s x, P s -> P (step s x)) -> P s -> P (fold_left step xs s).
Proof.
  intros Hstep; revert s; induction xs as [|x xs IH]; intros s Hs; simpl; auto.
Qed.
End UpdateFacts.

(** Updating the cells [ks] of row [i] one by one updates row [i] once. *)
Lemma update_row_fold {A : Type} (f : A -> A) (i : nat) (ks : list nat)
      (rows : list (list A)) :
  fold_left (fun rows k => update_nth (update_nth f k) i rows) ks rows
  = update_nth (fun row => fold_left (fun row k => update_nth f k row) ks row) i rows.
Proof.
  revert rows; induction ks as [|k ks IH]; intros rows; simpl.
  - clear; revert i; induction rows as [|r rows IH]; intros [|i]; simpl; auto.
    now rewrite <- IH.
  - rewrite IH, update_nth_twice; reflexivity.
Qed.


(** ** The grid: what its methods keep *)

Section GridFacts.
Context {num : Type} `{Number num}.
Import NavigationGrid.

Lemma keeps_refl {B : Type} (erase : Cell num -> B) (g : t num) : keeps erase g g.
Proof. unfold keeps, same_frame; intuition. Qed.

Lemma keeps_trans {B : Type} (erase : Cell num -> B) (g1 g2 g3 : t num) :
  keeps erase g1 g2 -> keeps erase g2 g3 -> keeps erase g1 g3.
Proof.
  unfold keeps, same_frame.
  intros (F1 & W1 & E1) (F2 & W2 & E2).
  split; [|split].
  - intuition congruence.
  - auto.
  - congruence.
Qed.

Lemma well_formed_update (f : Cell num -> Cell num) (i j : Z) (g : t num) :
  well_formed g -> well_formed (update_cell f i j g).
Proof.
  unfold well_formed, update_cell; simpl. intros [Hx Hz]; split.
  - now rewrite update_nth_length.
  - apply update_nth_Forall; auto.
    intros row Hrow. now rewrite update_nth_length.
Qed.

Lemma keeps_update {B : Type} (erase : Cell num -> B) (f : Cell num -> Cell num)
      (i j : Z) (g : t num) :
  (forall c, erase (f c) = erase c) -> keeps erase g (update_cell f i j g).
Proof.
  intros Hf. unfold keeps. split; [|split].
  - unfold same_frame; simpl; intuition.
  - apply well_formed_update.
  - unfold update_cell; simpl.
    apply update_nth_erase. intros row. now apply update_nth_erase.
Qed.

(** A loop keeps what every round of it keeps. *)
Lemma keeps_loop {B X : Type} (erase : Cell num -> B) (body : t num -> X -> t num)
      (xs : list X) (g : t num) :
  (forall g' x, keeps erase g' (body g' x)) -> keeps erase g (fold_left body xs g).
Proof.
  intros Hbody.
  apply (@fold_left_invariant (t num) X (keeps erase g)).
  - intros g' x Hg'. eapply keeps_trans; [exact Hg'|apply Hbody].
  - apply keeps_refl.
Qed.

Lemma keeps_reset {B : Type} (erase : Cell num -> B) (g : t num) :
  (forall ground c, erase (reset_cell ground c) = erase c) ->
  keeps erase g (reset_obstacles g).
Proof.
  intros He. unfold reset_obstacles.
  apply keeps_loop; intros g1 i.
  apply keeps_loop; intros g2 j.
  apply keeps_update, He.
Qed.

Lemma keeps_mark {B : Type} (erase : Cell num -> B) (g : t num) (object : Box3 num) :
  (forall topY c, erase (mark_cell topY c) = erase c) ->
  keeps erase g (mark_object g object).
Proof.
  intros He. unfold mark_object.
  destruct (worldToGridCoordinates g _ _) as [[sx sz]|]; [|apply keeps_refl].
  destruct (worldToGridCoordinates g _ _) as [[ex ez]|]; [|apply keeps_refl].
  apply keeps_loop; intros g1 i.
  destruct (_ || _); [apply keeps_refl|].
  apply keeps_loop; intros g2 j.
  destruct (_ || _); [apply keeps_refl|].
  apply keeps_update, He.
Qed.

Lemma keeps_populate {B : Type} (erase : Cell num -> B) (g : t num)
      (objects : list (Box3 num)) :
  (forall ground c, erase (reset_cell ground c) = erase c) ->
  (forall topY c, erase (mark_cell topY c) = erase c) ->
  keeps erase g (populateFromObjects g objects).
Proof.
  intros Hr Hm. unfold populateFromObjects.
  eapply keeps_trans; [apply keeps_reset, Hr|].
  apply keeps_loop; intros g' object. apply keeps_mark, Hm.
Qed.

Lemma nth_error_indices (n i : Z) :
  (0 <= i < n)%Z -> nth_error (indices n) (Z.to_nat i) = Some i.
Proof.
  intros Hi. unfold indices.
  rewrite nth_error_map, nth_error_seq.
  destruct (Nat.ltb_spec (Z.to_nat i) (Z.to_nat n)) as [_|Hge]; [|lia].
  simpl. f_equal. lia.
Qed.

Lemma length_indices (n : Z) : List.length (indices n) = Z.to_nat n.
Proof. unfold indices. now rewrite length_map, length_seq. Qed.

Lemma construct_well_formed (w d c ground : num) (g : t num) :
  construct w d c ground = Some g -> well_formed g.
Proof.
  unfold construct.
  destruct (nfloor (ndiv w c)) as [cx|]; [|discriminate].
  destruct (nfloor (ndiv d c)) as [cz|]; [|discriminate].
  intros [= <-]. unfold well_formed; simpl. split.
  - now rewrite length_map, length_indices.
  - apply Forall_map, Forall_forall. intros i _.
    now rewrite length_map, length_indices.
Qed.

Lemma reachable_well_formed (g : t num) : Reachable g -> well_formed g.
Proof.
  induction 1 as [w d c ground g Hg|g objects _ IH].
  - eapply construct_well_formed; eauto.
  - apply (keeps_populate (fun _ => tt) g objects); auto.
Qed.

(** Inside the counts a well-formed grid has a cell object. *)
Lemma well_formed_cell_at (g : t num) (i j : Z) :
  well_formed g -> in_bounds g i j = true -> exists c, cell_at g i j = Some c.
Proof.
  unfold well_formed, in_bounds, cell_at. intros [Hx Hz] Hb.
  apply andb_prop in Hb as [Hb Hj2]. apply andb_prop in Hb as [Hb Hj1].
  apply andb_prop in Hb as [Hi1 Hi2].
  apply Z.leb_le in Hi1, Hj1. apply Z.ltb_lt in Hi2, Hj2.
  destruct (Z.ltb_spec i 0); [lia|]. destruct (Z.ltb_spec j 0); [lia|]. simpl.
  destruct (nth_error (grid g) (Z.to_nat i)) as [row|] eqn:Hrow.
  - assert (Hlen : List.length row = Z.to_nat (gridCellsZ g)).
    { rewrite Forall_forall in Hz. apply Hz. eapply nth_error_In; eauto. }
    destruct (nth_error row (Z.to_nat j)) as [c|] eqn:Hc; [eauto|].
    apply nth_error_None in Hc. lia.
  - apply nth_error_None in Hrow. lia.
Qed.

Lemma worldToGrid_in_bounds (g : t num) (x z : num) (i j : Z) :
  worldToGridCoordinates g x z = Some (i, j) -> in_bounds g i j = true.
Proof.
  unfold worldToGridCoordinates.
  destruct (nfloor _) as [gx|]; [|discriminate].
  destruct (nfloor _) as [gz|]; [|discriminate].
  destruct (in_bounds g gx gz) eqn:Hb; [|discriminate].
  now intros [= <- <-].
Qed.

(** What [erase] reads of the cell at an index is what it read before. *)
Lemma keeps_cell_at {B : Type} (erase : Cell num -> B) (g g' : t num) (i j : Z) (c : Cell num) :
  keeps erase g g' -> cell_at g i j = Some c ->
  exists c', cell_at g' i j = Some c' /\ erase c' = erase c.
Proof.
  intros (_ & _ & He). unfold cell_at.
  destruct (_ || _); [discriminate|].
  assert (Hrow : nth_error (map (map erase) (grid g')) (Z.to_nat i)
                 = nth_error (map (map erase) (grid g)) (Z.to_nat i)) by now rewrite He.
  rewrite !nth_error_map in Hrow.
  destruct (nth_error (grid g) (Z.to_nat i)) as [row|]; [|discriminate].
  destruct (nth_error (grid g') (Z.to_nat i)) as [row'|]; [|discriminate].
  simpl in Hrow. injection Hrow as Hrow. intros Hc.
  assert (Hcell : nth_error (map erase row') (Z.to_nat j)
                  = nth_error (map erase row) (Z.to_nat j)) by now rewrite Hrow.
  rewrite !nth_error_map, Hc in Hcell.
  destruct (nth_error row' (Z.to_nat j)) as [c'|]; [|discriminate].
  simpl in Hcell. injection Hcell as Hcell. eauto.
Qed.

(** The cell objects the constructor makes. *)
Lemma construct_cell_at (w d c ground : num) (g : t num) (i j : Z) :
  construct w d c ground = Some g -> in_bounds g i j = true ->
  cell_at g i j = Some (new_cell w d c ground i j).
Proof.
  unfold construct.
  destruct (nfloor (ndiv w c)) as [cx|]; [|discriminate].
  destruct (nfloor (ndiv d c)) as [cz|]; [|discriminate].
  intros [= <-]. unfold in_bounds, cell_at; simpl. intros Hb.
  apply andb_prop in Hb as [Hb Hj2]. apply andb_prop in Hb as [Hb Hj1].
  apply andb_prop in Hb as [Hi1 Hi2].
  apply Z.leb_le in Hi1, Hj1. apply Z.ltb_lt in Hi2, Hj2.
  destruct (Z.ltb_spec i 0); [lia|]. destruct (Z.ltb_spec j 0); [lia|]. simpl.
  rewrite nth_error_map, nth_error_indices by lia. simpl.
  rewrite nth_error_map, nth_error_indices by lia. reflexivity.
Qed.

(** Every cell of a grid object sits where the constructor put it. *)
Lemma reachable_centres (g : t num) :
  Reachable g ->
  forall i j, in_bounds g i j = true ->
  exists cell,
    cell_at g i j = Some cell /\
    worldX cell = nsub (nmul (nadd (nofZ i) nhalf) (cellSize g)) (ndiv (worldWidth g) ntwo) /\
    worldZ cell = nsub (nmul (nadd (nofZ j) nhalf) (cellSize g)) (ndiv (worldDepth g) ntwo).
Proof.
  induction 1 as [w d c ground g Hg|g objects _ IH]; intros i j Hb.
  - exists (new_cell w d c ground i j). split.
    + eapply construct_cell_at; eauto.
    + revert Hg. unfold construct.
      destruct (nfloor (ndiv w c)); [|discriminate].
      destruct (nfloor (ndiv d c)); [|discriminate].
      intros [= <-]. simpl. auto.
  - pose proof (keeps_populate (fun c => (worldX c, worldZ c)) g objects
                               (fun _ _ => eq_refl) (fun _ _ => eq_refl)) as Hk.
    destruct (proj1 Hk) as (Fw & Fd & Fc & _ & Fx & Fz).
    assert (Hb' : in_bounds g i j = true)
      by (unfold in_bounds in *; now rewrite <- Fx, <- Fz).
    destruct (IH i j Hb') as (cell & Hcell & Hx & Hz).
    destruct (keeps_cell_at i j Hk Hcell) as (cell' & Hcell' & Hsame).
    exists cell'. injection Hsame as Hx' Hz'.
    rewrite Fw, Fd, Fc, Hx', Hz'. auto.
Qed.

End GridFacts.

(** ** The grid: the reset loop and repeated population *)

Section PopulateFacts.
Context {num : Type} `{Number num}.
Import NavigationGrid.

Lemma with_rows_frame (rows : list (list (Cell num))) (g g' : t num) :
  same_frame g g' -> with_rows rows g' = with_rows rows g.
Proof.
  unfold same_frame, with_rows. intros (-> & -> & -> & -> & -> & ->). reflexivity.
Qed.

(** The inner loop of the reset, over the cells [ks] of row [i]. *)
Lemma reset_row (i : Z) (ks : list nat) (g : t num) :
  fold_left (fun g j => update_cell (reset_cell (groundLevel g)) i j g)
            (map Z.of_nat ks) g
  = with_rows
      (update_nth
         (fun row => fold_left (fun row k => update_nth (reset_cell (groundLevel g)) k row)
                               ks row)
         (Z.to_nat i) (grid g)) g.
Proof.
  rewrite <- update_row_fold.
  revert g; induction ks as [|k ks IH]; intros g; simpl.
  - destruct g; reflexivity.
  - rewrite IH. unfold update_cell, with_rows; simpl. now rewrite Nat2Z.id.
Qed.

(** The outer loop of the reset, over the rows [ns]. *)
Lemma reset_rows (ns : list nat) (g : t num) :
  Forall (fun row => List.length row = Z.to_nat (gridCellsZ g)) (grid g) ->
  fold_left
    (fun g i =>
       fold_left (fun g j => update_cell (reset_cell (groundLevel g)) i j g)
                 (indices (gridCellsZ g)) g)
    (map Z.of_nat ns) g
  = with_rows
      (fold_left (fun rows i => update_nth (map (reset_cell (groundLevel g))) i rows)
                 ns (grid g)) g.
Proof.
  revert g; induction ns as [|i ns IH]; intros g Hrows; simpl.
  - destruct g; reflexivity.
  - unfold indices at 2. rewrite reset_row, Nat2Z.id.
    rewrite IH; simpl.
    + unfold with_rows; simpl. do 2 f_equal.
      apply update_nth_ext_in. intros row Hrow.
      rewrite Forall_forall in Hrows. rewrite <- (Hrows row Hrow).
      apply update_every_index.
    + apply update_nth_Forall; auto.
      intros row <-. clear. generalize (seq 0 (List.length row)) as ks.
      intros ks; revert row; induction ks as [|k ks IH]; intros row; simpl; auto.
      now rewrite IH, update_nth_length.
Qed.

(** On a well-formed grid the reset loop resets every cell. *)
Lemma reset_obstacles_rows (g : t num) :
  well_formed g ->
  reset_obstacles g = with_rows (map (map (reset_cell (groundLevel g))) (grid g)) g.
Proof.
  intros [Hx Hz]. unfold reset_obstacles.
  change (indices (gridCellsX g)) with (map Z.of_nat (seq 0 (Z.to_nat (gridCellsX g)))).
  rewrite reset_rows by exact Hz.
  now rewrite <- Hx, update_every_index.
Qed.

End PopulateFacts.


(** ** Claims about the grid *)

Section GridClaims.
Context {num : Type} `{Number num}.
Import NavigationGrid.

(** C9.  Population is idempotent: on every grid object, calling
    [populateFromObjects] twice in a row with the same obstacle list leaves
    the grid (hence every cell's [isObstacle] flag and [maxObstacleHeight])
    exactly as one call leaves it. *)
Theorem populate_twice_same (g : t num) (objects : list (Box3 num)) :
  well_formed g ->
  populateFromObjects (populateFromObjects g objects) objects
  = populateFromObjects g objects.
Proof.
  intros Hwf.
  set (erase := reset_cell (groundLevel g)).
  assert (Hk : keeps erase g (populateFromObjects g objects))
    by (apply keeps_populate; reflexivity).
  destruct Hk as (Hframe & Hwf' & Herase).
  assert (Hreset : reset_obstacles (populateFromObjects g objects) = reset_obstacles g).
  { rewrite (reset_obstacles_rows (Hwf' Hwf)), (reset_obstacles_rows Hwf).
    destruct Hframe as (Fw & Fd & Fc & Fg & Fx & Fz).
    rewrite Fg. fold erase. rewrite Herase.
    apply with_rows_frame. repeat split; assumption. }
  unfold populateFromObjects at 1. rewrite Hreset. reflexivity.
Qed.

End GridClaims.

Section GridRuns.
Import Floats.

Lemma open10_constructed : Scenario.grid10 = Some Scenario.open10.
Proof. vm_compute. reflexivity. Qed.

Lemma open10_well_formed : NavigationGrid.well_formed Scenario.open10.
Proof.
  apply (@construct_well_formed _ _ (10%float) (10%float) (1%float) (0%float)).
  exact open10_constructed.
Qed.

Lemma populate_twice_same_witness :
  NavigationGrid.well_formed Scenario.open10 /\
  NavigationGrid.populateFromObjects
    (NavigationGrid.populateFromObjects Scenario.open10 [Scenario.tower])
    [Scenario.tower]
  = NavigationGrid.populateFromObjects Scenario.open10 [Scenario.tower].
Proof.
  split.
  - exact open10_well_formed.
  - exact (populate_twice_same [Scenario.tower] open10_well_formed).
Defined.

End GridRuns.

(** ** Claims about the pathfinder's guards *)

Section GuardClaims.
Context {num : Type} `{SearchNumber num}.
Import NavigationGrid Pathfinder.

(** C7.  [findPath] returns [null] whenever the start or the end position
    maps outside the grid, or the cell of the start or of the end is flagged
    as an obstacle.  It does so before any round of the search: the answer is
    the same for every bound on the rounds, zero included. *)
Theorem findPath_rejects_bad_endpoints
        (fuel : nat) (navGrid : t num) (startWorldPos endWorldPos : Vector3 num)
        (droneSafetyMargin altitudeChangePenalty : num) :
  well_formed navGrid ->
  outside navGrid startWorldPos \/ outside navGrid endWorldPos \/
  blocked navGrid startWorldPos \/ blocked navGrid endWorldPos ->
  findPath fuel navGrid startWorldPos endWorldPos droneSafetyMargin altitudeChangePenalty
  = Returned None.
Proof.
  intros Hwf Hbad. unfold findPath, outside, blocked in *.
  destruct Hbad as [Hs|[He|[(i & j & c & Hs & Hc & Hobs)|(i & j & c & He & Hc & Hobs)]]].
  - now rewrite Hs.
  - rewrite He.
    now destruct (worldToGridCoordinates navGrid (vx startWorldPos) (vz startWorldPos)).
  - rewrite Hs.
    destruct (worldToGridCoordinates navGrid (vx endWorldPos) (vz endWorldPos))
      as [[ei ej]|] eqn:He; [|reflexivity].
    destruct (well_formed_cell_at ei ej Hwf (worldToGrid_in_bounds _ _ _ He)) as [ce Hce].
    simpl. rewrite Hc, Hce. simpl. now rewrite Hobs.
  - rewrite He.
    destruct (worldToGridCoordinates navGrid (vx startWorldPos) (vz startWorldPos))
      as [[si sj]|] eqn:Hs; [|reflexivity].
    destruct (well_formed_cell_at si sj Hwf (worldToGrid_in_bounds _ _ _ Hs)) as [cs Hcs].
    simpl. rewrite Hc, Hcs. simpl. now rewrite Hobs, orb_true_r.
Qed.

End GuardClaims.

Section GuardRuns.
Import Floats.

Lemma city_well_formed : NavigationGrid.well_formed Scenario.city.
Proof.
  destruct (keeps_populate (fun _ => tt) Scenario.open10 [Scenario.tower]
                           (fun _ _ => eq_refl) (fun _ _ => eq_refl)) as (_ & Hwf & _).
  exact (Hwf open10_well_formed).
Qed.

Lemma findPath_rejects_bad_endpoints_witness :
  Pathfinder.blocked Scenario.city Scenario.under_tower /\
  Pathfinder.outside Scenario.city Scenario.far_away /\
  Pathfinder.findPath 0 Scenario.city Scenario.corner Scenario.under_tower
                      Binary64.defaultSafetyMargin Binary64.defaultAltitudePenalty
  = Returned None.
Proof.
  assert (B : Pathfinder.blocked Scenario.city Scenario.under_tower).
  { exists 7%Z, 7%Z. eexists.
    split; [vm_compute; reflexivity|]. split; [vm_compute; reflexivity|reflexivity]. }
  split; [exact B|]. split; [vm_compute; reflexivity|].
  exact (findPath_rejects_bad_endpoints
           0 (startWorldPos := Scenario.corner)
           Binary64.defaultSafetyMargin Binary64.defaultAltitudePenalty
           city_well_formed (or_intror (or_intror (or_intror B)))).
Defined.

End GuardRuns.

(** ** Claims about the waypoint navigator *)

Section NavigatorClaims.
Context {num Grid : Type}.
Variable findPath :
  Grid -> Vector3 num -> Vector3 num -> num -> num ->
  Outcome (option (list (Vector3 num))).
Variable navGrid : Grid.
Variables droneSafetyMargin altitudeChangePenalty : num.
Import WaypointNavigator.

Lemma plan_legs_stitches (from : Vector3 num) (waypoints : list (Vector3 num))
      (legs : list (list (Vector3 num))) :
  Legs findPath navGrid droneSafetyMargin altitudeChangePenalty from waypoints legs ->
  forall fullPath,
    plan_legs findPath navGrid waypoints fullPath from
              droneSafetyMargin altitudeChangePenalty
    = Returned (Some (fullPath ++ List.concat (map (@tl _) legs))).
Proof.
  induction 1 as [from|from waypoint rest leg legs Hleg _ IH]; intros fullPath; simpl.
  - now rewrite app_nil_r.
  - rewrite Hleg; simpl. rewrite IH. now rewrite app_assoc.
Qed.

Lemma plan_legs_fails (from : Vector3 num) (before : list (Vector3 num))
      (legs : list (list (Vector3 num))) (failing : Vector3 num)
      (after : list (Vector3 num)) :
  Legs findPath navGrid droneSafetyMargin altitudeChangePenalty from before legs ->
  findPath navGrid (position_after from before legs) failing
           droneSafetyMargin altitudeChangePenalty = Returned None ->
  forall fullPath,
    plan_legs findPath navGrid (before ++ failing :: after) fullPath from
              droneSafetyMargin altitudeChangePenalty
    = Returned None.
Proof.
  induction 1 as [from|from waypoint rest leg legs Hleg _ IH]; intros Hfail fullPath; simpl.
  - simpl in Hfail. now rewrite Hfail.
  - rewrite Hleg; simpl. apply IH. exact Hfail.
Qed.

(** C2, as the code has it.  When every leg's search succeeds, the path
    [generatePathThroughWaypoints] returns is the start position itself,
    followed, for each leg in order (the first included), by all of the
    leg's points except its first; and each leg after the first starts from
    the last point the previous leg returned. *)
Theorem generate_is_start_then_leg_tails
        (startPos : Vector3 num) (waypoints : list (Vector3 num))
        (legs : list (list (Vector3 num))) :
  Legs findPath navGrid droneSafetyMargin altitudeChangePenalty startPos waypoints legs ->
  generatePathThroughWaypoints findPath navGrid startPos waypoints
                               droneSafetyMargin altitudeChangePenalty
  = Returned (Some (start_then_tails startPos legs)).
Proof.
  intros Hlegs. unfold generatePathThroughWaypoints, start_then_tails.
  destruct waypoints as [|waypoint rest].
  - inversion Hlegs; subst. reflexivity.
  - now rewrite (plan_legs_stitches Hlegs).
Qed.

(** C6.  When the search of any leg returns no path, with every leg before
    it successful, [generatePathThroughWaypoints] returns [null] for the
    whole call: no partial route, and the waypoints after the unreachable
    one are not tried. *)
Theorem generate_fails_when_a_leg_fails
        (startPos : Vector3 num) (before : list (Vector3 num))
        (legs : list (list (Vector3 num))) (failing : Vector3 num)
        (after : list (Vector3 num)) :
  Legs findPath navGrid droneSafetyMargin altitudeChangePenalty startPos before legs ->
  findPath navGrid (position_after startPos before legs) failing
           droneSafetyMargin altitudeChangePenalty = Returned None ->
  generatePathThroughWaypoints findPath navGrid startPos (before ++ failing :: after)
                               droneSafetyMargin altitudeChangePenalty
  = Returned None.
Proof.
  intros Hlegs Hfail. unfold generatePathThroughWaypoints.
  destruct (before ++ failing :: after) eqn:Hw.
  - destruct before; discriminate.
  - rewrite <- Hw. now apply plan_legs_fails with (legs := legs).
Qed.

End NavigatorClaims.

Section NavigatorRuns.
Import Floats WaypointNavigator.
Local Open Scope float_scope.

(** The two legs of the route from [off_centre] through [inner] to [edge]
    on the open grid. *)
Lemma open_route_legs :
  exists legs,
    Legs Scenario.search Scenario.open10
         Binary64.defaultSafetyMargin Binary64.defaultAltitudePenalty
         Scenario.off_centre [Scenario.inner; Scenario.edge] legs /\
    List.length legs = 2%nat.
Proof.
  eexists. split.
  - eapply Legs_cons; [vm_compute; reflexivity|].
    eapply Legs_cons; [vm_compute; reflexivity|].
    apply Legs_nil.
  - reflexivity.
Defined.

Lemma generate_is_start_then_leg_tails_witness :
  exists legs,
    Legs Scenario.search Scenario.open10
         Binary64.defaultSafetyMargin Binary64.defaultAltitudePenalty
         Scenario.off_centre [Scenario.inner; Scenario.edge] legs /\
    generatePathThroughWaypoints Scenario.search Scenario.open10 Scenario.off_centre
                                 [Scenario.inner; Scenario.edge]
                                 Binary64.defaultSafetyMargin Binary64.defaultAltitudePenalty
    = Returned (Some (start_then_tails Scenario.off_centre legs)).
Proof.
  destruct open_route_legs as (legs & Hlegs & _).
  exists legs. split; [exact Hlegs|].
  exact (generate_is_start_then_leg_tails Hlegs).
Defined.

(** C2, as stated, fails.  From [off_centre], a point of cell (0, 0) that
    is not its centre, to the waypoint [inner]: the only leg starts at the
    centre of cell (0, 0), the returned path starts at [off_centre], so the
    path is not the first leg kept in full. *)
Lemma first_leg_is_not_kept_in_full :
  exists leg,
    Legs Scenario.search Scenario.open10
         Binary64.defaultSafetyMargin Binary64.defaultAltitudePenalty
         Scenario.off_centre [Scenario.inner] [leg] /\
    hd_error leg = Some Scenario.corner /\
    exists path,
      generatePathThroughWaypoints Scenario.search Scenario.open10 Scenario.off_centre
                                   [Scenario.inner]
                                   Binary64.defaultSafetyMargin
                                   Binary64.defaultAltitudePenalty
      = Returned (Some path) /\
      hd_error path = Some Scenario.off_centre /\
      path <> first_leg_in_full [leg].
Proof.
  eexists. split; [|split].
  - eapply Legs_cons; [vm_compute; reflexivity|apply Legs_nil].
  - reflexivity.
  - eexists. split; [vm_compute; reflexivity|]. split; [reflexivity|].
    intros E.
    apply (f_equal (fun l => match l with
                             | p :: _ => PrimFloat.ltb (vx p) (-4.25)
                             | [] => false
                             end)) in E.
    vm_compute in E. discriminate E.
Qed.

(** On the grid with the tower: the leg from [corner] to [far_corner] is
    found, the next one, to a point under the tower, is not. *)
Lemma city_route_runs :
  exists legs,
    Legs Scenario.search Scenario.city
         Binary64.defaultSafetyMargin Binary64.defaultAltitudePenalty
         Scenario.corner [Scenario.far_corner] legs /\
    Scenario.search Scenario.city
                    (position_after Scenario.corner [Scenario.far_corner] legs)
                    Scenario.under_tower
                    Binary64.defaultSafetyMargin Binary64.defaultAltitudePenalty
    = Returned None.
Proof.
  eexists. split.
  - eapply Legs_cons; [vm_compute; reflexivity|apply Legs_nil].
  - vm_compute. reflexivity.
Defined.

Lemma generate_fails_when_a_leg_fails_witness :
  exists legs,
    Legs Scenario.search Scenario.city
         Binary64.defaultSafetyMargin Binary64.defaultAltitudePenalty
         Scenario.corner [Scenario.far_corner] legs /\
    Scenario.search Scenario.city
                    (position_after Scenario.corner [Scenario.far_corner] legs)
                    Scenario.under_tower
                    Binary64.defaultSafetyMargin Binary64.defaultAltitudePenalty
    = Returned None /\
    generatePathThroughWaypoints Scenario.search Scenario.city Scenario.corner
                                 ([Scenario.far_corner] ++ Scenario.under_tower :: [Scenario.inner])
                                 Binary64.defaultSafetyMargin Binary64.defaultAltitudePenalty
    = Returned None.
Proof.
  destruct city_route_runs as (legs & Hlegs & Hfail).
  exists legs. split; [exact Hlegs|]. split; [exact Hfail|].
  exact (generate_fails_when_a_leg_fails Scenario.under_tower [Scenario.inner] Hlegs Hfail).
Defined.

End NavigatorRuns.


(** ** Indices and cell centres *)

Section IndexFacts.
Local Open Scope R_scope.

Lemma Int_part_half (i : Z) : Int_part (IZR i + 0.5) = i.
Proof. symmetry. apply Int_part_spec. split; lra. Qed.

End IndexFacts.

Section RoundTripRuns.
Import NavigationGrid.

(** In binary64 the centres of all cells of the grids of [Scenario.grids]
    map back to their index pairs. *)
Lemma round_trip_in_binary64 :
  Forall (fun g => option_map all_round_trip g = Some true) Scenario.grids.
Proof.
  unfold Scenario.grids.
  repeat first [apply Forall_nil | apply Forall_cons]; vm_compute; reflexivity.
Qed.

End RoundTripRuns.

(** ** Claims about the autonomous mode of an agent *)

Section ModeClaims.
Variable Grid : Type.
Variable navigationGrid : option Grid.
Variable findPath :
  Grid -> Vector3 R -> Vector3 R -> Outcome (option (list (Vector3 R))).
Import Drone.

(** C3, as the code has it.  On an agent whose waypoint queue is empty the
    toggle flips the autonomous flag like on any other: an agent that was
    not autonomous is in the Autonomous state afterwards.  What the empty
    queue prevents is the path computation: the current path and target
    index are left as they were, and every later autonomous tick keeps the
    agent autonomous and applies the no-input physics update. *)
Theorem toggle_flips_flag_on_empty_queue (d : Drone.t) :
  waypoints d = [] ->
  exists d',
    toggleAutonomousMode navigationGrid findPath d = Returned d' /\
    isAutonomous d' = negb (isAutonomous d) /\
    waypoints d' = [] /\
    (isAutonomous d = false ->
       currentPath d' = currentPath d /\
       currentTargetPathNodeIndex d' = currentTargetPathNodeIndex d) /\
    (forall delta amb d1,
       waypoints d1 = [] -> isAutonomous d1 = true ->
       _updateAutonomousMovement navigationGrid findPath delta amb d1
       = Returned (set_physics
                     (DronePhysics.update delta DronePhysics.no_keys (isFlying d1) None amb
                                          (physics d1)) d1)).
Proof.
  intros Hempty. unfold toggleAutonomousMode, waypoint_count.
  destruct d as [ph fl objs auto wps idx path tidx]; simpl in *; subst wps.
  destruct auto; simpl.
  - eexists; repeat split; try reflexivity; try discriminate.
    intros delta amb [ph1 fl1 objs1 auto1 wps1 idx1 path1 tidx1]; simpl.
    intros -> ->. reflexivity.
  - eexists; repeat split; try reflexivity.
    intros delta amb [ph1 fl1 objs1 auto1 wps1 idx1 path1 tidx1]; simpl.
    intros -> ->. reflexivity.
Qed.

End ModeClaims.

Section ModeRuns.
Import Drone.
Local Open Scope R_scope.

(** A fresh agent: no navigation grid, no waypoint, not autonomous. *)
Lemma toggle_flips_flag_on_empty_queue_witness :
  waypoints (construct (mkVector3 0 10 0) []) = [] /\
  exists d',
    toggleAutonomousMode (Grid := unit) None (fun _ _ _ => Returned None)
                         (construct (mkVector3 0 10 0) [])
    = Returned d' /\
    isAutonomous d' = true.
Proof.
  split; [reflexivity|].
  destruct (toggle_flips_flag_on_empty_queue
              (Grid := unit) None (fun _ _ _ => Returned None)
              (construct (mkVector3 0 10 0) []) eq_refl)
    as (d' & Htoggle & Hflag & _).
  exists d'. split; [exact Htoggle|exact Hflag].
Defined.

(** C3, as stated, fails: the toggle puts a fresh agent, whose waypoint
    queue is empty, into autonomous mode. *)
Lemma toggle_enters_autonomous_with_empty_queue :
  waypoints (construct (mkVector3 0 10 0) []) = [] /\
  isAutonomous (construct (mkVector3 0 10 0) []) = false /\
  exists d',
    toggleAutonomousMode (Grid := unit) None (fun _ _ _ => Returned None)
                         (construct (mkVector3 0 10 0) [])
    = Returned d' /\
    isAutonomous d' = true /\ waypoints d' = [].
Proof.
  split; [reflexivity|]. split; [reflexivity|].
  eexists. split; [reflexivity|]. split; reflexivity.
Qed.

End ModeRuns.

(** ** The search on the open ten by ten grid, run on binary64 floats *)

Section StaircaseRun.
Import Floats NavigationGrid Pathfinder.
Local Open Scope float_scope.

(** The binary64 runs, for every pair of start and target altitudes in
    [Scenario.altitudes]. *)
Lemma staircase_in_binary64 :
  Forall (fun startY =>
            Forall (fun endY =>
                      staircase Scenario.open10 startY endY
                                Binary64.defaultSafetyMargin Binary64.defaultAltitudePenalty)
                   Scenario.altitudes)
         Scenario.altitudes.
Proof.
  unfold Scenario.altitudes.
  repeat first [apply Forall_nil | apply Forall_cons];
    (eexists _, _, _;
     split; [vm_compute; reflexivity|];
     split; [vm_compute; reflexivity|];
     split; [vm_compute; reflexivity|];
     split; [reflexivity|];
     split; vm_compute; reflexivity).
Qed.

(** C1, as stated, fails at altitudes beyond what binary64 resolves.  From
    the centre of cell (0, 0) at altitude [1e16] to the centre of cell
    (9, 9) at altitude 0, the cost of the change of altitude absorbs the
    cost of a step, a straight step costs what a diagonal one does, and
    the run on binary64 floats returns a path of 19 points. *)
Lemma binary64_absorbs_steps_at_huge_altitude :
  exists g start goal path,
    construct 10 10 1 0 = Some g /\
    centre g 0 0 1e16 = Some start /\
    centre g 9 9 0 = Some goal /\
    findPath 100 g start goal
             Binary64.defaultSafetyMargin Binary64.defaultAltitudePenalty
    = Returned (Some path) /\
    List.length path = 19%nat.
Proof.
  exists Scenario.open10. eexists _, _, _.
  split; [exact open10_constructed|].
  split; [vm_compute; reflexivity|].
  split; [vm_compute; reflexivity|].
  split; [vm_compute; reflexivity|].
  reflexivity.
Qed.

End StaircaseRun.

(** ** Claims about the V formation *)

Section FormationClaims.
Import String DroneManager.
Local Open Scope R_scope.






End FormationClaims.

Section NeighbourFacts.
Context {num : Type} `{Number num}.
Import NavigationGrid GridSpec.

Lemma adjacent_directions (x z nx nz : Z) :
  adjacent x z nx nz = true <->
  In ((nx - x)%Z, (nz - z)%Z) directions.
Proof.
  unfold adjacent, directions. rewrite Z.eqb_eq. simpl. split.
  - intros Hm.
    assert (Hx : (-1 <= nx - x <= 1)%Z) by lia.
    assert (Hz : (-1 <= nz - z <= 1)%Z) by lia.
    assert (Hc : (nx - x = -1 \/ nx - x = 0 \/ nx - x = 1)%Z) by lia.
    assert (Hd : (nz - z = -1 \/ nz - z = 0 \/ nz - z = 1)%Z) by lia.
    destruct Hc as [Hc|[Hc|Hc]], Hd as [Hd|[Hd|Hd]]; rewrite Hc, Hd in *;
      try (exfalso; lia); tauto.
  - intros Hin.
    repeat (destruct Hin as [Hin|Hin]; [injection Hin as Hx Hz; lia|]).
    contradiction.
Qed.

Lemma getNeighbors_In (g : t num) (x z nx nz : Z) :
  In (nx, nz) (getNeighbors g x z) <->
  free g nx nz = true /\ adjacent x z nx nz = true.
Proof.
  unfold getNeighbors. rewrite in_flat_map, adjacent_directions. unfold free. split.
  - intros ([dx dz] & Hdir & Hin). cbn [fst snd] in Hin.
    destruct (in_bounds g (x + dx) (z + dz) && _) eqn:Hok; [|contradiction].
    destruct Hin as [Hin|[]]. injection Hin as <- <-.
    split; [exact Hok|].
    replace (x + dx - x)%Z with dx by lia. replace (z + dz - z)%Z with dz by lia.
    exact Hdir.
  - intros [Hok Hdir]. exists ((nx - x)%Z, (nz - z)%Z). split; [exact Hdir|].
    cbn [fst snd].
    replace (x + (nx - x))%Z with nx by lia. replace (z + (nz - z))%Z with nz by lia.
    rewrite Hok. now left.
Qed.

Lemma getNeighbors_length (g : t num) (x z : Z) :
  (List.length (getNeighbors g x z) <= 8)%nat.
Proof.
  unfold getNeighbors, directions.
  cbn [flat_map]. rewrite !length_app.
  repeat match goal with
         | |- context [if ?c then _ else _] => destruct c
         end; simpl; lia.
Qed.

Lemma getNeighbors_NoDup (g : t num) (x z : Z) : NoDup (getNeighbors g x z).
Proof.
  unfold getNeighbors, directions. cbn [flat_map fst snd].
  repeat match goal with
         | |- context [if ?c then _ else _] => destruct c
         end; cbn [app];
    repeat (constructor; [cbn [In]; intros Hin;
                          repeat (destruct Hin as [Hin|Hin]; [injection Hin; lia|]);
                          exact Hin|]);
    constructor.
Qed.

(** The cells [getNeighbors(x, z)] returns are the free cells among the
    eight around [(x, z)], each once. *)
Theorem getNeighbors_are_the_free_adjacent_cells (g : t num) (x z : Z) :
  (forall nx nz,
      In (nx, nz) (getNeighbors g x z) <->
      free g nx nz = true /\ adjacent x z nx nz = true) /\
  NoDup (getNeighbors g x z) /\
  (List.length (getNeighbors g x z) <= 8)%nat.
Proof.
  split; [|split].
  - intros nx nz. apply getNeighbors_In.
  - apply getNeighbors_NoDup.
  - apply getNeighbors_length.
Qed.

End NeighbourFacts.

Section CellUpdates.
Context {A : Type}.

Lemma nth_error_update_nth (f : A -> A) (n m : nat) (l : list A) :
  nth_error (update_nth f n l) m
  = if Nat.eqb n m then option_map f (nth_error l m) else nth_error l m.
Proof.
  revert n m; induction l as [|a l IH]; intros [|n] [|m]; simpl; auto;
    now destruct (Nat.eqb n m).
Qed.

End CellUpdates.

Lemma In_from_to (a b k : Z) : In k (from_to a b) <-> (a <= k <= b)%Z.
Proof.
  unfold from_to. rewrite in_map_iff. split.
  - intros (n & <- & Hn). apply in_seq in Hn. lia.
  - intros Hk. exists (Z.to_nat (k - a)). split; [lia|]. apply in_seq. lia.
Qed.

Lemma NoDup_from_to (a b : Z) : NoDup (from_to a b).
Proof.
  unfold from_to. generalize (seq_NoDup (Z.to_nat (b - a + 1)) 0).
  induction 1 as [|n ns Hn _ IH]; cbn [map]; constructor; [|exact IH].
  rewrite in_map_iff. intros (m & Hm & Hin).
  assert (m = n) by lia. now subst.
Qed.

Section MarkedCells.
Context {num : Type} `{Number num}.
Import NavigationGrid GridSpec.

Lemma cell_at_update_cell (f : Cell num -> Cell num) (i j a b : Z) (g : t num) :
  (0 <= i)%Z -> (0 <= j)%Z ->
  cell_at (update_cell f i j g) a b
  = if ((a =? i) && (b =? j))%Z then option_map f (cell_at g a b) else cell_at g a b.
Proof.
  intros Hi Hj. unfold cell_at, update_cell; cbn [grid with_rows].
  destruct (Z.ltb_spec a 0); [now destruct (_ && _)|].
  destruct (Z.ltb_spec b 0); [now destruct (_ && _)|]. cbn [orb].
  rewrite nth_error_update_nth.
  destruct (Z.eqb_spec a i) as [->|Hne].
  - rewrite Nat.eqb_refl. destruct (nth_error (grid g) (Z.to_nat i)) as [row|];
      cbn [option_map andb]; [|now destruct (b =? j)%Z].
    rewrite nth_error_update_nth.
    destruct (Z.eqb_spec b j) as [->|Hnj].
    + now rewrite Nat.eqb_refl.
    + destruct (Nat.eqb_spec (Z.to_nat j) (Z.to_nat b)); [lia|reflexivity].
  - destruct (Nat.eqb_spec (Z.to_nat i) (Z.to_nat a)); [lia|reflexivity].
Qed.

Lemma in_bounds_frame (g g' : t num) (i j : Z) :
  same_frame g g' -> in_bounds g' i j = in_bounds g i j.
Proof. unfold in_bounds. now intros (_ & _ & _ & _ & -> & ->). Qed.

Lemma worldToGrid_frame (g g' : t num) (x z : num) :
  same_frame g g' -> worldToGridCoordinates g' x z = worldToGridCoordinates g x z.
Proof.
  intros Hf. unfold worldToGridCoordinates.
  pose proof (fun i j => in_bounds_frame i j Hf) as Hb.
  destruct Hf as (-> & -> & -> & _). 
  destruct (nfloor _); [|reflexivity]. destruct (nfloor _); [|reflexivity].
  now rewrite Hb.
Qed.

Lemma covers_frame (g g' : t num) (object : Box3 num) (i j : Z) :
  same_frame g g' -> covers g' object i j = covers g object i j.
Proof. intros Hf. unfold covers. now rewrite !(worldToGrid_frame _ _ Hf). Qed.

(** The loop over [j] of [populateFromObjects], in row [i]. *)
Definition mark_row (f : Cell num -> Cell num) (i : Z) (js : list Z) (g : t num) : t num :=
  fold_left (fun g j => if ((j <? 0) || (gridCellsZ g <=? j))%Z then g
                        else update_cell f i j g) js g.

Lemma mark_row_frame (f : Cell num -> Cell num) (i : Z) (js : list Z) (g : t num) :
  same_frame g (mark_row f i js g).
Proof.
  unfold mark_row.
  apply (@fold_left_invariant (t num) Z (same_frame g)).
  - intros g' j Hg'. destruct (_ || _); [exact Hg'|].
    unfold same_frame in *; cbn; intuition.
  - unfold same_frame; intuition.
Qed.

Lemma mark_row_cell_at (f : Cell num -> Cell num) (i : Z) (js : list Z) (g : t num)
      (a b : Z) :
  (0 <= i)%Z -> NoDup js -> in_bounds g a b = true ->
  cell_at (mark_row f i js g) a b
  = if (a =? i)%Z && existsb (Z.eqb b) js
    then option_map f (cell_at g a b) else cell_at g a b.
Proof.
  intros Hi. revert g. induction js as [|j js IH]; intros g Hnd Hb; cbn [existsb].
  - now rewrite andb_false_r.
  - inversion Hnd as [|? ? Hnotin Hnd']; subst.
    unfold mark_row in *. cbn [fold_left].
    unfold in_bounds in Hb.
    apply andb_prop in Hb as [Hb Hb4]. apply andb_prop in Hb as [Hb Hb3].
    apply andb_prop in Hb as [Hb1 Hb2].
    apply Z.leb_le in Hb1, Hb3. apply Z.ltb_lt in Hb2, Hb4.
    assert (Hin : in_bounds g a b = true)
      by (unfold in_bounds; rewrite !andb_true_iff, !Z.leb_le, !Z.ltb_lt; lia).
    destruct (Z.ltb_spec j 0) as [Hneg|Hpos]; cbn [orb].
    + rewrite IH by assumption.
      destruct (Z.eqb_spec b j); [lia|reflexivity].
    + destruct (Z.leb_spec (gridCellsZ g) j) as [Hbig|Hsmall].
      * rewrite IH by assumption.
        destruct (Z.eqb_spec b j); [lia|reflexivity].
      * rewrite IH; [|assumption|].
        2:{ unfold in_bounds; cbn. rewrite !andb_true_iff, !Z.leb_le, !Z.ltb_lt; lia. }
        rewrite cell_at_update_cell by lia.
        destruct (Z.eqb_spec a i) as [->|]; cbn [andb]; [|reflexivity].
        destruct (Z.eqb_spec b j) as [->|]; cbn [orb].
        -- assert (Hex : existsb (Z.eqb j) js = false).
           { apply not_true_is_false. intros Hex. apply existsb_exists in Hex.
             destruct Hex as (k & Hk & Hjk). apply Z.eqb_eq in Hjk. now subst. }
           now rewrite Hex.
        -- reflexivity.
Qed.

(** The two loops of [populateFromObjects] for one object. *)
Definition mark_rows (f : Cell num -> Cell num) (ns : list Z) (js : list Z) (g : t num)
  : t num :=
  fold_left (fun g i => if ((i <? 0) || (gridCellsX g <=? i))%Z then g
                        else mark_row f i js g) ns g.

Lemma mark_rows_frame (f : Cell num -> Cell num) (ns js : list Z) (g : t num) :
  same_frame g (mark_rows f ns js g).
Proof.
  unfold mark_rows.
  apply (@fold_left_invariant (t num) Z (same_frame g)).
  - intros g' i Hg'. destruct (_ || _); [exact Hg'|].
    pose proof (mark_row_frame f i js g') as Hf.
    unfold same_frame in *; intuition congruence.
  - unfold same_frame; intuition.
Qed.

Lemma mark_rows_cell_at (f : Cell num -> Cell num) (ns js : list Z) (g : t num)
      (a b : Z) :
  NoDup ns -> NoDup js -> in_bounds g a b = true ->
  cell_at (mark_rows f ns js g) a b
  = if existsb (Z.eqb a) ns && existsb (Z.eqb b) js
    then option_map f (cell_at g a b) else cell_at g a b.
Proof.
  revert g. induction ns as [|i ns IH]; intros g Hns Hjs Hb; cbn [existsb]; [reflexivity|].
  inversion Hns as [|? ? Hnotin Hns']; subst.
  unfold mark_rows in *. cbn [fold_left].
  pose proof Hb as Hb'. unfold in_bounds in Hb'.
  apply andb_prop in Hb' as [Hb' Hb4]. apply andb_prop in Hb' as [Hb' Hb3].
  apply andb_prop in Hb' as [Hb1 Hb2].
  apply Z.leb_le in Hb1, Hb3. apply Z.ltb_lt in Hb2, Hb4.
  destruct (Z.ltb_spec i 0) as [Hneg|Hpos]; cbn [orb].
  - rewrite IH by assumption. destruct (Z.eqb_spec a i); [lia|reflexivity].
  - destruct (Z.leb_spec (gridCellsX g) i) as [Hbig|Hsmall].
    + rewrite IH by assumption. destruct (Z.eqb_spec a i); [lia|reflexivity].
    + rewrite IH; [|assumption|assumption|].
      2:{ now rewrite (in_bounds_frame _ _ (mark_row_frame f i js g)). }
      rewrite mark_row_cell_at by assumption.
      destruct (Z.eqb_spec a i) as [->|]; cbn [andb orb]; [|reflexivity].
      assert (Hex : existsb (Z.eqb i) ns = false).
      { apply not_true_is_false. intros Hex. apply existsb_exists in Hex.
        destruct Hex as (k & Hk & Hik). apply Z.eqb_eq in Hik. now subst. }
      rewrite Hex. cbn [andb].
      now destruct (existsb (Z.eqb b) js).
Qed.

Lemma existsb_from_to (a b k : Z) :
  existsb (Z.eqb k) (from_to a b) = ((a <=? k) && (k <=? b))%Z.
Proof.
  apply eq_true_iff_eq. rewrite existsb_exists, andb_true_iff, !Z.leb_le. split.
  - intros (x & Hx & Hk). apply Z.eqb_eq in Hk; subst. now apply In_from_to.
  - intros Hk. exists k. split; [now apply In_from_to|apply Z.eqb_refl].
Qed.

Lemma mark_object_rows (g : t num) (object : Box3 num) :
  mark_object g object
  = match worldToGridCoordinates g (vx (bmin object)) (vz (bmin object)),
          worldToGridCoordinates g (vx (bmax object)) (vz (bmax object)) with
    | Some (sx, sz), Some (ex, ez) =>
        mark_rows (mark_cell (vy (bmax object))) (from_to sx ex) (from_to sz ez) g
    | _, _ => g
    end.
Proof. reflexivity. Qed.

Lemma mark_object_frame (g : t num) (object : Box3 num) :
  same_frame g (mark_object g object).
Proof.
  rewrite mark_object_rows.
  destruct (worldToGridCoordinates g _ _) as [[sx sz]|]; [|unfold same_frame; intuition].
  destruct (worldToGridCoordinates g _ _) as [[ex ez]|]; [|unfold same_frame; intuition].
  apply mark_rows_frame.
Qed.

(** What marking one object does to the cell at [(a, b)]. *)
Lemma mark_object_cell_at (g : t num) (object : Box3 num) (a b : Z) :
  in_bounds g a b = true ->
  cell_at (mark_object g object) a b
  = if covers g object a b
    then option_map (mark_cell (vy (bmax object))) (cell_at g a b)
    else cell_at g a b.
Proof.
  intros Hb. rewrite mark_object_rows. unfold covers.
  destruct (worldToGridCoordinates g _ _) as [[sx sz]|]; [|reflexivity].
  destruct (worldToGridCoordinates g _ _) as [[ex ez]|]; [|reflexivity].
  rewrite mark_rows_cell_at by (try apply NoDup_from_to; assumption).
  rewrite !existsb_from_to. now rewrite andb_assoc.
Qed.

Lemma marked_cells (g0 : t num) (objects : list (Box3 num)) (a b : Z) :
  forall (g : t num) (c : Cell num),
    same_frame g0 g -> in_bounds g0 a b = true -> cell_at g a b = Some c ->
    cell_at (fold_left mark_object objects g) a b
    = Some {| maxObstacleHeight := raised g0 objects a b (maxObstacleHeight c);
              isObstacle := isObstacle c || existsb (fun o => covers g0 o a b) objects;
              worldX := worldX c;
              worldZ := worldZ c |}.
Proof.
  induction objects as [|o objects IH]; intros g c Hf Hb Hc; cbn [fold_left existsb].
  - unfold raised; cbn. rewrite orb_false_r, Hc. now destruct c.
  - assert (Hf' : same_frame g0 (mark_object g o)).
    { pose proof (mark_object_frame g o) as Hm.
      unfold same_frame in *; intuition congruence. }
    assert (Hb' : in_bounds g a b = true) by now rewrite (in_bounds_frame _ _ Hf).
    pose proof (mark_object_cell_at g o a b Hb') as Hcell.
    rewrite (covers_frame o a b Hf), Hc in Hcell.
    unfold raised. cbn [fold_left]. fold (raised g0 objects a b).
    destruct (covers g0 o a b); cbn [option_map] in Hcell.
    + rewrite (IH _ _ Hf' Hb Hcell). cbn. now rewrite orb_true_r.
    + rewrite (IH _ _ Hf' Hb Hcell). cbn. reflexivity.
Qed.

Lemma populated_cell_at
        (g : t num) (objects : list (Box3 num)) (i j : Z) (c : Cell num) :
  well_formed g -> in_bounds g i j = true -> cell_at g i j = Some c ->
  cell_at (populateFromObjects g objects) i j = Some (populated g objects i j c).
Proof.
  intros Hwf Hb Hc. unfold populateFromObjects.
  rewrite (reset_obstacles_rows Hwf).
  assert (Hreset : cell_at (with_rows (map (map (reset_cell (groundLevel g))) (grid g)) g) i j
                   = Some (reset_cell (groundLevel g) c)).
  { revert Hc. unfold cell_at; cbn [grid with_rows].
    destruct (_ || _); [discriminate|].
    rewrite nth_error_map. destruct (nth_error (grid g) (Z.to_nat i)) as [row|];
      [|discriminate].
    cbn [option_map]. rewrite nth_error_map. now intros ->. }
  assert (Hframe : same_frame g (with_rows (map (map (reset_cell (groundLevel g))) (grid g)) g))
    by (unfold same_frame; cbn; intuition).
  now rewrite (@marked_cells g objects i j _ _ Hframe Hb Hreset).
Qed.

(** What [populateFromObjects] leaves of a well-formed grid: the frame and
    the shape are as before, and in every cell the centre is as before, the
    cell is an obstacle exactly when an object of the list covers it, and
    its height is the maximum, taken along the list, of the ground level
    and the tops of the objects that cover it. *)
Theorem populateFromObjects_cell_by_cell (g : t num) (objects : list (Box3 num)) :
  well_formed g ->
  same_frame g (populateFromObjects g objects) /\
  well_formed (populateFromObjects g objects) /\
  forall i j c,
    in_bounds g i j = true -> cell_at g i j = Some c ->
    cell_at (populateFromObjects g objects) i j = Some (populated g objects i j c).
Proof.
  intros Hwf.
  pose proof (keeps_populate (fun _ => tt) g objects (fun _ _ => eq_refl) (fun _ _ => eq_refl))
    as (Hf & Hw & _).
  split; [exact Hf|]. split; [exact (Hw Hwf)|].
  intros i j c Hb Hc. now apply populated_cell_at.
Qed.

End MarkedCells.

Section IgnoredObjects.
Context {num : Type} `{Number num}.
Import NavigationGrid GridSpec.

Lemma marks_frame (objects : list (Box3 num)) (g : t num) :
  same_frame g (fold_left mark_object objects g).
Proof.
  apply (@fold_left_invariant (t num) (Box3 num) (same_frame g)).
  - intros g' o Hg'. pose proof (mark_object_frame g' o) as Hm.
    unfold same_frame in *; intuition congruence.
  - unfold same_frame; intuition.
Qed.

(** An object whose bounding box has a corner that maps outside the grid
    leaves no trace in the grid, wherever it stands in the list: none of
    the cells it overlaps is marked. *)
Theorem populateFromObjects_ignores_object_off_the_grid
        (g : t num) (before after : list (Box3 num)) (object : Box3 num) :
  worldToGridCoordinates g (vx (bmin object)) (vz (bmin object)) = None \/
  worldToGridCoordinates g (vx (bmax object)) (vz (bmax object)) = None ->
  populateFromObjects g (before ++ object :: after)
  = populateFromObjects g (before ++ after).
Proof.
  intros Hout. unfold populateFromObjects.
  rewrite !fold_left_app. cbn [fold_left]. f_equal.
  set (g' := fold_left mark_object before (reset_obstacles g)).
  assert (Hf : same_frame g g').
  { pose proof (keeps_reset (fun _ => tt) g (fun _ _ => eq_refl)) as (Hr & _).
    pose proof (marks_frame before (reset_obstacles g)) as Hm. fold g' in Hm.
    unfold same_frame in *; intuition congruence. }
  rewrite mark_object_rows, !(worldToGrid_frame _ _ Hf).
  destruct Hout as [-> | ->]; [reflexivity|].
  now destruct (worldToGridCoordinates g _ _) as [[sx sz]|].
Qed.

End IgnoredObjects.

Section SearchFacts.
Context {num : Type} `{SearchNumber num}.
Import NavigationGrid Pathfinder GridSpec PathSpec.
Local Open Scope outcome_scope.

Lemma ref_eqb_eq (a b : Ref) : ref_eqb a b = true <-> a = b.
Proof.
  destruct a as [ax az], b as [bx bz]. unfold ref_eqb; cbn [fst snd].
  rewrite andb_true_iff, !Z.eqb_eq. split; [intros [-> ->]|intros [= -> ->]]; auto.
Qed.

Lemma free_cell (g : t num) (r : Ref) :
  free_ref g r ->
  in_bounds g (fst r) (snd r) = true /\
  exists c, cell_at g (fst r) (snd r) = Some c /\ isObstacle c = false.
Proof.
  unfold free_ref, free. intros Hf. apply andb_prop in Hf as [Hb Hc]. split; [exact Hb|].
  destruct (cell_at g (fst r) (snd r)) as [c|]; [|discriminate].
  exists c. split; [reflexivity|]. now apply negb_true_iff.
Qed.

Lemma in_bounds_nonneg (g : t num) (i j : Z) :
  in_bounds g i j = true ->
  (0 <= i < gridCellsX g)%Z /\ (0 <= j < gridCellsZ g)%Z.
Proof.
  unfold in_bounds. rewrite !andb_true_iff, !Z.leb_le, !Z.ltb_lt. lia.
Qed.

Lemma shaped_node_at (g : t num) (nodes : list (list (Node num))) (r : Ref) :
  shaped g nodes -> in_bounds g (fst r) (snd r) = true ->
  exists n, node_at nodes r = Some n.
Proof.
  intros [Hx Hz] Hb. apply in_bounds_nonneg in Hb as [Hi Hj]. unfold node_at.
  destruct (Z.ltb_spec (fst r) 0); [lia|]. destruct (Z.ltb_spec (snd r) 0); [lia|].
  cbn [orb].
  destruct (nth_error nodes (Z.to_nat (fst r))) as [row|] eqn:Hrow.
  - assert (Hlen : List.length row = Z.to_nat (gridCellsZ g)).
    { rewrite Forall_forall in Hz. apply Hz. eapply nth_error_In; eauto. }
    destruct (nth_error row (Z.to_nat (snd r))) as [n|] eqn:Hn; [eauto|].
    apply nth_error_None in Hn. lia.
  - apply nth_error_None in Hrow. lia.
Qed.

Lemma node_at_update_node (f : Node num -> Node num) (r q : Ref)
      (nodes : list (list (Node num))) :
  (0 <= fst r)%Z -> (0 <= snd r)%Z ->
  node_at (update_node f r nodes) q
  = if ref_eqb q r then option_map f (node_at nodes q) else node_at nodes q.
Proof.
  intros Hi Hj. unfold node_at, update_node, ref_eqb.
  destruct (Z.ltb_spec (fst q) 0); [now destruct (_ && _)|].
  destruct (Z.ltb_spec (snd q) 0); [now destruct (_ && _)|]. cbn [orb].
  rewrite nth_error_update_nth.
  destruct (Z.eqb_spec (fst q) (fst r)) as [Hq|Hne].
  - rewrite Hq, Nat.eqb_refl.
    destruct (nth_error nodes (Z.to_nat (fst r))) as [row|];
      cbn [option_map andb]; [|now destruct (snd q =? snd r)%Z].
    rewrite nth_error_update_nth.
    destruct (Z.eqb_spec (snd q) (snd r)) as [Hq'|Hne'].
    + now rewrite Hq', Nat.eqb_refl.
    + destruct (Nat.eqb_spec (Z.to_nat (snd r)) (Z.to_nat (snd q))); [lia|reflexivity].
  - destruct (Nat.eqb_spec (Z.to_nat (fst r)) (Z.to_nat (fst q))); [lia|reflexivity].
Qed.

Lemma shaped_update_node (g : t num) (f : Node num -> Node num) (r : Ref)
      (nodes : list (list (Node num))) :
  shaped g nodes -> shaped g (update_node f r nodes).
Proof.
  unfold shaped, update_node. intros [Hx Hz]. split.
  - now rewrite update_nth_length.
  - apply update_nth_Forall; auto. intros row Hrow. now rewrite update_nth_length.
Qed.

Lemma shaped_reset_nodes (g : t num) : shaped g (reset_nodes g).
Proof.
  unfold shaped, reset_nodes. split.
  - now rewrite length_map, length_indices.
  - apply Forall_map, Forall_forall. intros i _. now rewrite length_map, length_indices.
Qed.

Lemma reset_nodes_node (g : t num) (r : Ref) (n : Node num) :
  node_at (reset_nodes g) r = Some n ->
  n = {| gCost := ninfinity; hCost := ninfinity; fCost := ninfinity;
         parent := None; flyY := nzero |}.
Proof.
  unfold node_at, reset_nodes. destruct (_ || _); [discriminate|].
  rewrite nth_error_map. destruct (nth_error (indices (gridCellsX g)) _); [|discriminate].
  cbn [option_map]. rewrite nth_error_map.
  destruct (nth_error (indices (gridCellsZ g)) _); [|discriminate].
  cbn [option_map]. now intros [= <-].
Qed.

Lemma reset_nodes_parent (g : t num) (r : Ref) (n : Node num) :
  node_at (reset_nodes g) r = Some n -> parent n = None.
Proof. intros Hn. now rewrite (reset_nodes_node _ _ Hn). Qed.

Lemma In_insert_by_fCost (nodes : list (list (Node num))) (a x : Ref) (l : list Ref) :
  In x (insert_by_fCost nodes a l) <-> x = a \/ In x l.
Proof.
  induction l as [|b l IH]; cbn [insert_by_fCost In].
  - intuition.
  - destruct (nltb _ _); cbn [In]; [intuition|]. rewrite IH. intuition.
Qed.

Lemma In_sort_by_fCost (nodes : list (list (Node num))) (x : Ref) (l : list Ref) :
  In x (sort_by_fCost nodes l) <-> In x l.
Proof.
  unfold sort_by_fCost.
  assert (Hgen : forall acc, In x (fold_left (fun sorted a => insert_by_fCost nodes a sorted)
                                             l acc) <-> In x l \/ In x acc).
  { induction l as [|b l IH]; intros acc; cbn [fold_left In]; [intuition|].
    rewrite IH, In_insert_by_fCost. intuition. }
  rewrite Hgen. cbn [In]. intuition.
Qed.

(** An assignment to the search fields of a cell that leaves its parent, or
    makes a free, linked cell its parent. *)
Lemma sound_update (g : t num) (link : Ref -> Ref -> Prop) (f : Node num -> Node num)
      (r cur : Ref) (nodes : list (list (Node num))) (open closed : list Ref) :
  (0 <= fst r)%Z -> (0 <= snd r)%Z ->
  (forall n, parent (f n) = parent n \/
             (parent (f n) = Some cur /\ free_ref g cur /\ link cur r)) ->
  sound g link (mkState nodes open closed) ->
  sound g link (mkState (update_node f r nodes) open closed).
Proof.
  intros Hi Hj Hf (Hshape & Hopen & Hpar). unfold sound; cbn [PathSpec.sound Pathfinder.nodes openSet] in *.
  split; [now apply shaped_update_node|]. split; [exact Hopen|].
  intros q n p Hn Hp. rewrite node_at_update_node in Hn by assumption.
  destruct (ref_eqb q r) eqn:Hqr.
  - apply ref_eqb_eq in Hqr; subst q.
    destruct (node_at nodes r) as [n0|] eqn:Hn0; [|discriminate].
    cbn [option_map] in Hn. injection Hn as <-.
    destruct (Hf n0) as [Hsame|(Hnew & Hfree & Hlink)].
    + rewrite Hsame in Hp. eapply Hpar; eauto.
    + rewrite Hnew in Hp. injection Hp as <-. auto.
  - eapply Hpar; eauto.
Qed.

Lemma sound_open (g : t num) (link : Ref -> Ref -> Prop)
      (nodes : list (list (Node num))) (open open' closed closed' : list Ref) :
  Forall (free_ref g) open' ->
  sound g link (mkState nodes open closed) ->
  sound g link (mkState nodes open' closed').
Proof. intros Ho (Hs & _ & Hp). now split. Qed.

Section Rounds.
Variables (g : t num) (goal : Vector3 num) (margin penalty : num).
Variables (endCell : Cell num) (endCellFlyY : num).
Variable link : Ref -> Ref -> Prop.

(** One neighbour: the body of the loop returns, and keeps the state
    sound. *)
Lemma visit_neighbor_sound (cur coords nb : Ref) (st : SearchState num) :
  sound g link st -> free_ref g cur -> free_ref g nb -> link cur nb ->
  exists st',
    visit_neighbor g goal margin penalty endCell endCellFlyY cur coords st nb
    = Returned st' /\ sound g link st'.
Proof.
  intros Hs Hcur Hnb Hlink.
  destruct (free_cell Hnb) as (Hbn & cn & Hcn & _).
  destruct (free_cell Hcur) as (Hbc & cc & Hcc & _).
  destruct (in_bounds_nonneg _ _ _ Hbn) as [Hn1 Hn2].
  pose proof Hs as (Hshape & Hopen & Hpar).
  destruct (shaped_node_at nb Hshape Hbn) as [nn Hnn].
  unfold visit_neighbor. rewrite Hcn, Hnn. cbn [defined bind].
  destruct (in_set nb (closedSet st)); [eauto|].
  set (nFlyY := nmax (vy goal) (nadd (maxObstacleHeight cn) margin)).
  set (nodes1 := update_node _ nb (nodes st)).
  assert (Hs1 : sound g link (mkState nodes1 (openSet st) (closedSet st))).
  { apply sound_update with (cur := cur); try lia; [intros n; now left|].
    now destruct st. }
  destruct (shaped_node_at cur (proj1 Hs1) Hbc) as [nc Hnc].
  cbn [Pathfinder.nodes] in Hnc. rewrite Hnc. cbn [defined bind].
  destruct (nltb _ (gCost nn)).
  - eexists. split; [reflexivity|].
    apply sound_update with (cur := cur); try lia.
    + intros n. right. auto.
    + eapply sound_open; [|exact Hs1].
      destruct (in_set nb (openSet st)); [exact Hopen|].
      apply Forall_app. split; [exact Hopen|]. now constructor.
  - destruct (in_set nb (openSet st)); cbn [negb].
    + eexists. split; [reflexivity|]. exact Hs1.
    + eexists. split; [reflexivity|].
      apply sound_update with (cur := cur); try lia.
      * intros n. now left.
      * eapply sound_open; [|exact Hs1].
        destruct (neqb _ _); [|exact Hopen].
        apply Forall_app. split; [exact Hopen|]. now constructor.
Qed.

(** The loop over the neighbours. *)
Lemma visit_neighbors_sound (cur coords : Ref) (nbs : list Ref) (st : SearchState num) :
  sound g link st -> free_ref g cur ->
  Forall (fun nb => free_ref g nb /\ link cur nb) nbs ->
  exists st',
    for_each (visit_neighbor g goal margin penalty endCell endCellFlyY cur coords) nbs st
    = Returned st' /\ sound g link st'.
Proof.
  intros Hs Hcur Hnbs. revert st Hs.
  induction Hnbs as [|nb nbs [Hnb Hlink] _ IH]; intros st Hs; cbn [for_each].
  - eauto.
  - destruct (visit_neighbor_sound coords Hs Hcur Hnb Hlink) as (st1 & -> & Hs1).
    cbn [bind]. now apply IH.
Qed.

(** The walk back along the parents. *)
Lemma reconstructPath_follows (nodes : list (list (Node num))) (targetY : num) :
  shaped g nodes ->
  (forall r n q, node_at nodes r = Some n -> parent n = Some q ->
                 free_ref g q /\ link q r) ->
  forall (fuel : nat) (r : Ref) (refs : list Ref) (acc path : list (Vector3 num)),
    free_ref g r ->
    follows g targetY margin refs acc -> chained link (r :: refs) ->
    reconstructPath g margin fuel nodes (Some r) targetY acc = Returned path ->
    exists front,
      follows g targetY margin (front ++ r :: refs) path /\
      chained link (front ++ r :: refs).
Proof.
  intros Hshape Hpar. induction fuel as [|fuel IH]; intros r refs acc path Hr Hacc Hch;
    cbn [reconstructPath]; [discriminate|].
  destruct (free_cell Hr) as (Hb & c & Hc & _). rewrite Hc. cbn [defined bind].
  destruct (shaped_node_at r Hshape Hb) as [n Hn]. rewrite Hn. cbn [defined bind].
  assert (Hacc' : follows g targetY margin (r :: refs)
                          (mkVector3 (worldX c)
                                     (nmax targetY (nadd (maxObstacleHeight c) margin))
                                     (worldZ c) :: acc)).
  { constructor; [|exact Hacc]. split; [exact Hr|]. exists c. now split. }
  destruct (parent n) as [q|] eqn:Hq.
  - destruct (Hpar r n q Hn Hq) as [Hfq Hlq]. intros Hrun.
    destruct (IH q (r :: refs) _ path Hfq Hacc' (conj Hlq Hch) Hrun) as (front & Hf & Hc').
    exists (front ++ [q]). now rewrite <- !app_assoc.
  - destruct fuel; cbn [reconstructPath]; intros [= <-]; exists []; now split.
Qed.

Lemma reconstructPath_returns (nodes : list (list (Node num))) (targetY : num) :
  shaped g nodes ->
  (forall r n q, node_at nodes r = Some n -> parent n = Some q ->
                 free_ref g q /\ link q r) ->
  forall (fuel : nat) (cur : option Ref) (acc : list (Vector3 num)),
    match cur with Some r => free_ref g r | None => True end ->
    reconstructPath g margin fuel nodes cur targetY acc <> Threw.
Proof.
  intros Hshape Hpar. induction fuel as [|fuel IH]; intros [r|] acc Hr;
    cbn [reconstructPath]; try discriminate.
  destruct (free_cell Hr) as (Hb & c & Hc & _). rewrite Hc. cbn [defined bind].
  destruct (shaped_node_at r Hshape Hb) as [n Hn]. rewrite Hn. cbn [defined bind].
  apply IH. destruct (parent n) as [q|] eqn:Hq; [|exact I].
  now destruct (Hpar r n q Hn Hq).
Qed.

(** What relates a cell to the neighbours the search visits from it. *)
Hypothesis Hlink :
  forall cur c coords nb,
    free_ref g cur -> cell_at g (fst cur) (snd cur) = Some c ->
    worldToGridCoordinates g (worldX c) (worldZ c) = Some coords ->
    In nb (getNeighbors g (fst coords) (snd coords)) -> link cur nb.

Lemma neighbours_to_visit (cur : Ref) (c : Cell num) (coords : Ref) :
  free_ref g cur -> cell_at g (fst cur) (snd cur) = Some c ->
  worldToGridCoordinates g (worldX c) (worldZ c) = Some coords ->
  Forall (fun nb => free_ref g nb /\ link cur nb)
         (getNeighbors g (fst coords) (snd coords)).
Proof.
  intros Hcur Hc Hcoords. apply Forall_forall. intros [nx nz] Hin. split.
  - apply getNeighbors_In in Hin. exact (proj1 Hin).
  - eapply Hlink; eauto.
Qed.

Lemma search_follows (fuel : nat) (endRef : Ref) :
  forall (st : SearchState num) (path : list (Vector3 num)),
    sound g link st ->
    search g goal margin penalty endCell endCellFlyY fuel endRef st = Returned (Some path) ->
    exists front,
      follows g (vy goal) margin (front ++ [endRef]) path /\
      chained link (front ++ [endRef]).
Proof.
  induction fuel as [|fuel IH]; intros st path Hs; [discriminate|].
  cbn [search].
  destruct (sort_by_fCost (nodes st) (openSet st)) as [|cur rest] eqn:Hsort; [discriminate|].
  pose proof Hs as (Hshape & Hopen & Hpar).
  assert (Hsorted : forall x, In x (cur :: rest) -> free_ref g x).
  { intros x Hx. rewrite <- Hsort in Hx. apply In_sort_by_fCost in Hx.
    rewrite Forall_forall in Hopen. now apply Hopen. }
  assert (Hcur : free_ref g cur) by (apply Hsorted; now left).
  destruct (ref_eqb cur endRef) eqn:Hend.
  - apply ref_eqb_eq in Hend; subst cur.
    destruct (reconstructPath g margin (S fuel) (nodes st) (Some endRef) (vy goal) [])
      as [p| |] eqn:Hrec; cbn [bind]; try discriminate.
    intros [= <-].
    apply (reconstructPath_follows Hshape Hpar (S fuel) (refs := []) (acc := []) Hcur);
      [constructor|exact I|exact Hrec].
  - destruct (free_cell Hcur) as (Hb & c & Hc & _). rewrite Hc. cbn [defined bind].
    destruct (worldToGridCoordinates g (worldX c) (worldZ c)) as [coords|] eqn:Hcoords;
      cbn [defined bind]; [|discriminate].
    set (st1 := {| nodes := nodes st; openSet := rest;
                   closedSet := coords :: closedSet st |}).
    assert (Hs1 : sound g link st1).
    { apply sound_open with (open := openSet st) (closed := closedSet st).
      - apply Forall_forall. intros x Hx. apply Hsorted. now right.
      - now destruct st. }
    destruct (visit_neighbors_sound coords Hs1 Hcur (neighbours_to_visit Hcur Hc Hcoords))
      as (st2 & -> & Hs2).
    cbn [bind]. now apply IH.
Qed.

(** What makes the centre of a free cell map into the grid. *)
Hypothesis Hdefined :
  forall cur c,
    free_ref g cur -> cell_at g (fst cur) (snd cur) = Some c ->
    worldToGridCoordinates g (worldX c) (worldZ c) <> None.

Lemma search_returns (fuel : nat) (endRef : Ref) :
  forall st : SearchState num,
    sound g link st ->
    search g goal margin penalty endCell endCellFlyY fuel endRef st <> Threw.
Proof.
  induction fuel as [|fuel IH]; intros st Hs; [discriminate|].
  cbn [search].
  destruct (sort_by_fCost (nodes st) (openSet st)) as [|cur rest] eqn:Hsort; [discriminate|].
  pose proof Hs as (Hshape & Hopen & Hpar).
  assert (Hsorted : forall x, In x (cur :: rest) -> free_ref g x).
  { intros x Hx. rewrite <- Hsort in Hx. apply In_sort_by_fCost in Hx.
    rewrite Forall_forall in Hopen. now apply Hopen. }
  assert (Hcur : free_ref g cur) by (apply Hsorted; now left).
  destruct (ref_eqb cur endRef).
  - pose proof (@reconstructPath_returns (nodes st) (vy goal) Hshape Hpar (S fuel)
                                         (Some cur) [] Hcur) as Hrec.
    destruct (reconstructPath g margin (S fuel) (nodes st) (Some cur) (vy goal) []);
      cbn [bind]; congruence.
  - destruct (free_cell Hcur) as (Hb & c & Hc & _). rewrite Hc. cbn [defined bind].
    destruct (worldToGridCoordinates g (worldX c) (worldZ c)) as [coords|] eqn:Hcoords;
      [|now destruct (Hdefined Hcur Hc)].
    cbn [defined bind].
    set (st1 := {| nodes := nodes st; openSet := rest;
                   closedSet := coords :: closedSet st |}).
    assert (Hs1 : sound g link st1).
    { apply sound_open with (open := openSet st) (closed := closedSet st).
      - apply Forall_forall. intros x Hx. apply Hsorted. now right.
      - now destruct st. }
    destruct (visit_neighbors_sound coords Hs1 Hcur (neighbours_to_visit Hcur Hc Hcoords))
      as (st2 & -> & Hs2).
    cbn [bind]. now apply IH.
Qed.

End Rounds.
End SearchFacts.

Section PathFacts.
Context {num : Type} `{SearchNumber num}.
Import NavigationGrid Pathfinder GridSpec PathSpec.
Local Open Scope outcome_scope.

(** The state the search starts from. *)
Lemma start_sound (g : t num) (link : Ref -> Ref -> Prop) (f : Node num -> Node num)
      (start : Ref) :
  free_ref g start -> (forall n, parent (f n) = None) ->
  sound g link {| nodes := update_node f start (reset_nodes g);
                  openSet := [start]; closedSet := [] |}.
Proof.
  intros Hstart Hf.
  destruct (free_cell Hstart) as (Hb & _).
  destruct (in_bounds_nonneg _ _ _ Hb) as [Hi Hj].
  split; [|split]; cbn [nodes openSet].
  - apply shaped_update_node, shaped_reset_nodes.
  - now constructor.
  - intros r n q Hn Hq. rewrite node_at_update_node in Hn by lia.
    destruct (ref_eqb r start).
    + destruct (node_at (reset_nodes g) r); [|discriminate].
      injection Hn as <-. rewrite Hf in Hq. discriminate.
    + apply reset_nodes_parent in Hn. congruence.
Qed.

Lemma worldToGrid_free (g : t num) (x z : num) (r : Ref) (c : Cell num) :
  worldToGridCoordinates g x z = Some r -> cell_at g (fst r) (snd r) = Some c ->
  isObstacle c = false -> free_ref g r.
Proof.
  intros Hr Hc Hobs. destruct r as [i j]. unfold free_ref, free; cbn [fst snd] in *.
  rewrite (worldToGrid_in_bounds _ _ _ Hr), Hc, Hobs. reflexivity.
Qed.

(** What a returned path is, for any relation that holds between a cell
    and the neighbours the search visits from it. *)
Lemma findPath_follows (link : Ref -> Ref -> Prop) (fuel : nat) (g : t num)
      (start goal : Vector3 num) (margin penalty : num) (path : list (Vector3 num)) :
  (forall cur c coords nb,
      free_ref g cur -> cell_at g (fst cur) (snd cur) = Some c ->
      worldToGridCoordinates g (worldX c) (worldZ c) = Some coords ->
      In nb (getNeighbors g (fst coords) (snd coords)) -> link cur nb) ->
  findPath fuel g start goal margin penalty = Returned (Some path) ->
  exists front goalRef,
    cell_of g goal = Some goalRef /\
    follows g (vy goal) margin (front ++ [goalRef]) path /\
    chained link (front ++ [goalRef]).
Proof.
  intros Hlink. unfold findPath, cell_of.
  destruct (worldToGridCoordinates g (vx start) (vz start)) as [s|] eqn:Hs; [|discriminate].
  destruct (worldToGridCoordinates g (vx goal) (vz goal)) as [e|] eqn:He; [|discriminate].
  destruct (cell_at g (fst s) (snd s)) as [sc|] eqn:Hsc; cbn [defined bind]; [|discriminate].
  destruct (cell_at g (fst e) (snd e)) as [ec|] eqn:Hec; cbn [defined bind]; [|discriminate].
  destruct (isObstacle sc) eqn:Hso; cbn [orb]; [discriminate|].
  destruct (isObstacle ec) eqn:Heo; [discriminate|].
  intros Hrun.
  assert (Hstart : free_ref g s) by (eapply worldToGrid_free; eauto).
  match type of Hrun with
  | search _ _ _ _ _ _ _ _ ?st = _ =>
      assert (Hsound : sound g link st) by (apply start_sound; [exact Hstart|reflexivity])
  end.
  destruct (search_follows _ _ _ _ _ Hlink _ _ Hsound Hrun) as (front & Hf & Hc).
  exists front, e. auto.
Qed.

(** A path that [findPath] returns is made of cell centres: its points are
    the points of free cells of the grid, each at the centre of its cell and
    at the higher of the target altitude and the cell's height plus the
    safety margin, and the last one is the point of the cell the target
    position lies in. *)
Theorem findPath_passes_over_free_cells
        (fuel : nat) (g : t num) (start goal : Vector3 num) (margin penalty : num)
        (path : list (Vector3 num)) :
  findPath fuel g start goal margin penalty = Returned (Some path) ->
  exists front goalRef,
    cell_of g goal = Some goalRef /\
    follows g (vy goal) margin (front ++ [goalRef]) path.
Proof.
  intros Hrun.
  destruct (@findPath_follows (fun _ _ => True) fuel g start goal margin penalty path)
    as (front & goalRef & Hgoal & Hpath & _); auto.
  exists front, goalRef. auto.
Qed.

Lemma follows_cells (g : t num) (targetY margin : num) (refs : list Ref)
      (path : list (Vector3 num)) :
  centres_round_trip g -> follows g targetY margin refs path ->
  map (cell_of g) path = map Some refs.
Proof.
  intros Hrt Hpath. unfold follows in Hpath.
  induction Hpath as [|r p refs path (Hfree & c & Hc & ->) _ IH]; [reflexivity|].
  cbn [map]. rewrite IH. f_equal.
  destruct (free_cell Hfree) as (Hb & _). unfold cell_of, point_of; cbn [vx vz].
  rewrite (Hrt _ _ _ Hb Hc). now destruct r.
Qed.

(** On a grid whose cell centres map back to their cells, the cells of a
    returned path are the cells its points lie in, and every step of the
    path leads to one of the eight cells around the cell it leaves. *)
Theorem findPath_steps_to_adjacent_cells
        (fuel : nat) (g : t num) (start goal : Vector3 num) (margin penalty : num)
        (path : list (Vector3 num)) :
  centres_round_trip g ->
  findPath fuel g start goal margin penalty = Returned (Some path) ->
  exists refs,
    map (cell_of g) path = map Some refs /\
    chained next_to refs.
Proof.
  intros Hrt Hrun.
  destruct (@findPath_follows next_to fuel g start goal margin penalty path)
    as (front & goalRef & _ & Hpath & Hchain); [|exact Hrun|].
  - intros cur c coords nb Hcur Hc Hcoords Hin.
    destruct (free_cell Hcur) as (Hb & _).
    rewrite (Hrt _ _ _ Hb Hc) in Hcoords. injection Hcoords as <-.
    destruct nb as [nx nz]. apply getNeighbors_In in Hin. exact (proj2 Hin).
  - exists (front ++ [goalRef]). split; [|exact Hchain].
    eapply follows_cells; eauto.
Qed.

(** On a well-formed grid whose cell centres map back to their cells,
    [findPath] raises no exception, whatever the positions, the margin, the
    penalty and the bound on the rounds. *)
Theorem findPath_never_throws
        (fuel : nat) (g : t num) (start goal : Vector3 num) (margin penalty : num) :
  well_formed g -> centres_round_trip g ->
  threw (findPath fuel g start goal margin penalty) = false.
Proof.
  intros Hwf Hrt. unfold findPath.
  destruct (worldToGridCoordinates g (vx start) (vz start)) as [s|] eqn:Hs; [|reflexivity].
  destruct (worldToGridCoordinates g (vx goal) (vz goal)) as [e|] eqn:He; [|reflexivity].
  destruct s as [si sj], e as [ei ej]. cbn [fst snd].
  destruct (well_formed_cell_at si sj Hwf (worldToGrid_in_bounds _ _ _ Hs)) as [sc Hsc].
  destruct (well_formed_cell_at ei ej Hwf (worldToGrid_in_bounds _ _ _ He)) as [ec Hec].
  rewrite Hsc, Hec. cbn [defined bind].
  destruct (isObstacle sc) eqn:Hso; cbn [orb]; [reflexivity|].
  destruct (isObstacle ec) eqn:Heo; [reflexivity|].
  match goal with
  | |- threw ?run = false =>
      assert (Hrun : run <> Threw); [|now destruct run]
  end.
  assert (Hstart : free_ref g (si, sj))
    by (apply (@worldToGrid_free g (vx start) (vz start) (si, sj) sc); auto).
  apply search_returns with (link := fun _ _ : Ref => True).
  - auto.
  - intros cur c Hcur Hc. destruct (free_cell Hcur) as (Hb & _).
    rewrite (Hrt _ _ _ Hb Hc). discriminate.
  - apply start_sound; [exact Hstart|reflexivity].
Qed.

(** When the start and the target lie in the same free cell, [findPath]
    returns the one point of that cell, at the higher of the target
    altitude and the cell's height plus the margin: the start altitude and
    the start position inside the cell play no part. *)
Theorem findPath_within_one_cell
        (fuel : nat) (g : t num) (start goal : Vector3 num) (margin penalty : num)
        (r : Ref) (c : Cell num) :
  cell_of g start = Some r -> cell_of g goal = Some r ->
  cell_at g (fst r) (snd r) = Some c -> isObstacle c = false ->
  findPath (S fuel) g start goal margin penalty
  = Returned (Some [point_of (vy goal) margin c]).
Proof.
  unfold cell_of. intros Hs He Hc Hobs. unfold findPath. rewrite Hs, He, Hc.
  cbn [defined bind]. rewrite Hobs.
  cbn [orb search sort_by_fCost fold_left insert_by_fCost nodes openSet closedSet].
  assert (Hrr : ref_eqb r r = true) by now apply ref_eqb_eq.
  rewrite Hrr. cbn [reconstructPath]. rewrite Hc. cbn [defined bind].
  assert (Hfree : free_ref g r) by (eapply worldToGrid_free; eauto).
  destruct (free_cell Hfree) as (Hb & _).
  destruct (in_bounds_nonneg _ _ _ Hb) as [Hi Hj].
  rewrite node_at_update_node, Hrr by lia.
  destruct (shaped_node_at r (shaped_reset_nodes g) Hb) as [n ->].
  cbn [option_map defined bind parent]. now destruct fuel.
Qed.

End PathFacts.

(** * Properties on binary64 values *)

Unset Implicit Arguments.

(** ** Rounding to a nearest binary64 value *)

Section RepresentableFacts.
Import Rounded.
Local Open Scope R_scope.

Lemma Rabs_between (a b : R) : Rabs a <= b -> - b <= a <= b.
Proof. unfold Rabs. destruct (Rcase_abs a); lra. Qed.

Lemma pow2_pos (e : Z) : 0 < powerRZ 2 e.
Proof. apply powerRZ_lt. lra. Qed.

Lemma pow2_add (a b : Z) : powerRZ 2 (a + b) = powerRZ 2 a * powerRZ 2 b.
Proof. apply powerRZ_add. lra. Qed.

Lemma pow2_IZR (n : Z) : (0 <= n)%Z -> powerRZ 2 n = IZR (2 ^ n).
Proof.
  intros Hn. rewrite <- (Z2Nat.id n) at 1 by exact Hn.
  rewrite <- pow_powerRZ. rewrite pow_IZR. f_equal.
  now rewrite Z2Nat.id.
Qed.

Lemma pow2_le (a b : Z) : (a <= b)%Z -> powerRZ 2 a <= powerRZ 2 b.
Proof.
  intros Hab. replace b with (a + (b - a))%Z by lia. rewrite pow2_add.
  pose proof (pow2_pos a). rewrite (pow2_IZR (b - a)%Z) by lia.
  assert (1 <= IZR (2 ^ (b - a))%Z).
  { apply IZR_le. assert (0 < 2 ^ (b - a))%Z by (apply Z.pow_pos_nonneg; lia). lia. }
  nra.
Qed.

Lemma representable_scaled (m e : Z) :
  (Z.abs m < 2 ^ 53)%Z -> (-1074 <= e <= 971)%Z -> representable (IZR m * powerRZ 2 e).
Proof. intros Hm He. now exists m, e. Qed.

Lemma representable_0 : representable 0.
Proof. exists 0%Z, 0%Z. repeat split; try lia. simpl. lra. Qed.

Lemma representable_opp (x : R) : representable x -> representable (- x).
Proof.
  intros (m & e & Hm & He & ->). exists (- m)%Z, e. repeat split; try lia.
  rewrite opp_IZR. ring.
Qed.

Lemma representable_pow2 (k : Z) : (-1074 <= k <= 1023)%Z -> representable (powerRZ 2 k).
Proof.
  intros Hk. destruct (Z_le_gt_dec k 971).
  - exists 1%Z, k. repeat split; try lia. ring.
  - exists (2 ^ (k - 971))%Z, 971%Z. repeat split; try lia.
    + rewrite Z.abs_eq by (apply Z.pow_nonneg; lia).
      apply Z.pow_lt_mono_r; lia.
    + rewrite <- pow2_IZR by lia. rewrite <- pow2_add. f_equal. lia.
Qed.

(** An integer multiple of a power of two. *)
Lemma representable_dyadic (m e : Z) :
  (Z.abs m <= 2 ^ 53)%Z -> (-1074 <= e <= 970)%Z -> representable (IZR m * powerRZ 2 e).
Proof.
  intros Hm He.
  assert (Hstep : powerRZ 2 (e + 1) = 2 * powerRZ 2 e)
    by (rewrite pow2_add; simpl; ring).
  destruct (Z.eq_dec m (2 ^ 53)) as [-> |Hhi]; [|destruct (Z.eq_dec m (- 2 ^ 53)) as [-> |Hlo]].
  - exists (2 ^ 52)%Z, (e + 1)%Z. split; [lia|]. split; [lia|].
    rewrite Hstep. replace (IZR (2 ^ 53)) with (2 * IZR (2 ^ 52)); [ring|].
    rewrite <- mult_IZR. f_equal.
  - exists (- 2 ^ 52)%Z, (e + 1)%Z. split; [lia|]. split; [lia|].
    rewrite Hstep. replace (IZR (- 2 ^ 53)) with (2 * IZR (- 2 ^ 52)); [ring|].
    rewrite <- mult_IZR. f_equal.
  - exists m, e. split; [lia|]. split; [lia|reflexivity].
Qed.

Lemma representable_IZR (z : Z) : (Z.abs z <= 2 ^ 53)%Z -> representable (IZR z).
Proof.
  intros Hz. replace (IZR z) with (IZR z * powerRZ 2 0) by (simpl; lra).
  apply representable_dyadic; lia.
Qed.

(** An integer or an integer and a half. *)
Lemma representable_halves (z : Z) : (Z.abs z <= 2 ^ 53)%Z -> representable (IZR z / 2).
Proof.
  intros Hz. replace (IZR z / 2) with (IZR z * powerRZ 2 (-1)) by (simpl; lra).
  apply representable_dyadic; lia.
Qed.

End RepresentableFacts.

Section RoundingFacts.
Import Rounded.
Context `{Rounding}.
Local Open Scope R_scope.

Lemma rnd_representable (x : R) : representable (rnd x).
Proof. apply rnd_nearest. Qed.

Lemma rnd_exact (x : R) : representable x -> rnd x = x.
Proof.
  intros Hx. destruct (rnd_nearest x) as [_ Hn]. specialize (Hn x Hx).
  replace (x - x) with 0 in Hn by ring. rewrite Rabs_R0 in Hn.
  pose proof (Rabs_pos (rnd x - x)).
  assert (Rabs (rnd x - x) = 0) by lra.
  destruct (Req_dec (rnd x - x) 0) as [Hz|Hz]; [lra|].
  apply Rabs_no_R0 in Hz. contradiction.
Qed.

Lemma rnd_monotone (x y : R) : x <= y -> rnd x <= rnd y.
Proof.
  intros [Hlt| ->]; [|lra].
  destruct (Rle_dec (rnd x) (rnd y)) as [Hle|Hgt]; [exact Hle|].
  exfalso. apply Rnot_le_lt in Hgt.
  destruct (rnd_nearest x) as [Hrx Hx]. destruct (rnd_nearest y) as [Hry Hy].
  specialize (Hx _ Hry). specialize (Hy _ Hrx).
  unfold Rabs in Hx, Hy.
  destruct (Rcase_abs (rnd x - x)), (Rcase_abs (rnd y - x)),
           (Rcase_abs (rnd y - y)), (Rcase_abs (rnd x - y)); lra.
Qed.

Lemma rnd_le (x c : R) : representable c -> x <= c -> rnd x <= c.
Proof. intros Hc Hx. rewrite <- (rnd_exact c Hc). now apply rnd_monotone. Qed.

Lemma rnd_ge (x c : R) : representable c -> c <= x -> c <= rnd x.
Proof. intros Hc Hx. rewrite <- (rnd_exact c Hc). now apply rnd_monotone. Qed.

Lemma rnd_abs_le (x c : R) : representable c -> Rabs x <= c -> Rabs (rnd x) <= c.
Proof.
  intros Hc Hx. apply Rabs_le. apply Rabs_between in Hx. split.
  - apply rnd_ge; [now apply representable_opp|lra].
  - apply rnd_le; [exact Hc|lra].
Qed.

Lemma rnd_0 : rnd 0 = 0.
Proof. apply rnd_exact, representable_0. Qed.

Lemma rnd_nonneg (x : R) : 0 <= x -> 0 <= rnd x.
Proof. intros Hx. apply rnd_ge; [apply representable_0|exact Hx]. Qed.

(** Where the multiples of [2^e] are representable, rounding moves a
    number by at most [2^e]. *)
Lemma rnd_error (x : R) (e : Z) :
  (-1074 <= e <= 970)%Z -> Rabs x <= powerRZ 2 (52 + e) ->
  Rabs (rnd x - x) <= powerRZ 2 e.
Proof.
  intros He Hx.
  pose proof (pow2_pos e) as Hpos.
  set (q := x / powerRZ 2 e).
  assert (Hq : Rabs q <= IZR (2 ^ 52)).
  { unfold q, Rdiv. rewrite Rabs_mult, (Rabs_pos_eq (/ _))
      by (left; now apply Rinv_0_lt_compat).
    apply Rmult_le_reg_r with (powerRZ 2 e); [exact Hpos|].
    rewrite Rmult_assoc, Rinv_l, Rmult_1_r by lra.
    rewrite <- pow2_IZR, <- pow2_add by lia. exact Hx. }
  destruct (base_Int_part q) as [Hlow Hhigh].
  set (m := Int_part q) in *.
  assert (Hm : (Z.abs m <= 2 ^ 52)%Z).
  { apply Rabs_between in Hq. apply Z.abs_le. split.
    - apply le_IZR. rewrite opp_IZR.
      destruct (Rle_dec (- IZR (2 ^ 52)) (IZR m)) as [Hok|Hbad]; [exact Hok|].
      exfalso. apply Rnot_le_lt in Hbad.
      assert (Hz : (m < - 2 ^ 52)%Z) by (apply lt_IZR; rewrite opp_IZR; exact Hbad).
      assert (Hz' : (m + 1 <= - 2 ^ 52)%Z) by lia.
      apply IZR_le in Hz'. rewrite plus_IZR, opp_IZR in Hz'. lra.
    - apply le_IZR. lra. }
  destruct (rnd_nearest x) as [_ Hn].
  assert (Hr : representable (IZR m * powerRZ 2 e))
    by (apply representable_dyadic; lia).
  specialize (Hn _ Hr).
  eapply Rle_trans; [exact Hn|].
  assert (Hx' : x = q * powerRZ 2 e) by (unfold q; field; lra).
  rewrite Hx' at 1. rewrite <- Rmult_minus_distr_r, Rabs_mult, (Rabs_pos_eq (powerRZ 2 e)) by lra.
  assert (Rabs (IZR m - q) <= 1) by (apply Rabs_le; lra).
  nra.
Qed.

Lemma huge_pos : 0 < huge.
Proof. unfold huge. apply Rmult_lt_0_compat; [apply IZR_lt; lia|apply pow2_pos]. Qed.

(** A power of two below the overflow threshold. *)
Lemma pow2_below_huge (k : Z) : (k <= 1023)%Z -> powerRZ 2 k < huge.
Proof.
  intros Hk. apply Rle_lt_trans with (powerRZ 2 1023); [now apply pow2_le|].
  unfold huge. replace 1023%Z with (53 + 970)%Z by lia. rewrite pow2_add.
  apply Rmult_lt_compat_r; [apply pow2_pos|].
  rewrite pow2_IZR by lia. apply IZR_lt. lia.
Qed.

Lemma round_finite (x : R) : - huge < x < huge -> round x = Fin (rnd x).
Proof.
  intros Hx. unfold round.
  destruct (Rle_dec huge x); [lra|]. destruct (Rle_dec x (- huge)); [lra|]. reflexivity.
Qed.

(** The rounding of a number of magnitude at most [2^k]. *)
Lemma round_within (x : R) (k : Z) :
  (-1074 <= k <= 1023)%Z -> Rabs x <= powerRZ 2 k ->
  round x = Fin (rnd x) /\ Rabs (rnd x) <= powerRZ 2 k.
Proof.
  intros Hk Hx. split.
  - apply round_finite. pose proof (pow2_below_huge k ltac:(lia)).
    apply Rabs_between in Hx. lra.
  - apply rnd_abs_le; [now apply representable_pow2|exact Hx].
Qed.

Lemma round_exact (x : R) : representable x -> round x = Fin x.
Proof.
  intros Hx. rewrite round_finite; [now rewrite rnd_exact|].
  destruct Hx as (m & e & Hm & He & ->).
  assert (Hb : Rabs (IZR m * powerRZ 2 e) < huge).
  { rewrite Rabs_mult, (Rabs_pos_eq (powerRZ 2 e)) by (left; apply pow2_pos).
    rewrite <- abs_IZR. unfold huge.
    apply Rle_lt_trans with (IZR (2 ^ 53 - 1) * powerRZ 2 971).
    - apply Rmult_le_compat; [apply IZR_le; lia|left; apply pow2_pos| |now apply pow2_le].
      apply IZR_le. lia.
    - replace 971%Z with (1 + 970)%Z by lia. rewrite pow2_add, <- Rmult_assoc.
      apply Rmult_lt_compat_r; [apply pow2_pos|].
      replace (powerRZ 2 1) with 2 by (simpl; lra).
      rewrite <- (mult_IZR _ 2). apply IZR_lt. lia. }
  apply Rabs_def2 in Hb. lra.
Qed.

End RoundingFacts.

(** ** A rounding function exists *)

Section RoundingExists.
Import Rounded.
Local Open Scope R_scope.

Lemma least_on_a_range (f : Z -> R) (lo : Z) (n : nat) :
  exists k, (lo <= k <= lo + Z.of_nat n)%Z /\
            forall j, (lo <= j <= lo + Z.of_nat n)%Z -> f k <= f j.
Proof.
  induction n as [|n (k & Hk & Hmin)].
  - exists lo. split; [lia|]. intros j Hj. replace j with lo by lia. lra.
  - destruct (Rle_dec (f k) (f (lo + Z.of_nat (S n))%Z)) as [Hle|Hgt].
    + exists k. split; [lia|]. intros j Hj.
      destruct (Z.eq_dec j (lo + Z.of_nat (S n))) as [-> |Hne]; [exact Hle|].
      apply Hmin. lia.
    + exists (lo + Z.of_nat (S n))%Z. split; [lia|]. intros j Hj.
      destruct (Z.eq_dec j (lo + Z.of_nat (S n))) as [-> |Hne]; [lra|].
      apply Rnot_le_lt in Hgt. left. eapply Rlt_le_trans; [exact Hgt|]. apply Hmin. lia.
Qed.

Lemma least_on_a_box (f : Z -> Z -> R) (lo1 lo2 : Z) (n1 n2 : nat) :
  exists a b, (lo1 <= a <= lo1 + Z.of_nat n1)%Z /\ (lo2 <= b <= lo2 + Z.of_nat n2)%Z /\
              forall a' b', (lo1 <= a' <= lo1 + Z.of_nat n1)%Z ->
                            (lo2 <= b' <= lo2 + Z.of_nat n2)%Z -> f a b <= f a' b'.
Proof.
  induction n1 as [|n1 (a & b & Ha & Hb & Hmin)].
  - destruct (least_on_a_range (f lo1) lo2 n2) as (b & Hb & Hmin).
    exists lo1, b. split; [lia|]. split; [exact Hb|].
    intros a' b' Ha' Hb'. replace a' with lo1 by lia. now apply Hmin.
  - destruct (least_on_a_range (f (lo1 + Z.of_nat (S n1))%Z) lo2 n2) as (b2 & Hb2 & Hmin2).
    destruct (Rle_dec (f a b) (f (lo1 + Z.of_nat (S n1))%Z b2)) as [Hle|Hgt].
    + exists a, b. split; [lia|]. split; [exact Hb|]. intros a' b' Ha' Hb'.
      destruct (Z.eq_dec a' (lo1 + Z.of_nat (S n1))) as [-> |Hne].
      * eapply Rle_trans; [exact Hle|]. now apply Hmin2.
      * apply Hmin; lia.
    + exists (lo1 + Z.of_nat (S n1))%Z, b2. split; [lia|]. split; [exact Hb2|].
      intros a' b' Ha' Hb'. apply Rnot_le_lt in Hgt.
      destruct (Z.eq_dec a' (lo1 + Z.of_nat (S n1))) as [-> |Hne].
      * now apply Hmin2.
      * left. eapply Rlt_le_trans; [exact Hgt|]. apply Hmin; lia.
Qed.

Lemma nearest_exists (x : R) : exists y, nearest x y.
Proof.
  destruct (least_on_a_box (fun m e => Rabs (IZR m * powerRZ 2 e - x))
                           (- 2 ^ 53 + 1) (-1074)
                           (Z.to_nat (2 ^ 54 - 2)) (Z.to_nat 2045))
    as (m & e & Hm & He & Hmin).
  rewrite Z2Nat.id in Hm, He, Hmin by lia.
  exists (IZR m * powerRZ 2 e). split.
  - apply representable_scaled; lia.
  - intros z (m' & e' & Hm' & He' & ->). apply Hmin; lia.
Qed.

(** There is a rounding to nearest. *)
Lemma rounding_exists : inhabited Rounding.
Proof.
  destruct (choice nearest nearest_exists) as [f Hf].
  constructor. exact (Build_Rounding f Hf).
Qed.

End RoundingExists.

(** ** Operations whose exact result is representable *)

Section ExactOperations.
Import Rounded.
Context `{Rounding}.
Local Open Scope R_scope.

Lemma round_is (x v : R) : x = v -> representable v -> round x = Fin v.
Proof. intros ->. apply round_exact. Qed.

Lemma add_is (a b v : R) :
  a + b = v -> representable v -> add (Fin a) (Fin b) = Fin v.
Proof. apply round_is. Qed.

Lemma sub_is (a b v : R) :
  a - b = v -> representable v -> sub (Fin a) (Fin b) = Fin v.
Proof. intros E. unfold sub, opp, add. apply round_is. lra. Qed.

Lemma mul_is (a b v : R) :
  a * b = v -> representable v -> mul (Fin a) (Fin b) = Fin v.
Proof. apply round_is. Qed.

Lemma div_is (a b v : R) :
  b <> 0 -> a / b = v -> representable v -> div (Fin a) (Fin b) = Fin v.
Proof. intros Hb E Hv. unfold div. destruct (Req_dec_T b 0); [contradiction|]. now apply round_is. Qed.


End ExactOperations.

(** Representable constants. *)
Ltac representable_as m e :=
  match goal with
  | |- Rounded.representable ?v =>
      replace v with (IZR m * powerRZ 2 e)%R by (simpl; lra);
      apply representable_scaled; lia
  end.

Ltac representable_constant :=
  first
    [ apply representable_0
    | apply representable_IZR; lia
    | apply representable_halves; lia
    | representable_as 1%Z (-4)%Z
    | representable_as 5%Z (-3)%Z
    | representable_as 1%Z 0%Z
    | representable_as 2%Z 0%Z ].

(** ** Finite values of bounded magnitude *)

Section WithinFacts.
Import Rounded.
Context `{Rounding}.
Local Open Scope R_scope.

Lemma within_le (a b : R) (x : t) : within a x -> a <= b -> within b x.
Proof. intros (r & -> & Hr) Hab. exists r. split; [reflexivity|lra]. Qed.

Lemma within_pow2_le (j k : Z) (x : t) :
  within (powerRZ 2 j) x -> (j <= k)%Z -> within (powerRZ 2 k) x.
Proof. intros Hx Hjk. eapply within_le; [exact Hx|now apply pow2_le]. Qed.

Lemma round_within_pow2 (r : R) (k : Z) :
  (-1074 <= k <= 1023)%Z -> Rabs r <= powerRZ 2 k -> within (powerRZ 2 k) (round r).
Proof.
  intros Hk Hr. destruct (round_within r k Hk Hr) as [-> Hb]. now exists (rnd r).
Qed.

Lemma round_within_representable (r c : R) :
  representable c -> Rabs r <= c -> within c (round r).
Proof.
  intros Hc Hr. exists (rnd r). split; [|now apply rnd_abs_le].
  apply round_finite.
  assert (Hcr : round c = Fin c) by now apply round_exact.
  unfold round in Hcr.
  destruct (Rle_dec huge c); [discriminate|].
  destruct (Rle_dec c (- huge)); [discriminate|].
  apply Rabs_between in Hr. lra.
Qed.

Lemma opp_within (b : R) (x : t) : within b x -> within b (opp x).
Proof. intros (r & -> & Hr). exists (- r). split; [reflexivity|now rewrite Rabs_Ropp]. Qed.

Lemma add_within (k : Z) (x y : t) :
  (-1074 <= k <= 1022)%Z ->
  within (powerRZ 2 k) x -> within (powerRZ 2 k) y -> within (powerRZ 2 (k + 1)) (add x y).
Proof.
  intros Hk (a & -> & Ha) (b & -> & Hb). cbn [add].
  apply round_within_pow2; [lia|].
  rewrite pow2_add. replace (powerRZ 2 1) with 2 by (simpl; lra).
  pose proof (Rabs_triang a b). lra.
Qed.

Lemma sub_within (k : Z) (x y : t) :
  (-1074 <= k <= 1022)%Z ->
  within (powerRZ 2 k) x -> within (powerRZ 2 k) y -> within (powerRZ 2 (k + 1)) (sub x y).
Proof. intros Hk Hx Hy. unfold sub. apply add_within; auto using opp_within. Qed.

Lemma mul_within (j k : Z) (x y : t) :
  (-1074 <= j + k <= 1023)%Z ->
  within (powerRZ 2 j) x -> within (powerRZ 2 k) y -> within (powerRZ 2 (j + k)) (mul x y).
Proof.
  intros Hk (a & -> & Ha) (b & -> & Hb). cbn [mul].
  apply round_within_pow2; [lia|].
  rewrite Rabs_mult, pow2_add.
  apply Rmult_le_compat; auto using Rabs_pos.
Qed.

(** A product with a factor of size at most 1. *)
Lemma mul_within_unit (b : R) (x y : t) :
  representable b -> within b x -> within 1 y -> within b (mul x y).
Proof.
  intros Hb (a & -> & Ha) (c & -> & Hc). cbn [mul].
  apply round_within_representable; [exact Hb|].
  rewrite Rabs_mult. pose proof (Rabs_pos a). pose proof (Rabs_pos c). nra.
Qed.

(** [Math.max(low, Math.min(high, x))] of a value that is not NaN. *)
Lemma clamp_within (low high : R) (x : t) :
  low <= high -> x <> NaN ->
  exists r, max (Fin low) (min (Fin high) x) = Fin r /\ low <= r <= high.
Proof.
  intros Hlh Hx. destruct x as [a| | |]; [| | |contradiction]; cbn [min max].
  - exists (Rmax low (Rmin high a)). split; [reflexivity|]. split; [apply Rmax_l|].
    apply Rmax_lub; [exact Hlh|apply Rmin_l].
  - exists (Rmax low high). split; [reflexivity|]. split; [apply Rmax_l|].
    apply Rmax_lub; lra.
  - exists low. split; [reflexivity|lra].
Qed.

Lemma within_not_nan (b : R) (x : t) : within b x -> x <> NaN.
Proof. intros (r & -> & _). discriminate. Qed.

Lemma lit_within (r : R) (k : Z) :
  (-1074 <= k <= 1023)%Z -> Rabs r <= powerRZ 2 k -> within (powerRZ 2 k) (round r).
Proof. apply round_within_pow2. Qed.

(** A literal between 0 and 1. *)
Lemma lit_unit (r : R) : 0 <= r <= 1 -> exists c, round r = Fin c /\ 0 <= c <= 1.
Proof.
  intros Hr. exists (rnd r). split.
  - apply round_finite. pose proof (pow2_below_huge 0 ltac:(lia)). simpl in *. lra.
  - split; [apply rnd_nonneg; lra|].
    apply rnd_le; [representable_constant|lra].
Qed.

End WithinFacts.

(** ** A library of the trigonometric functions exists *)

Section LibraryExists.
Import Rounded.
Local Open Scope R_scope.

(** The sine and the cosine themselves, with a constant angle, are such a
    library. *)
Lemma library_exists : inhabited MathLibrary.
Proof.
  constructor.
  refine (Build_MathLibrary Rtrigo_def.sin Rtrigo_def.cos (fun _ _ => 0) _ _ _).
  - intros x. apply Rabs_le. apply SIN_bound.
  - intros x. apply Rabs_le. apply COS_bound.
  - intros y x. rewrite Rabs_R0. lra.
Qed.

End LibraryExists.

Section RemainderFacts.
Import JSMath.
Local Open Scope R_scope.

(** The remainder of a non-negative number. *)
Lemma rem_of_nonneg (a b : R) : 0 <= a -> 0 < b -> 0 <= rem a b < b.
Proof.
  intros Ha Hb. unfold rem, trunc.
  assert (Hinv : 0 < / b) by now apply Rinv_0_lt_compat.
  assert (Hq : 0 <= a / b) by (unfold Rdiv; apply Rmult_le_pos; lra).
  destruct (Rle_dec 0 (a / b)); [|contradiction].
  destruct (base_Int_part (a / b)) as [Hlow Hhigh].
  set (k := IZR (Int_part (a / b))) in *.
  assert (Ha' : b * (a / b) = a) by (field; lra).
  assert (H1 : b * k <= b * (a / b)) by (apply Rmult_le_compat_l; lra).
  assert (H2 : b * (a / b - 1) < b * k) by (apply Rmult_lt_compat_l; lra).
  rewrite Rmult_minus_distr_l in H2. lra.
Qed.

(** The remainder of any number. *)
Lemma rem_within (a b : R) : 0 < b -> - b < rem a b < b.
Proof.
  intros Hb. destruct (Rle_dec 0 a) as [Ha|Ha].
  - pose proof (rem_of_nonneg a b Ha Hb). lra.
  - unfold rem, trunc.
    assert (Hinv : 0 < / b) by now apply Rinv_0_lt_compat.
    assert (Ha' : b * (a / b) = a) by (field; lra).
    assert (Hq : a / b < 0).
    { unfold Rdiv. apply Rnot_le_lt in Ha.
      replace 0 with (0 * / b) by ring. apply Rmult_lt_compat_r; lra. }
    destruct (Rle_dec 0 (a / b)); [lra|].
    destruct (base_Int_part (- (a / b))) as [Hlow Hhigh].
    rewrite opp_IZR. set (k := IZR (Int_part (- (a / b)))) in *.
    assert (H1 : b * k <= b * (- (a / b))) by (apply Rmult_le_compat_l; lra).
    assert (H2 : b * (- (a / b) - 1) < b * k) by (apply Rmult_lt_compat_l; lra).
    rewrite Rmult_minus_distr_l in H2.
    replace (b * - (a / b)) with (- a) in H1, H2 by lra. lra.
Qed.

End RemainderFacts.

(** ** Claims about a crashed agent *)

Section CrashClaims.
Context {num : Type} `{FlightNumber num}.
Import DronePhysics.
Local Open Scope num_scope.





End CrashClaims.


Section FormationOnCrashed.
Import Rounded DronePhysics.
Context `{Rounding} `{MathLibrary}.
Local Open Scope R_scope.


End FormationOnCrashed.

Section CrashRuns.
Import Rounded DronePhysics.
Local Open Scope R_scope.


End CrashRuns.

Section CrashCounterexample.
Import Rounded DronePhysics.
Local Open Scope R_scope.


End CrashCounterexample.

(** ** Claims about the tilt *)

Section TiltFacts.
Import Rounded JSMath DronePhysics Flight.
Context `{Rounding} `{MathLibrary}.
Local Open Scope R_scope.

Lemma representable_30 : representable 30.
Proof. representable_constant. Qed.

Lemma max_tilt : @MAX_TILT Rounded.t _ _ = Fin 30.
Proof. apply round_exact, representable_30. Qed.

Lemma level_tilt : within 30 (round 0).
Proof.
  rewrite round_exact by apply representable_0. exists 0. split; [reflexivity|].
  rewrite Rabs_R0. lra.
Qed.

(** [Math.min(tilt + 1, MAX_TILT)]. *)
Lemma tilt_forward (x : Rounded.t) :
  within 30 x -> within 30 (min (add x (round 1)) (round 30)).
Proof.
  intros (a & -> & Ha). apply Rabs_between in Ha.
  rewrite !round_exact by representable_constant. cbn [add].
  rewrite round_finite
    by (pose proof (pow2_below_huge 5 ltac:(lia)); simpl in *; lra).
  cbn [min]. exists (Rmin (rnd (a + 1)) 30). split; [reflexivity|].
  assert (-29 <= rnd (a + 1)) by (apply rnd_ge; [representable_constant|lra]).
  apply Rabs_le. split.
  - apply Rmin_glb; lra.
  - apply Rmin_r.
Qed.

(** [Math.max(tilt - 1, -MAX_TILT)]. *)
Lemma tilt_backward (x : Rounded.t) :
  within 30 x -> within 30 (max (sub x (round 1)) (opp (round 30))).
Proof.
  intros (a & -> & Ha). apply Rabs_between in Ha.
  rewrite !round_exact by representable_constant. cbn [sub opp add].
  rewrite round_finite
    by (pose proof (pow2_below_huge 5 ltac:(lia)); simpl in *; lra).
  cbn [max]. exists (Rmax (rnd (a + - 1)) (- 30)). split; [reflexivity|].
  assert (rnd (a + - 1) <= 29) by (apply rnd_le; [representable_constant|lra]).
  apply Rabs_le. split.
  - apply Rmax_r.
  - apply Rmax_lub; lra.
Qed.

(** [tilt * c] for a literal [c] between 0 and 1. *)
Lemma tilt_decay (x : Rounded.t) (c : R) :
  0 <= c <= 1 -> within 30 x -> within 30 (mul x (round c)).
Proof.
  intros Hc Hx. destruct (lit_unit c Hc) as (c' & -> & Hc').
  apply mul_within_unit; [apply representable_30|exact Hx|].
  exists c'. split; [reflexivity|]. apply Rabs_le. lra.
Qed.

Lemma tilt_after_ground (p : DronePhysics.t Rounded.t) :
  tilt (_handleGroundCollision p) = tilt p.
Proof. unfold _handleGroundCollision. now destruct (fltb _ _). Qed.

Lemma _handleMovement_tilt_bounded (delta : Rounded.t) (keys : Keys)
      (p : DronePhysics.t Rounded.t) :
  tilt_bounded p -> tilt_bounded (_handleMovement delta keys p).
Proof.
  unfold tilt_bounded, _handleMovement. intros [Hx Hz].
  destruct (key_r keys); [cbn; split; apply level_tilt|].
  destruct (key_w keys), (key_s keys), (key_a keys), (key_d keys);
    cbn [tilt tilt_x tilt_z set_tilt set_velocity];
    (split;
     [ first [ exact Hx | apply tilt_forward, Hx | apply tilt_backward, Hx
             | apply tilt_decay; [lra|exact Hx] ]
     | first [ exact Hz | apply tilt_forward, Hz | apply tilt_backward, Hz
             | apply tilt_decay; [lra|exact Hz] ] ]).
Qed.

End TiltFacts.


Section SteerFacts.
Import Rounded JSMath DronePhysics Flight.
Context `{Rounding} `{MathLibrary}.
Local Open Scope R_scope.

Lemma round_nonnegative (r : R) : 0 <= r -> nonnegative (round r).
Proof.
  intros Hr. unfold round. pose proof huge_pos.
  destruct (Rle_dec huge r); [now left|].
  destruct (Rle_dec r (- huge)); [lra|].
  right. exists (rnd r). split; [reflexivity|now apply rnd_nonneg].
Qed.

Lemma square_nonnegative (b : R) (x : Rounded.t) : within b x -> nonnegative (mul x x).
Proof. intros (a & -> & _). cbn [mul]. apply round_nonnegative. nra. Qed.

Lemma add_nonnegative (x y : Rounded.t) :
  nonnegative x -> nonnegative y -> nonnegative (add x y).
Proof.
  intros [->|(a & -> & Ha)] [->|(b & -> & Hb)]; cbn [add]; try now left.
  apply round_nonnegative. lra.
Qed.

Lemma sqrt_nonnegative (x : Rounded.t) : nonnegative x -> nonnegative (sqrt x).
Proof.
  intros [->|(a & -> & Ha)]; cbn [sqrt]; [now left|].
  destruct (Rlt_dec a 0); [lra|]. apply round_nonnegative, sqrt_pos.
Qed.

Lemma length_nonnegative (b : R) (v : Vector3 Rounded.t) :
  within b (vx v) -> within b (vy v) -> within b (vz v) -> nonnegative (length v).
Proof.
  intros Hx Hy Hz. unfold length. apply sqrt_nonnegative.
  repeat apply add_nonnegative; eapply square_nonnegative; eassumption.
Qed.

(** A length above a threshold of at least 1/16. *)
Lemma above_threshold (c : R) (d : Rounded.t) :
  / 16 <= c -> nonnegative d -> ltb (Fin c) d = true ->
  truthy d = true /\ within 16 (div (Fin 1) d).
Proof.
  intros Hc [->|(l & -> & Hl)] Hlt; cbn [truthy div ltb] in *.
  - split; [reflexivity|]. exists 0. split; [reflexivity|]. rewrite Rabs_R0. lra.
  - destruct (Rlt_dec c l); [|discriminate].
    destruct (Req_dec_T l 0); [lra|]. split; [reflexivity|].
    apply round_within_representable; [representable_constant|].
    assert (Hpos : 0 < l) by lra.
    rewrite Rabs_pos_eq by (left; unfold Rdiv; rewrite Rmult_1_l; now apply Rinv_0_lt_compat).
    unfold Rdiv. rewrite Rmult_1_l.
    replace 16 with (/ / 16) by field.
    apply Rinv_le_contravar; lra.
Qed.

Lemma representable_pow2_1000 : representable (powerRZ 2 1000).
Proof. apply representable_pow2. lia. Qed.

Lemma within_16 (x : Rounded.t) : within 16 x -> within (powerRZ 2 4) x.
Proof. intros Hx. eapply within_le; [exact Hx|]. simpl. lra. Qed.

Lemma within_1 (x : Rounded.t) : within 1 x -> within (powerRZ 2 0) x.
Proof. intros Hx. eapply within_le; [exact Hx|]. simpl. lra. Qed.

(** The coordinates of [v.setLength(l)], for a vector whose length is
    above the threshold and a target length of size at most 1. *)
Lemma setLength_within (c : R) (v : Vector3 Rounded.t) (l : Rounded.t) :
  / 16 <= c ->
  within (powerRZ 2 1001) (vx v) -> within (powerRZ 2 1001) (vy v) ->
  within (powerRZ 2 1001) (vz v) ->
  ltb (Fin c) (length v) = true -> within 1 l ->
  within (powerRZ 2 1005) (vx (setLength v l)) /\
  within (powerRZ 2 1005) (vz (setLength v l)).
Proof.
  intros Hc Hx Hy Hz Hfar Hl.
  pose proof (length_nonnegative _ v Hx Hy Hz) as Hlen.
  destruct (above_threshold c _ Hc Hlen Hfar) as [Htruthy Hinv].
  unfold setLength, multiplyScalar.
  cbn [vx vy vz ftruthy ndiv nmul number flit flight_number]. rewrite Htruthy.
  rewrite (round_exact 1) by representable_constant.
  apply within_16 in Hinv. apply within_1 in Hl.
  split.
  - replace 1005%Z with (1001 + 4 + 0)%Z by lia.
    apply mul_within; [lia| |exact Hl]. apply mul_within; [lia|exact Hx|exact Hinv].
  - replace 1005%Z with (1001 + 4 + 0)%Z by lia.
    apply mul_within; [lia| |exact Hl]. apply mul_within; [lia|exact Hz|exact Hinv].
Qed.

(** [Math.PI] is a number between 3 and 4. *)
Lemma round_PI : exists pi', round PI = Fin pi' /\ 3 <= pi' <= 4.
Proof.
  assert (Hpi : 3 < PI <= 4) by (pose proof PI2_3_2; pose proof PI_4; lra).
  exists (rnd PI). split.
  - apply round_finite. pose proof (pow2_below_huge 2 ltac:(lia)). simpl in *. lra.
  - split; [apply rnd_ge|apply rnd_le]; try representable_constant; lra.
Qed.

(** [RAD2DEG], that is [180 / Math.PI]. *)
Lemma rad2deg_within : within (powerRZ 2 6) (div (round 180) (round PI)).
Proof.
  destruct round_PI as (pi' & -> & Hpi).
  rewrite (round_exact 180) by representable_constant. cbn [div].
  destruct (Req_dec_T pi' 0); [lra|].
  apply round_within_pow2; [lia|].
  assert (0 < / pi' <= / 3).
  { split; [apply Rinv_0_lt_compat; lra|apply Rinv_le_contravar; lra]. }
  rewrite Rabs_pos_eq by (unfold Rdiv; nra). simpl. unfold Rdiv. nra.
Qed.

Lemma lit_360 : within (powerRZ 2 9) (round 360).
Proof. apply round_within_pow2; [lia|]. rewrite Rabs_pos_eq by lra. simpl. lra. Qed.

(** The heading of the target in degrees, made non-negative. *)
Lemma target_heading_within (dx dz : Rounded.t) :
  within (powerRZ 2 1001) dx -> within (powerRZ 2 1001) dz ->
  within (powerRZ 2 10)
         (let targetRotationDeg := radToDeg (fatan2 dx dz) in
          if fltb targetRotationDeg (flit 0) then nadd targetRotationDeg (flit 360)
          else targetRotationDeg).
Proof.
  intros (a & -> & _) (b & -> & _). cbn zeta.
  assert (Hdeg : within (powerRZ 2 8) (radToDeg (fatan2 (Fin a) (Fin b)))).
  { unfold radToDeg. cbn [fatan2 flit fPI nmul ndiv number flight_number Rounded.atan2].
    replace 8%Z with (2 + 6)%Z by lia. apply mul_within; [lia| |apply rad2deg_within].
    apply round_within_pow2; [lia|].
    pose proof (approx_atan2_range a b). simpl. lra. }
  destruct (fltb _ (flit 0)).
  - replace 10%Z with (9 + 1)%Z by lia. apply add_within; [lia| |apply lit_360].
    eapply within_pow2_le; [exact Hdeg|lia].
  - eapply within_pow2_le; [exact Hdeg|lia].
Qed.

(** The heading after the yaw step. *)
Lemma yaw_within (targetDeg rot delta : Rounded.t) :
  within (powerRZ 2 10) targetDeg ->
  within (powerRZ 2 1000) rot -> within (powerRZ 2 1000) delta ->
  within (powerRZ 2 1000)
         (let rotationDiff := nsub targetDeg rot in
          let rotationDiff :=
            if fltb (flit 180) rotationDiff then nsub rotationDiff (flit 360)
            else rotationDiff in
          let rotationDiff :=
            if fltb rotationDiff (fopp (flit 180)) then nadd rotationDiff (flit 360)
            else rotationDiff in
          let maxRotationChange := nmul ROTATION_SPEED (flit 2.0) in
          let r := nadd rot
                        (nmul (nmul (clamp rotationDiff (fopp maxRotationChange)
                                           maxRotationChange) delta) (flit 50)) in
          frem (nadd r (flit 360)) (flit 360)).
Proof.
  intros Ht Hr Hd. cbn zeta.
  assert (H1 : within (powerRZ 2 1001) (nsub targetDeg rot)).
  { replace 1001%Z with (1000 + 1)%Z by lia. apply sub_within; [lia| |exact Hr].
    eapply within_pow2_le; [exact Ht|lia]. }
  assert (H360 : within (powerRZ 2 1001) (flit 360))
    by (eapply within_pow2_le; [apply lit_360|lia]).
  set (d1 := nsub targetDeg rot) in *.
  assert (H2 : within (powerRZ 2 1002)
                      (if fltb (flit 180) d1 then nsub d1 (flit 360) else d1)).
  { destruct (fltb (flit 180) d1).
    - replace 1002%Z with (1001 + 1)%Z by lia. now apply sub_within; [lia| |].
    - eapply within_pow2_le; [exact H1|lia]. }
  set (d2 := if fltb (flit 180) d1 then nsub d1 (flit 360) else d1) in *.
  assert (H3 : within (powerRZ 2 1003)
                      (if fltb d2 (fopp (flit 180)) then nadd d2 (flit 360) else d2)).
  { destruct (fltb d2 (fopp (flit 180))).
    - replace 1003%Z with (1002 + 1)%Z by lia. apply add_within; [lia|exact H2|].
      eapply within_pow2_le; [exact H360|lia].
    - eapply within_pow2_le; [exact H2|lia]. }
  set (d3 := if fltb d2 (fopp (flit 180)) then nadd d2 (flit 360) else d2) in *.
  assert (Hmax : nmul (@ROTATION_SPEED Rounded.t _ _) (flit 2.0) = Fin 2).
  { unfold ROTATION_SPEED. cbn [nmul number flit flight_number].
    rewrite (round_exact 1.0), (round_exact 2.0) by representable_constant.
    apply mul_is; [lra|representable_constant]. }
  rewrite Hmax.
  assert (Hclamp : within (powerRZ 2 1)
                          (clamp d3 (fopp (Fin 2)) (Fin 2))).
  { unfold clamp. cbn [fopp fmin nmax number flight_number opp].
    destruct (clamp_within (- (2)) 2 d3 ltac:(lra) (within_not_nan _ _ H3)) as (r & -> & Hr2).
    exists r. split; [reflexivity|]. simpl. apply Rabs_le. lra. }
  set (c := clamp d3 (fopp (Fin 2)) (Fin 2)) in *.
  assert (H50 : within (powerRZ 2 6) (flit 50)).
  { apply round_within_pow2; [lia|]. rewrite Rabs_pos_eq by lra. simpl. lra. }
  assert (H4 : within (powerRZ 2 1007) (nmul (nmul c delta) (flit 50))).
  { replace 1007%Z with (1 + 1000 + 6)%Z by lia.
    apply mul_within; [lia| |exact H50]. apply mul_within; [lia|exact Hclamp|exact Hd]. }
  assert (H5 : within (powerRZ 2 1008) (nadd rot (nmul (nmul c delta) (flit 50)))).
  { replace 1008%Z with (1007 + 1)%Z by lia. apply add_within; [lia| |exact H4].
    eapply within_pow2_le; [exact Hr|lia]. }
  assert (H6 : within (powerRZ 2 1009)
                      (nadd (nadd rot (nmul (nmul c delta) (flit 50))) (flit 360))).
  { replace 1009%Z with (1008 + 1)%Z by lia. apply add_within; [lia|exact H5|].
    eapply within_pow2_le; [exact H360|lia]. }
  destruct H6 as (a & -> & _).
  cbn [frem flit flight_number]. rewrite (round_exact 360) by representable_constant.
  cbn [Rounded.rem]. destruct (Req_dec_T 360 0); [lra|].
  eapply within_pow2_le with (j := 9%Z); [|lia].
  apply round_within_pow2; [lia|].
  pose proof (rem_within a 360 ltac:(lra)). simpl. apply Rabs_le. lra.
Qed.

(** The sine and the cosine of a heading. *)
Lemma heading_trig (rot : Rounded.t) :
  within (powerRZ 2 1000) rot ->
  within 1 (fcos (ndiv (nmul rot fPI) (flit 180))) /\
  within 1 (fsin (ndiv (nmul rot fPI) (flit 180))).
Proof.
  intros (a & -> & Ha). cbn [fPI flit fcos fsin ndiv nmul number flight_number].
  destruct round_PI as (pi' & -> & Hpi).
  rewrite (round_exact 180) by representable_constant.
  assert (Hm : within (powerRZ 2 1002) (mul (Fin a) (Fin pi'))).
  { replace 1002%Z with (1000 + 2)%Z by lia. apply mul_within; [lia| |].
    - exists a. auto.
    - exists pi'. split; [reflexivity|]. rewrite Rabs_pos_eq by lra. simpl. lra. }
  destruct Hm as (m & -> & Hm). cbn [div]. destruct (Req_dec_T 180 0); [lra|].
  assert (Hq : within (powerRZ 2 1002) (round (m / 180))).
  { apply round_within_pow2; [lia|]. unfold Rdiv. rewrite Rabs_mult.
    rewrite (Rabs_pos_eq (/ 180)) by lra. pose proof (Rabs_pos m). lra. }
  destruct Hq as (q & -> & _). cbn [Rounded.cos Rounded.sin].
  split; (apply round_within_representable; [representable_constant|]).
  - apply approx_cos_range.
  - apply approx_sin_range.
Qed.

(** The tilt the steering computes from the horizontal velocity. *)
Lemma steering_tilt (velX velZ c s : Rounded.t) :
  within (powerRZ 2 1005) velX -> within (powerRZ 2 1005) velZ ->
  within 1 c -> within 1 s ->
  within 30 (clamp (nmul (nsub (nmul velZ c) (nmul velX s)) (flit 0.5))
                   (fopp MAX_TILT) MAX_TILT) /\
  within 30 (clamp (nmul (fopp (nadd (nmul velX c) (nmul velZ s))) (flit 0.5))
                   (fopp MAX_TILT) MAX_TILT).
Proof.
  intros Hx Hz Hc Hs. apply within_1 in Hc. apply within_1 in Hs.
  assert (Hzc : within (powerRZ 2 1005) (nmul velZ c))
    by (replace 1005%Z with (1005 + 0)%Z by lia; now apply mul_within; [lia| |]).
  assert (Hxs : within (powerRZ 2 1005) (nmul velX s))
    by (replace 1005%Z with (1005 + 0)%Z by lia; now apply mul_within; [lia| |]).
  assert (Hxc : within (powerRZ 2 1005) (nmul velX c))
    by (replace 1005%Z with (1005 + 0)%Z by lia; now apply mul_within; [lia| |]).
  assert (Hzs : within (powerRZ 2 1005) (nmul velZ s))
    by (replace 1005%Z with (1005 + 0)%Z by lia; now apply mul_within; [lia| |]).
  assert (Hhalf : within (powerRZ 2 0) (flit 0.5)).
  { apply round_within_pow2; [lia|]. rewrite Rabs_pos_eq by lra. simpl. lra. }
  assert (H1 : within (powerRZ 2 1006)
                      (nmul (nsub (nmul velZ c) (nmul velX s)) (flit 0.5))).
  { replace 1006%Z with (1005 + 1 + 0)%Z by lia. apply mul_within; [lia| |exact Hhalf].
    now apply sub_within; [lia| |]. }
  assert (H2 : within (powerRZ 2 1006)
                      (nmul (fopp (nadd (nmul velX c) (nmul velZ s))) (flit 0.5))).
  { replace 1006%Z with (1005 + 1 + 0)%Z by lia. apply mul_within; [lia| |exact Hhalf].
    apply opp_within. now apply add_within; [lia| |]. }
  rewrite max_tilt. unfold clamp. cbn [fopp fmin nmax number flight_number opp].
  split.
  - destruct (clamp_within (- (30)) 30 _ ltac:(lra) (within_not_nan _ _ H1)) as (r & Hc1 & Hr).
    exists r. split; [exact Hc1|]. apply Rabs_le. lra.
  - destruct (clamp_within (- (30)) 30 _ ltac:(lra) (within_not_nan _ _ H2)) as (r & Hc2 & Hr).
    exists r. split; [exact Hc2|]. apply Rabs_le. lra.
Qed.

(** The literal 0.1 is at least 1/16. *)
Lemma lit_tenth : exists c, round 0.1 = Fin c /\ / 16 <= c.
Proof.
  exists (rnd 0.1). split.
  - apply round_finite. pose proof (pow2_below_huge 0 ltac:(lia)). simpl in *. lra.
  - replace (/ 16) with 0.0625 by lra. apply rnd_ge; [representable_constant|lra].
Qed.

(** Half the reached-threshold is 0.75, twice it is 3. *)
Lemma threshold_half :
  nmul (@autonomousTargetReachedThreshold Rounded.t _ _) (flit 0.5) = Fin 0.75.
Proof.
  unfold autonomousTargetReachedThreshold. cbn [nmul number flit flight_number].
  rewrite (round_exact 1.5) by representable_as 3%Z (-1)%Z.
  rewrite (round_exact 0.5) by representable_as 1%Z (-1)%Z.
  apply mul_is; [lra|]. representable_as 3%Z (-2)%Z.
Qed.

Lemma threshold_twice :
  nmul (@autonomousTargetReachedThreshold Rounded.t _ _) (flit 2) = Fin 3.
Proof.
  unfold autonomousTargetReachedThreshold. cbn [nmul number flit flight_number].
  rewrite (round_exact 1.5) by representable_as 3%Z (-1)%Z.
  rewrite (round_exact 2) by representable_constant.
  apply mul_is; [lra|representable_constant].
Qed.

(** [MOVEMENT_SPEED * 0.03]. *)
Lemma max_horizontal_speed :
  exists m, nmul (@MOVEMENT_SPEED Rounded.t _ _) (flit 0.03) = Fin m /\ 0 <= m <= 1.
Proof.
  unfold MOVEMENT_SPEED. cbn [nmul number flit flight_number].
  rewrite (round_exact 25) by representable_constant.
  assert (Hc : round 0.03 = Fin (rnd 0.03) /\ 0 <= rnd 0.03 <= 0.03125).
  { split; [apply round_finite; pose proof (pow2_below_huge 0 ltac:(lia)); simpl in *; lra|].
    split; [apply rnd_nonneg; lra|]. apply rnd_le; [representable_as 1%Z (-5)%Z|lra]. }
  destruct Hc as [-> Hc]. cbn [mul]. exists (rnd (25 * rnd 0.03)). split.
  - apply round_finite. pose proof (pow2_below_huge 0 ltac:(lia)). simpl in *. lra.
  - split; [apply rnd_nonneg; lra|]. apply rnd_le; [representable_constant|lra].
Qed.

Lemma mul_unit (x y : Rounded.t) : within 1 x -> within 1 y -> within 1 (mul x y).
Proof. intros Hx Hy. apply mul_within_unit; [representable_constant|exact Hx|exact Hy]. Qed.

(** The speed the steering asks for. *)
Lemma slowed_speed_within (dist : Rounded.t) :
  nonnegative dist ->
  within 1 (nmul (nmul MOVEMENT_SPEED (flit 0.03))
                 (fmin (flit 1.0)
                       (ndiv dist (nmul autonomousTargetReachedThreshold (flit 2))))).
Proof.
  intros Hd. destruct max_horizontal_speed as (m & -> & Hm). rewrite threshold_twice.
  cbn [nmul ndiv number fmin flit flight_number].
  rewrite (round_exact 1.0) by representable_constant.
  apply mul_unit; [exists m; split; [reflexivity|apply Rabs_le; lra]|].
  destruct Hd as [->|(l & -> & Hl)]; cbn [div].
  - destruct (Rlt_dec 3 0); [lra|]. cbn [min]. exists 1.0. split; [reflexivity|].
    apply Rabs_le. lra.
  - destruct (Req_dec_T 3 0); [lra|].
    destruct (round_nonnegative (l / 3) ltac:(unfold Rdiv; lra)) as [->|(q & -> & Hq)];
      cbn [min].
    + exists 1.0. split; [reflexivity|]. apply Rabs_le. lra.
    + exists (Rmin 1.0 q). split; [reflexivity|]. apply Rabs_le. split.
      * apply Rle_trans with 0; [lra|]. apply Rmin_glb; lra.
      * apply Rle_trans with 1.0; [apply Rmin_l|lra].
Qed.

Lemma creep_speed_within :
  within 1 (nmul (nmul (@MOVEMENT_SPEED Rounded.t _ _) (flit 0.03)) (flit 0.2)).
Proof.
  destruct max_horizontal_speed as (m & -> & Hm). cbn [nmul number flit flight_number].
  apply mul_unit; [exists m; split; [reflexivity|apply Rabs_le; lra]|].
  destruct (lit_unit 0.2 ltac:(lra)) as (c & -> & Hc).
  exists c. split; [reflexivity|]. apply Rabs_le. lra.
Qed.

(** A velocity coordinate damped by 0.9. *)
Lemma damped_within (x : Rounded.t) :
  within (powerRZ 2 1000) x -> within (powerRZ 2 1005) (nmul x (flit 0.9)).
Proof.
  intros Hx. apply within_pow2_le with (j := 1000%Z); [|lia].
  cbn [nmul number flit flight_number].
  apply mul_within_unit; [apply representable_pow2_1000|exact Hx|].
  destruct (lit_unit 0.9 ltac:(lra)) as (c & -> & Hc).
  exists c. split; [reflexivity|]. apply Rabs_le. lra.
Qed.

(** Steering sets both tilt angles within the bound when what it reads is
    finite and moderate. *)
Lemma _steerTowardsPoint_tilt_bounded (target : Vector3 Rounded.t) (delta : Rounded.t)
      (p : DronePhysics.t Rounded.t) :
  steerable p target delta -> tilt_bounded (_steerTowardsPoint target delta p).
Proof.
  intros ((Hpx & Hpy & Hpz) & (Htx & Hty & Htz) & (Hvx & Hvy & Hvz) & Hrot & Hdelta).
  assert (Hdx : within (powerRZ 2 1001) (vx (subVectors target (position p))))
    by (replace 1001%Z with (1000 + 1)%Z by lia; now apply sub_within; [lia| |]).
  assert (Hdy : within (powerRZ 2 1001) (vy (subVectors target (position p))))
    by (replace 1001%Z with (1000 + 1)%Z by lia; now apply sub_within; [lia| |]).
  assert (Hdz : within (powerRZ 2 1001) (vz (subVectors target (position p))))
    by (replace 1001%Z with (1000 + 1)%Z by lia; now apply sub_within; [lia| |]).
  pose proof (length_nonnegative _ _ Hdx Hdy Hdz) as Hdist.
  unfold _steerTowardsPoint, tilt_bounded.
  set (desired := subVectors target (position p)) in *.
  set (dist := length desired) in *.
  rewrite threshold_half.
  destruct lit_tenth as (tenth & Htenth & Hc).
  change (flit 0.1) with (round 0.1). rewrite Htenth.
  assert (Hyaw : fltb (Fin tenth) dist = true ->
                 within (powerRZ 2 1000)
                        (rotation
                           (set_rotation
                              (frem
                                 (nadd
                                    (nadd (rotation p)
                                       (nmul
                                          (nmul
                                             (clamp
                                                (let rotationDiff :=
                                                   nsub
                                                     (let targetRotationDeg :=
                                                        radToDeg (fatan2 (vx desired) (vz desired)) in
                                                      if fltb targetRotationDeg (flit 0)
                                                      then nadd targetRotationDeg (flit 360)
                                                      else targetRotationDeg)
                                                     (rotation p) in
                                                 let rotationDiff :=
                                                   if fltb (flit 180) rotationDiff
                                                   then nsub rotationDiff (flit 360)
                                                   else rotationDiff in
                                                 if fltb rotationDiff (fopp (flit 180))
                                                 then nadd rotationDiff (flit 360)
                                                 else rotationDiff)
                                                (fopp (nmul ROTATION_SPEED (flit 2.0)))
                                                (nmul ROTATION_SPEED (flit 2.0)))
                                             delta)
                                          (flit 50)))
                                    (flit 360))
                                 (flit 360))
                              p))).
  { intros _. cbn [rotation set_rotation].
    exact (yaw_within _ _ _ (target_heading_within _ _ Hdx Hdz) Hrot Hdelta). }
  destruct (fltb (Fin tenth) dist) eqn:Hfar;
    destruct (fltb (Fin 0.75) dist) eqn:Hb1;
    cbn [tilt tilt_x tilt_z set_tilt set_velocity set_rotation velocity rotation vx vy vz];
    (eapply steering_tilt;
     [ | | apply (fun r Hr => proj1 (heading_trig r Hr))
         | apply (fun r Hr => proj2 (heading_trig r Hr)) ];
     first
       [ exact Hrot
       | exact (Hyaw eq_refl)
       | apply (proj1 (setLength_within 0.75 desired _ ltac:(lra) Hdx Hdy Hdz Hb1
                                        (slowed_speed_within dist Hdist)))
       | apply (proj2 (setLength_within 0.75 desired _ ltac:(lra) Hdx Hdy Hdz Hb1
                                        (slowed_speed_within dist Hdist)))
       | apply (proj1 (setLength_within tenth desired _ Hc Hdx Hdy Hdz Hfar
                                        creep_speed_within))
       | apply (proj2 (setLength_within tenth desired _ Hc Hdx Hdy Hdz Hfar
                                        creep_speed_within))
       | apply damped_within; assumption ]).
Qed.

End SteerFacts.

Section TiltClaims.
Import Rounded JSMath DronePhysics Flight.
Context `{Rounding} `{MathLibrary}.
Local Open Scope R_scope.

Lemma tilt_after_tail (delta : Rounded.t) (p : DronePhysics.t Rounded.t) :
  tilt (set_altitude (vy (position (_handleGroundCollision (_updatePosition delta (_applyDrag p)))))
                     (_handleGroundCollision (_updatePosition delta (_applyDrag p))))
  = tilt p.
Proof. cbn [tilt set_altitude]. now rewrite tilt_after_ground. Qed.

(** C10, as the code has it.  When both tilt angles are numbers within
    [MAX_TILT] = 30 degrees, they still are
    - after a call of [update] without an autonomous target, whatever the
      time step, the keys and the rest of the state (agent on the ground,
      crashed, under manual keys, reset);
    - after a call of [update] with an autonomous target, when the agent
      is not flying or is crashed (the target is not read), or when the
      position, the target, the velocity, the heading and the time step
      are finite and of magnitude at most [2^1000];
    - after a call of [moveToFormationPosition], whatever its arguments. *)
Theorem tilt_stays_bounded (p : DronePhysics.t Rounded.t) :
  tilt_bounded p ->
  (forall delta keys isFlying amb,
     tilt_bounded (update delta keys isFlying None amb p)) /\
  (forall delta keys isFlying target amb,
     isFlying = false \/ crashed p = true \/ steerable p target delta ->
     tilt_bounded (update delta keys isFlying (Some target) amb p)) /\
  (forall targetPosition targetRotation delta,
     tilt_bounded (moveToFormationPosition targetPosition targetRotation delta p)).
Proof.
  intros Hp. split; [|split].
  - intros delta keys isFlying amb. unfold update.
    destruct isFlying; cbn [negb]; [|exact Hp].
    destruct (crashed p).
    + unfold tilt_bounded. cbn [tilt tilt_x tilt_z set_tilt]. split; apply level_tilt.
    + unfold tilt_bounded. rewrite tilt_after_tail.
      apply _handleMovement_tilt_bounded. exact Hp.
  - intros delta keys isFlying target amb Hsteer. unfold update.
    destruct isFlying; cbn [negb]; [|exact Hp].
    destruct (crashed p).
    + unfold tilt_bounded. cbn [tilt tilt_x tilt_z set_tilt]. split; apply level_tilt.
    + destruct Hsteer as [Hf|[Hc|Hsteer]]; try discriminate.
      unfold tilt_bounded. rewrite tilt_after_tail.
      now apply _steerTowardsPoint_tilt_bounded.
  - intros targetPosition targetRotation delta. destruct Hp as [Hx Hz].
    unfold moveToFormationPosition, tilt_bounded.
    cbn [tilt tilt_x tilt_z set_tilt set_altitude].
    repeat match goal with
           | |- context [if ?b then _ else _] => destruct b
           end;
      cbn [tilt tilt_x tilt_z set_rotation set_velocity set_position set_inFormation];
      split; apply tilt_decay; (lra || assumption).
Qed.

Lemma mul_nan_l (y : Rounded.t) : mul NaN y = NaN.
Proof. now destruct y. Qed.

Lemma mul_nan_r (x : Rounded.t) : mul x NaN = NaN.
Proof. now destruct x. Qed.

Lemma sub_nan_r (x : Rounded.t) : sub x NaN = NaN.
Proof. now destruct x. Qed.

Lemma clamp_nan (low high : Rounded.t) : max low (min high NaN) = NaN.
Proof. destruct high; cbn [min]; now destruct low. Qed.

(** [v.setLength(l)] of a vector of infinite length with an infinite
    coordinate: Infinity times 1 / Infinity. *)
Lemma setLength_overflow (v : Vector3 Rounded.t) (l : Rounded.t) :
  length v = PosInf -> vx v = PosInf -> vx (setLength v l) = NaN.
Proof.
  intros Hlen Hx. unfold setLength. rewrite Hlen.
  cbn [ftruthy flight_number truthy multiplyScalar vx]. rewrite Hx.
  cbn [ndiv nmul number flit flight_number].
  rewrite (round_exact 1) by representable_constant. cbn [div mul].
  unfold scaled_infinity. destruct (Rlt_dec 0 0); [lra|]. apply mul_nan_l.
Qed.

Lemma steering_tilt_nan (velX velZ c s low high : Rounded.t) :
  velX = NaN ->
  clamp (nmul (nsub (nmul velZ c) (nmul velX s)) (flit 0.5)) low high = NaN.
Proof.
  intros ->. unfold clamp. cbn [nsub nmul fmin nmax number flight_number].
  rewrite mul_nan_l, sub_nan_r, mul_nan_l. apply clamp_nan.
Qed.

(** The vector from a position to a target whose difference in x
    overflows: steering sets the forward tilt to NaN. *)
Lemma steering_on_overflow (target : Vector3 Rounded.t) (delta : Rounded.t)
      (p : DronePhysics.t Rounded.t) (b : R) :
  nsub (vx target) (vx (position p)) = PosInf ->
  within b (nsub (vy target) (vy (position p))) ->
  within b (nsub (vz target) (vz (position p))) ->
  tilt_x (tilt (_steerTowardsPoint target delta p)) = NaN.
Proof.
  intros Hdx Hdy Hdz.
  pose proof (square_nonnegative _ _ Hdy) as Hy2.
  pose proof (square_nonnegative _ _ Hdz) as Hz2.
  assert (Hdist : length (subVectors target (position p)) = PosInf).
  { unfold length, subVectors. cbn [vx vy vz]. rewrite Hdx.
    cbn [nmul nadd fsqrt number flight_number mul].
    destruct Hy2 as [Hy2|(a & Hy2 & _)]; cbn [nmul number] in Hy2; rewrite Hy2;
      destruct Hz2 as [Hz2|(c & Hz2 & _)]; cbn [nmul number] in Hz2; rewrite Hz2;
      reflexivity. }
  unfold _steerTowardsPoint. rewrite threshold_half.
  destruct lit_tenth as (tenth & Htenth & _).
  change (flit 0.1) with (round 0.1). rewrite Htenth.
  set (desired := subVectors target (position p)) in *.
  rewrite Hdist. cbn [fltb flight_number ltb].
  cbn [tilt tilt_x set_tilt set_velocity set_rotation velocity rotation vx vy vz].
  apply steering_tilt_nan. now apply setLength_overflow.
Qed.

End TiltClaims.

Section TiltRuns.
Import Rounded JSMath DronePhysics Flight.
Local Open Scope R_scope.

Lemma within_small (r : R) : Rabs r <= 16 -> within (powerRZ 2 1000) (Fin r).
Proof.
  intros Hr. exists r. split; [reflexivity|].
  apply Rle_trans with (powerRZ 2 4); [simpl; lra|]. apply pow2_le. lia.
Qed.

(** An agent at the default start position steering at a target 5 to the
    side, 2 up and 5 ahead, with time step 1/16. *)
Lemma tilt_stays_bounded_witness :
  exists (rounding : Rounding) (library : MathLibrary),
    let p := construct (mkVector3 (Fin 0) (Fin 10) (Fin 0)) in
    let target := mkVector3 (Fin 5) (Fin 12) (Fin 5) in
    tilt_bounded p /\ steerable p target (Fin 0.0625) /\
    tilt_bounded (update (Fin 0.0625) no_keys true (Some target)
                         (mkAmbient (Fin 0) (Fin 0.5)) p).
Proof.
  destruct rounding_exists as [rounding]. destruct library_exists as [library].
  exists rounding, library. cbn zeta.
  assert (Hzero : @flit Rounded.t _ _ 0 = Fin 0) by apply round_exact, representable_0.
  assert (Hp : tilt_bounded (construct (mkVector3 (Fin 0) (Fin 10) (Fin 0))))
    by (split; apply level_tilt).
  assert (Hs : steerable (construct (mkVector3 (Fin 0) (Fin 10) (Fin 0)))
                         (mkVector3 (Fin 5) (Fin 12) (Fin 5)) (Fin 0.0625)).
  { unfold steerable, moderate, construct.
    cbn [position velocity rotation vx vy vz]. rewrite !Hzero.
    repeat split; apply within_small; unfold Rabs; destruct (Rcase_abs _); lra. }
  split; [exact Hp|]. split; [exact Hs|].
  exact (proj1 (proj2 (tilt_stays_bounded _ Hp)) (Fin 0.0625) no_keys true
               (mkVector3 (Fin 5) (Fin 12) (Fin 5)) (mkAmbient (Fin 0) (Fin 0.5))
               (or_intror (or_intror Hs))).
Defined.

(** C10, as stated, fails where the distance to the target overflows.
    Whatever the rounding, an agent with level tilt at x = -2^1023 that
    steers at a target at x = 2^1023, all coordinates finite, has a forward
    tilt that is NaN after the update: the difference of the two x
    coordinates is Infinity, and [setLength] multiplies it by
    1 / Infinity. *)
Lemma steering_at_a_far_target_loses_the_tilt :
  (forall (rounding : Rounding) (library : MathLibrary),
     let p := construct (mkVector3 (Fin (- powerRZ 2 1023)) (Fin 10) (Fin 0)) in
     let target := mkVector3 (Fin (powerRZ 2 1023)) (Fin 12) (Fin 5) in
     tilt_bounded p /\
     tilt_x (tilt (update (Fin 0.0625) no_keys true (Some target)
                          (mkAmbient (Fin 0) (Fin 0.5)) p)) = NaN) /\
  inhabited Rounding /\ inhabited MathLibrary.
Proof.
  split; [|split; [exact rounding_exists|exact library_exists]].
  intros rounding library. cbn zeta. split; [split; apply level_tilt|].
  unfold update. cbn [negb crashed construct].
  rewrite tilt_after_tail.
  apply steering_on_overflow with (b := 5).
  - cbn [vx position construct nsub number sub opp add]. unfold round.
    destruct (Rle_dec huge (powerRZ 2 1023 + - - powerRZ 2 1023)) as [_|Hno];
      [reflexivity|].
    exfalso. apply Hno. unfold huge.
    replace (powerRZ 2 1023 + - - powerRZ 2 1023) with (IZR (2 ^ 54) * powerRZ 2 970).
    + apply Rmult_le_compat_r; [left; apply pow2_pos|]. apply IZR_le. lia.
    + rewrite <- pow2_IZR by lia. rewrite <- pow2_add.
      replace (54 + 970)%Z with (1023 + 1)%Z by lia. rewrite pow2_add. simpl powerRZ at 2.
      lra.
  - cbn [vy position construct nsub number]. rewrite (sub_is 12 10 2) by (try lra; representable_constant).
    exists 2. split; [reflexivity|]. rewrite Rabs_pos_eq; lra.
  - cbn [vz position construct nsub number]. rewrite (sub_is 5 0 5) by (try lra; representable_constant).
    exists 5. split; [reflexivity|]. rewrite Rabs_pos_eq; lra.
Qed.

End TiltRuns.

(** ** The round trip between indices and cell centres, with rounding *)

Section Binades.
Local Open Scope R_scope.

(** A positive number lies between two consecutive powers of two. *)
Lemma binade (x : R) (lo : Z) (n : nat) :
  powerRZ 2 lo <= x < powerRZ 2 (lo + Z.of_nat n) ->
  exists k, (lo <= k < lo + Z.of_nat n)%Z /\ powerRZ 2 k <= x < powerRZ 2 (k + 1).
Proof.
  induction n as [|n IH]; intros [Hlow Hhigh].
  - replace (lo + Z.of_nat 0)%Z with lo in Hhigh by lia. lra.
  - destruct (Rlt_dec x (powerRZ 2 (lo + Z.of_nat n))) as [Hlt|Hge].
    + destruct (IH (conj Hlow Hlt)) as (k & Hk & Hx). exists k. split; [lia|exact Hx].
    + exists (lo + Z.of_nat n)%Z. split; [lia|]. split; [lra|].
      replace (lo + Z.of_nat n + 1)%Z with (lo + Z.of_nat (S n))%Z by lia. exact Hhigh.
Qed.

End Binades.

Section AxisTrip.
Import Rounded.
Context `{Rounding}.
Local Open Scope R_scope.

(** One axis: the centre of cell [i] on a grid axis of extent [w] cut into
    cells of size [s], and the index it maps back to. *)
Lemma axis_round_trip (w s : R) (n i : Z) :
  powerRZ 2 (-1000) <= s <= powerRZ 2 900 -> Rabs w <= s * powerRZ 2 40 ->
  floor (div (Fin w) (Fin s)) = Some n -> (0 <= i < n)%Z ->
  exists x,
    sub (mul (add (round (IZR i)) (Fin 0.5)) (Fin s)) (div (Fin w) (Fin 2)) = Fin x /\
    floor (div (add (Fin x) (div (Fin w) (Fin 2))) (Fin s)) = Some i.
Proof.
  intros Hs Hw Hn Hi.
  pose proof (pow2_pos (-1000)) as Hpos.
  assert (Hs0 : 0 < s) by lra.
  assert (Hinv : 0 < / s) by now apply Rinv_0_lt_compat.
  (* the cell count *)
  cbn [div] in Hn. destruct (Req_dec_T s 0) as [|_]; [lra|].
  assert (Hq : Rabs (w / s) <= powerRZ 2 40).
  { unfold Rdiv. rewrite Rabs_mult, (Rabs_pos_eq (/ s)) by lra.
    apply Rmult_le_reg_r with s; [exact Hs0|].
    rewrite Rmult_assoc, Rinv_l, Rmult_1_r by lra. lra. }
  destruct (round_within (w / s) 40 ltac:(lia) Hq) as [Hround Hqb].
  rewrite Hround in Hn. cbn [floor] in Hn. injection Hn as Hn.
  pose proof (rnd_error (w / s) (-12) ltac:(lia) Hq) as Herr.
  destruct (base_Int_part (rnd (w / s))) as [Hfloor _]. rewrite Hn in Hfloor.
  assert (Hi1 : IZR i + 1 <= IZR n) by (rewrite <- plus_IZR; apply IZR_le; lia).
  assert (Hi0 : 0 <= IZR i) by (apply IZR_le; lia).
  assert (Hsmall : powerRZ 2 (-12) <= / 4) by (simpl; lra).
  assert (Hiq : IZR i + 0.75 <= w / s) by (apply Rabs_between in Herr; lra).
  assert (Hi40 : IZR i + 1 <= powerRZ 2 40) by (apply Rabs_between in Hqb; lra).
  assert (Hiz : (i < 2 ^ 40)%Z).
  { apply lt_IZR. rewrite <- pow2_IZR by lia. lra. }
  (* the binade of the cell size *)
  destruct (binade s (-1000) 1901) as (k & Hk & Hsk).
  { split; [lra|]. apply Rle_lt_trans with (powerRZ 2 900); [lra|].
    replace (-1000 + Z.of_nat 1901)%Z with (900 + 1)%Z by lia.
    rewrite pow2_add. pose proof (pow2_pos 900). simpl powerRZ at 3. lra. }
  replace (-1000 + Z.of_nat 1901)%Z with 901%Z in Hk by lia.
  assert (Hk1 : powerRZ 2 (k + 1) = 2 * powerRZ 2 k)
    by (rewrite pow2_add; simpl powerRZ at 2; ring).
  set (u := powerRZ 2 (k - 6)).
  assert (Hu : powerRZ 2 k = 64 * u).
  { unfold u. replace k with (k - 6 + 6)%Z at 1 by lia. rewrite pow2_add. simpl. ring. }
  assert (Hu0 : 0 < u) by apply pow2_pos.
  assert (Hbig : powerRZ 2 (52 + (k - 6)) = powerRZ 2 46 * powerRZ 2 k).
  { rewrite <- pow2_add. f_equal. lia. }
  assert (H46 : powerRZ 2 46 = 64 * powerRZ 2 40) by (simpl; lra).
  pose proof (pow2_pos 40) as H40.
  pose proof (pow2_pos k) as Hk0.
  assert (Hbound : forall v, Rabs v <= 4 * powerRZ 2 40 * s ->
                             Rabs v <= powerRZ 2 (52 + (k - 6)) /\
                             Rabs v <= powerRZ 2 (k + 43)).
  { intros v Hv.
    assert (Hps : powerRZ 2 40 * s <= powerRZ 2 40 * (2 * powerRZ 2 k))
      by (apply Rmult_le_compat_l; lra).
    assert (0 < powerRZ 2 40 * powerRZ 2 k) by now apply Rmult_lt_0_compat.
    split.
    - rewrite Hbig, H46. lra.
    - replace (k + 43)%Z with (43 + k)%Z by lia. rewrite pow2_add.
      assert (H43 : powerRZ 2 43 = 8 * powerRZ 2 40) by (simpl; lra). rewrite H43. lra. }
  assert (Hstep : forall v, Rabs v <= 4 * powerRZ 2 40 * s ->
                            round v = Fin (rnd v) /\ Rabs (rnd v - v) <= u).
  { intros v Hv. destruct (Hbound v Hv) as [Hv1 Hv2]. split.
    - apply (round_within v (k + 43) ltac:(lia) Hv2).
    - apply rnd_error; [lia|exact Hv1]. }
  (* the centre *)
  rewrite (round_exact (IZR i)) by (apply representable_IZR; lia).
  cbn [add].
  assert (Hhalf : IZR i + 0.5 = IZR (2 * i + 1) / 2) by (rewrite plus_IZR, mult_IZR; lra).
  rewrite (round_exact (IZR i + 0.5)) by (rewrite Hhalf; apply representable_halves; lia).
  cbn [mul div]. destruct (Req_dec_T 2 0) as [|_]; [lra|].
  assert (Hsp : 0 < s * powerRZ 2 40) by now apply Rmult_lt_0_compat.
  assert (Hw2 : Rabs w <= 2 * powerRZ 2 40 * s) by lra.
  assert (Hws : w = w / s * s) by (field; lra).
  assert (Hc : Rabs ((IZR i + 0.5) * s) <= 4 * powerRZ 2 40 * s).
  { rewrite Rabs_pos_eq by nra. nra. }
  destruct (Hstep _ Hc) as [-> Ht]. set (t := rnd ((IZR i + 0.5) * s)) in *.
  assert (Hh : Rabs (w / 2) <= 4 * powerRZ 2 40 * s).
  { unfold Rdiv. rewrite Rabs_mult, (Rabs_pos_eq (/ 2)) by lra. lra. }
  destruct (Hstep _ Hh) as [-> Hhe]. set (h := rnd (w / 2)) in *.
  apply Rabs_between in Ht, Hhe.
  assert (Hwabs : - (s * powerRZ 2 40) <= w <= s * powerRZ 2 40)
    by now apply Rabs_between.
  assert (Hcpos : 0 <= (IZR i + 0.5) * s <= powerRZ 2 40 * s) by nra.
  assert (Hd : Rabs (t + - h) <= 4 * powerRZ 2 40 * s).
  { apply Rabs_le. rewrite Hu in *. nra. }
  unfold sub, opp. cbn [add].
  destruct (Hstep _ Hd) as [-> Hx]. set (x := rnd (t + - h)) in *.
  exists x. split; [reflexivity|].
  apply Rabs_between in Hx.
  assert (Hy : Rabs (x + h) <= 4 * powerRZ 2 40 * s).
  { apply Rabs_le. rewrite Hu in *. nra. }
  destruct (Hstep _ Hy) as [-> Hye]. set (y := rnd (x + h)) in *.
  apply Rabs_between in Hye.
  cbn [div]. destruct (Req_dec_T s 0) as [|_]; [lra|].
  (* back to the index *)
  assert (Hys : IZR i + 0.25 <= y / s <= IZR i + 0.75).
  { assert (Hy3 : (IZR i + 0.5) * s - 3 * u <= y <= (IZR i + 0.5) * s + 3 * u) by lra.
    assert (Hus : 64 * u <= s) by lra.
    split.
    - apply Rmult_le_reg_r with s; [exact Hs0|].
      unfold Rdiv. rewrite Rmult_assoc, Rinv_l, Rmult_1_r by lra. nra.
    - apply Rmult_le_reg_r with s; [exact Hs0|].
      unfold Rdiv. rewrite Rmult_assoc, Rinv_l, Rmult_1_r by lra. nra. }
  assert (Hlowr : representable (IZR i + 0.25)).
  { replace (IZR i + 0.25) with (IZR (4 * i + 1) * powerRZ 2 (-2))
      by (rewrite plus_IZR, mult_IZR; simpl; lra).
    apply representable_scaled; lia. }
  assert (Hhighr : representable (IZR i + 0.75)).
  { replace (IZR i + 0.75) with (IZR (4 * i + 3) * powerRZ 2 (-2))
      by (rewrite plus_IZR, mult_IZR; simpl; lra).
    apply representable_scaled; lia. }
  assert (Hr1 : IZR i + 0.25 <= rnd (y / s)) by (apply rnd_ge; [exact Hlowr|lra]).
  assert (Hr2 : rnd (y / s) <= IZR i + 0.75) by (apply rnd_le; [exact Hhighr|lra]).
  rewrite round_finite.
  - cbn [floor]. f_equal. symmetry. apply Int_part_spec. lra.
  - pose proof (pow2_below_huge 41 ltac:(lia)).
    assert (powerRZ 2 41 = 2 * powerRZ 2 40) by (simpl; lra). lra.
Qed.

End AxisTrip.

Section GridCounts.
Context {num : Type} `{Number num}.
Import NavigationGrid.

(** The cell counts of a grid object are what the constructor computed
    from the extents and the cell size. *)
Lemma reachable_counts (g : NavigationGrid.t num) :
  Reachable g ->
  nfloor (ndiv (worldWidth g) (cellSize g)) = Some (gridCellsX g) /\
  nfloor (ndiv (worldDepth g) (cellSize g)) = Some (gridCellsZ g).
Proof.
  induction 1 as [w d c ground g Hg|g objects _ IH].
  - revert Hg. unfold construct.
    destruct (nfloor (ndiv w c)) as [cx|] eqn:Hx; [|discriminate].
    destruct (nfloor (ndiv d c)) as [cz|] eqn:Hz; [|discriminate].
    intros [= <-]. cbn. auto.
  - destruct (keeps_populate (fun _ => tt) g objects (fun _ _ => eq_refl)
                             (fun _ _ => eq_refl)) as ((Fw & Fd & Fc & _ & Fx & Fz) & _).
    now rewrite Fw, Fd, Fc, Fx, Fz.
Qed.

End GridCounts.

Section RoundTripClaim.
Import Rounded NavigationGrid Moderate.
Context `{Rounding}.
Local Open Scope R_scope.

(** C8, as the code has it.  On a grid object whose extents and cell size
    are finite numbers, with a cell size between [2^-1000] and [2^900] and
    extents of at most [2^40] cell sizes, for every index pair [(i, j)]
    with [0 <= i < gridCellsX] and [0 <= j < gridCellsZ],
    [gridToWorldCoordinates(i, j)] is a position that
    [worldToGridCoordinates] maps back to exactly [(i, j)], whatever the
    rounding of the operations does. *)
Theorem grid_world_grid_round_trip (g : NavigationGrid.t Rounded.t) (i j : Z) :
  Reachable g -> moderate g ->
  (0 <= i < gridCellsX g)%Z -> (0 <= j < gridCellsZ g)%Z ->
  exists x z,
    gridToWorldCoordinates g i j = Some (x, z) /\
    worldToGridCoordinates g x z = Some (i, j).
Proof.
  intros Hg (w & d & s & Hw & Hd & Hs & Hsize & Hwide & Hdeep) Hi Hj.
  assert (Hb : in_bounds g i j = true).
  { unfold in_bounds. repeat (apply andb_true_intro; split).
    - apply Z.leb_le; lia.
    - apply Z.ltb_lt; lia.
    - apply Z.leb_le; lia.
    - apply Z.ltb_lt; lia. }
  destruct (reachable_centres Hg i j Hb) as (cell & Hcell & Hx & Hz).
  destruct (reachable_counts g Hg) as [Hcx Hcz].
  rewrite Hw, Hs in Hcx. rewrite Hd, Hs in Hcz.
  destruct (axis_round_trip w s (gridCellsX g) i Hsize Hwide Hcx Hi) as (x & Hx1 & Hx2).
  destruct (axis_round_trip d s (gridCellsZ g) j Hsize Hdeep Hcz Hj) as (z & Hz1 & Hz2).
  exists (Fin x), (Fin z). split.
  - unfold gridToWorldCoordinates. rewrite Hb, Hcell, Hx, Hz, Hw, Hd, Hs.
    cbn [nsub nmul nadd ndiv nofZ nhalf ntwo number]. now rewrite Hx1, Hz1.
  - unfold worldToGridCoordinates. rewrite Hw, Hd, Hs.
    cbn [nadd ndiv ntwo nfloor number]. now rewrite Hx2, Hz2, Hb.
Qed.

(** [new NavigationGrid(10, 10, 1)] on binary64 values. *)
Lemma rounded10_constructed :
  exists g,
    @construct Rounded.t _ (Fin 10) (Fin 10) (Fin 1) (Fin 0) = Some g /\
    worldWidth g = Fin 10 /\ worldDepth g = Fin 10 /\ cellSize g = Fin 1 /\
    groundLevel g = Fin 0 /\ gridCellsX g = 10%Z /\ gridCellsZ g = 10%Z.
Proof.
  unfold construct. cbn [ndiv nfloor number].
  rewrite (div_is 10 1 10) by (try lra; representable_constant).
  cbn [floor].
  assert (E : Int_part 10 = 10%Z) by (symmetry; apply Int_part_spec; lra).
  rewrite E. eexists. split; [reflexivity|]. cbn. auto 10.
Qed.

Lemma rounded10_moderate (g : NavigationGrid.t Rounded.t) :
  worldWidth g = Fin 10 -> worldDepth g = Fin 10 -> cellSize g = Fin 1 -> moderate g.
Proof.
  intros Hw Hd Hs. exists 10, 10, 1. repeat split; try assumption.
  - replace 1 with (powerRZ 2 0) by reflexivity. apply pow2_le. lia.
  - replace 1 with (powerRZ 2 0) at 1 by reflexivity. apply pow2_le. lia.
  - rewrite Rabs_pos_eq by lra. simpl. lra.
  - rewrite Rabs_pos_eq by lra. simpl. lra.
Qed.

End RoundTripClaim.

Section RoundTripRuns.
Import Rounded NavigationGrid Moderate.
Local Open Scope R_scope.

Lemma grid_world_grid_round_trip_witness :
  exists (rounding : Rounding) (g : NavigationGrid.t Rounded.t) (x z : Rounded.t),
    construct (Fin 10) (Fin 10) (Fin 1) (Fin 0) = Some g /\
    moderate g /\
    gridToWorldCoordinates g 3 7 = Some (x, z) /\
    worldToGridCoordinates g x z = Some (3%Z, 7%Z).
Proof.
  destruct rounding_exists as [rounding].
  destruct rounded10_constructed as (g & Hg & Hw & Hd & Hs & _ & Hx & Hz).
  pose proof (rounded10_moderate g Hw Hd Hs) as Hm.
  assert (Hi : (0 <= 3 < gridCellsX g)%Z) by (rewrite Hx; lia).
  assert (Hj : (0 <= 7 < gridCellsZ g)%Z) by (rewrite Hz; lia).
  destruct (grid_world_grid_round_trip g 3 7 (Reachable_construct _ _ _ _ Hg) Hm Hi Hj)
    as (x & z & Hto & Hback).
  exists rounding, g, x, z. auto.
Defined.

End RoundTripRuns.

Section RoundTripCounterexample.
Import Floats NavigationGrid.
Local Open Scope float_scope.

(** C8, as stated, fails in binary64 where the cell size is the smallest
    positive number, [2^-1074]: on the grid of ten by ten such cells the
    centre of cell (1, 0) is computed as [1.5 * 2^-1074 - 5 * 2^-1074],
    the product rounds to [2 * 2^-1074], and the position maps back to
    cell (2, 0). *)
Lemma smallest_cells_do_not_round_trip :
  exists g x z,
    construct 0xap-1074 0xap-1074 0x1p-1074 0 = Some g /\
    gridCellsX g = 10%Z /\ gridCellsZ g = 10%Z /\
    gridToWorldCoordinates g 1 0 = Some (x, z) /\
    worldToGridCoordinates g x z = Some (2%Z, 0%Z).
Proof.
  eexists _, _, _.
  split; [vm_compute; reflexivity|].
  split; [reflexivity|]. split; [reflexivity|].
  split; vm_compute; reflexivity.
Qed.

End RoundTripCounterexample.

(** ** The open 10 x 10 grid on binary64 values *)

Section OpenGrid.
Import Rounded NavigationGrid Pathfinder Diagonal.
Context `{Rounding}.
Local Open Scope R_scope.

Lemma open10_is_constructed :
  @construct Rounded.t _ (Fin 10) (Fin 10) (Fin 1) (Fin 0) = Some open10.
Proof.
  unfold construct. cbn [ndiv nfloor number].
  rewrite (div_is 10 1 10) by (try lra; representable_constant).
  cbn [floor].
  assert (E : Int_part 10 = 10%Z) by (symmetry; apply Int_part_spec; lra).
  rewrite E. reflexivity.
Qed.

Lemma in_bounds_open10 (i j : Z) :
  (0 <= i < 10)%Z -> (0 <= j < 10)%Z -> in_bounds open10 i j = true.
Proof.
  intros Hi Hj. unfold in_bounds. cbn [gridCellsX gridCellsZ open10].
  repeat (apply andb_true_intro; split); try apply Z.leb_le; try apply Z.ltb_lt; lia.
Qed.

Lemma open10_in_bounds (i j : Z) :
  in_bounds open10 i j = true -> (0 <= i < 10)%Z /\ (0 <= j < 10)%Z.
Proof. intros Hb. apply in_bounds_nonneg in Hb. exact Hb. Qed.

Lemma representable_coordinate (i : Z) : (-20 <= i <= 20)%Z -> representable (coordinate i).
Proof.
  intros Hi. unfold coordinate.
  replace (IZR i - 4.5) with (IZR (2 * i - 9) / 2) by (rewrite minus_IZR, mult_IZR; lra).
  apply representable_halves. lia.
Qed.

Lemma centre_coordinate (i : Z) :
  (0 <= i < 10)%Z ->
  sub (mul (add (round (IZR i)) (Fin 0.5)) (Fin 1)) (div (Fin 10) (Fin 2))
  = Fin (coordinate i).
Proof.
  intros Hi.
  rewrite (round_exact (IZR i)) by (apply representable_IZR; lia).
  assert (Hh : representable (IZR i + 0.5)).
  { replace (IZR i + 0.5) with (IZR (2 * i + 1) / 2) by (rewrite plus_IZR, mult_IZR; lra).
    apply representable_halves. lia. }
  rewrite (add_is (IZR i) 0.5 (IZR i + 0.5)) by (try reflexivity; exact Hh).
  rewrite (mul_is (IZR i + 0.5) 1 (IZR i + 0.5)) by (try lra; exact Hh).
  rewrite (div_is 10 2 5) by (try lra; representable_constant).
  apply sub_is; [unfold coordinate; lra|]. apply representable_coordinate. lia.
Qed.

Lemma open10_cell (i j : Z) :
  (0 <= i < 10)%Z -> (0 <= j < 10)%Z -> cell_at open10 i j = Some (cell i j).
Proof.
  intros Hi Hj.
  rewrite (construct_cell_at _ _ _ _ i j open10_is_constructed (in_bounds_open10 i j Hi Hj)).
  unfold new_cell, cell. cbn [nsub nmul nadd ndiv nofZ nhalf ntwo number].
  now rewrite (centre_coordinate i Hi), (centre_coordinate j Hj).
Qed.

Lemma axis_index (i : Z) :
  (0 <= i < 10)%Z ->
  floor (div (add (Fin (coordinate i)) (div (Fin 10) (Fin 2))) (Fin 1)) = Some i.
Proof.
  intros Hi.
  assert (Hh : representable (IZR i + 0.5)).
  { replace (IZR i + 0.5) with (IZR (2 * i + 1) / 2) by (rewrite plus_IZR, mult_IZR; lra).
    apply representable_halves. lia. }
  rewrite (div_is 10 2 5) by (try lra; representable_constant).
  rewrite (add_is (coordinate i) 5 (IZR i + 0.5)) by (try (unfold coordinate; lra); exact Hh).
  rewrite (div_is (IZR i + 0.5) 1 (IZR i + 0.5)) by (try lra; exact Hh).
  cbn [floor]. now rewrite Int_part_half.
Qed.

Lemma open10_cell_of (i j : Z) :
  (0 <= i < 10)%Z -> (0 <= j < 10)%Z ->
  worldToGridCoordinates open10 (Fin (coordinate i)) (Fin (coordinate j)) = Some (i, j).
Proof.
  intros Hi Hj. unfold worldToGridCoordinates.
  cbn [worldWidth worldDepth cellSize open10 nadd ndiv ntwo nfloor number].
  now rewrite (axis_index i Hi), (axis_index j Hj), (in_bounds_open10 i j Hi Hj).
Qed.

End OpenGrid.

(** ** The sort of the open set *)

Section SortFacts.
Context {num : Type} `{SearchNumber num}.
Import Pathfinder.
Variable nodes : list (list (Node num)).

Lemma insert_permutation (a : Ref) (l : list Ref) :
  Permutation (insert_by_fCost nodes a l) (a :: l).
Proof.
  induction l as [|b l IH]; simpl; [reflexivity|].
  destruct (nltb _ _); [reflexivity|].
  rewrite IH. apply perm_swap.
Qed.

Lemma sort_fold_permutation (l acc : list Ref) :
  Permutation (fold_left (fun sorted a => insert_by_fCost nodes a sorted) l acc) (l ++ acc).
Proof.
  revert acc. induction l as [|a l IH]; intros acc; simpl; [reflexivity|].
  rewrite IH, insert_permutation. symmetry. apply Permutation_middle.
Qed.

Lemma sort_permutation (l : list Ref) : Permutation (sort_by_fCost nodes l) l.
Proof.
  unfold sort_by_fCost. rewrite sort_fold_permutation. now rewrite app_nil_r.
Qed.

Variable h : Ref.

Lemma insert_first (acc : list Ref) :
  (forall r, In r acc -> nltb (nsub (fCost_of nodes h) (fCost_of nodes r)) nzero = true) ->
  insert_by_fCost nodes h acc = h :: acc.
Proof.
  destruct acc as [|b acc]; intros Hb; simpl; [reflexivity|].
  rewrite (Hb b (or_introl eq_refl)). reflexivity.
Qed.

Lemma fold_keeps_head (l : list Ref) :
  forall rest,
    (forall r, In r l -> nltb (nsub (fCost_of nodes r) (fCost_of nodes h)) nzero = false) ->
    exists rest',
      fold_left (fun sorted a => insert_by_fCost nodes a sorted) l (h :: rest) = h :: rest'.
Proof.
  induction l as [|a l IH]; intros rest Hl; simpl.
  - now exists rest.
  - rewrite (Hl a (or_introl eq_refl)). apply IH.
    intros r Hr. apply Hl. now right.
Qed.

Lemma fold_finds_head (l : list Ref) :
  forall acc,
    NoDup l -> In h l ->
    (forall r, In r l -> r <> h ->
               nltb (nsub (fCost_of nodes h) (fCost_of nodes r)) nzero = true /\
               nltb (nsub (fCost_of nodes r) (fCost_of nodes h)) nzero = false) ->
    (forall r, In r acc -> nltb (nsub (fCost_of nodes h) (fCost_of nodes r)) nzero = true) ->
    exists rest,
      fold_left (fun sorted a => insert_by_fCost nodes a sorted) l acc = h :: rest.
Proof.
  induction l as [|a l IH]; intros acc Hnd Hin Hl Hacc; [destruct Hin|].
  inversion Hnd as [|a' l' Ha Hnd']; subst. simpl.
  destruct (ref_eqb a h) eqn:E.
  - apply ref_eqb_eq in E. subst a. rewrite (insert_first acc Hacc).
    apply fold_keeps_head. intros r Hr. apply Hl; [now right|].
    intros ->. contradiction.
  - assert (Hne : a <> h) by (intros ->; rewrite (proj2 (ref_eqb_eq h h) eq_refl) in E;
                              discriminate).
    destruct Hin as [->|Hin]; [contradiction|].
    apply IH; auto.
    + intros r Hr Hrh. apply Hl; [now right|exact Hrh].
    + intros r Hr. apply In_insert_by_fCost in Hr. destruct Hr as [->|Hr].
      * apply Hl; [now left|exact Hne].
      * now apply Hacc.
Qed.

Lemma sort_head (l : list Ref) :
  NoDup l -> In h l ->
  (forall r, In r l -> r <> h ->
             nltb (nsub (fCost_of nodes h) (fCost_of nodes r)) nzero = true /\
             nltb (nsub (fCost_of nodes r) (fCost_of nodes h)) nzero = false) ->
  exists rest,
    sort_by_fCost nodes l = h :: rest /\ NoDup rest /\
    forall r, In r rest <-> In r l /\ r <> h.
Proof.
  intros Hnd Hin Hl.
  destruct (fold_finds_head l [] Hnd Hin Hl) as [rest Hrest]; [intros r []|].
  exists rest. split; [exact Hrest|].
  pose proof (sort_permutation l) as Hp. unfold sort_by_fCost in Hp. rewrite Hrest in Hp.
  assert (Hnd' : NoDup (h :: rest)).
  { eapply Permutation_NoDup; [symmetry; exact Hp|exact Hnd]. }
  inversion Hnd' as [|h' rest' Hh Hr]; subst. split; [exact Hr|].
  intros r. split.
  - intros Hrr. split.
    + eapply Permutation_in; [exact Hp|now right].
    + intros ->. contradiction.
  - intros [Hrl Hne].
    assert (Hrr : In r (h :: rest)) by (eapply Permutation_in; [symmetry; exact Hp|exact Hrl]).
    destruct Hrr as [->|Hrr]; [contradiction|exact Hrr].
Qed.

End SortFacts.

(** ** The costs along the diagonal *)

Section CostFacts.
Import Rounded NavigationGrid Pathfinder Diagonal.
Context `{Rounding}.
Local Open Scope R_scope.

Lemma pow2_39 : powerRZ 2 39 = 549755813888.
Proof. rewrite pow2_IZR by lia. reflexivity. Qed.

Lemma pow2_36 : powerRZ 2 36 = 68719476736.
Proof. rewrite pow2_IZR by lia. reflexivity. Qed.

Lemma pow2_38 : powerRZ 2 38 = 274877906944.
Proof. rewrite pow2_IZR by lia. reflexivity. Qed.

Lemma pow2_m13 : powerRZ 2 (-13) = / 8192.
Proof. simpl. f_equal. lra. Qed.

Lemma rnd_close (x : R) :
  Rabs x <= powerRZ 2 39 -> round x = Fin (rnd x) /\ Rabs (rnd x - x) <= / 8192.
Proof.
  intros Hx. split.
  - apply (round_within x 39); [lia|exact Hx].
  - rewrite <- pow2_m13. apply rnd_error; [lia|exact Hx].
Qed.

Lemma sqrt2_bounds : 1.4142 <= R_sqrt.sqrt 2 <= 1.4143.
Proof.
  assert (Hw : 0 <= R_sqrt.sqrt 2) by apply sqrt_pos.
  assert (Hs : R_sqrt.sqrt 2 * R_sqrt.sqrt 2 = 2) by (apply sqrt_sqrt; lra).
  split; nra.
Qed.

Lemma sqrt_below (x y : R) : 0 <= y -> x <= y * y -> R_sqrt.sqrt x <= y.
Proof.
  intros Hy Hx. rewrite <- (sqrt_square y Hy). now apply sqrt_le_1_alt.
Qed.

Lemma sqrt_above (x y : R) : 0 <= y -> y * y <= x -> y <= R_sqrt.sqrt x.
Proof.
  intros Hy Hx. rewrite <- (sqrt_square y Hy) at 1. now apply sqrt_le_1_alt.
Qed.

Lemma root2_facts :
  round (R_sqrt.sqrt 2) = Fin root2 /\ representable root2 /\
  1 <= root2 /\ Rabs (root2 - R_sqrt.sqrt 2) <= / 8192.
Proof.
  pose proof sqrt2_bounds as Hw.
  assert (Hx : Rabs (R_sqrt.sqrt 2) <= powerRZ 2 39).
  { rewrite pow2_39, Rabs_pos_eq by lra. lra. }
  destruct (rnd_close _ Hx) as [Hr He]. repeat split.
  - exact Hr.
  - apply rnd_representable.
  - apply rnd_ge; [representable_constant|lra].
  - exact He.
Qed.

Variables startY endY : R.
Hypothesis Hstart : Rabs startY <= powerRZ 2 36.
Hypothesis Hend : Rabs endY <= powerRZ 2 36.

Lemma takeoff_bounds : 1 <= takeoff startY <= powerRZ 2 36.
Proof.
  unfold takeoff. apply Rabs_between in Hstart. rewrite pow2_36 in *.
  unfold Rmax. destruct (Rle_dec startY 1); lra.
Qed.

Lemma cruise_bounds : 1 <= cruise endY <= powerRZ 2 36.
Proof.
  unfold cruise. apply Rabs_between in Hend. rewrite pow2_36 in *.
  unfold Rmax. destruct (Rle_dec endY 1); lra.
Qed.

Lemma flight_altitude (y : R) : max (Fin y) (add (Fin 0) (Fin 1)) = Fin (Rmax y 1).
Proof.
  rewrite (add_is 0 1 1) by (try lra; representable_constant). reflexivity.
Qed.

Lemma climb_steps :
  exists d, sub (Fin (cruise endY)) (Fin (takeoff startY)) = Fin d /\
            mul (Fin (Rabs d)) (Fin 1.5) = Fin (climb startY endY) /\
            0 <= climb startY endY <= powerRZ 2 38.
Proof.
  pose proof takeoff_bounds as Ht. pose proof cruise_bounds as Hc.
  assert (Hd : Rabs (cruise endY - takeoff startY) <= powerRZ 2 36).
  { apply Rabs_le. rewrite pow2_36 in *. lra. }
  destruct (round_within (cruise endY - takeoff startY) 36 ltac:(lia) Hd) as [Hr Hb].
  exists (rnd (cruise endY - takeoff startY)). split; [exact Hr|].
  assert (Hm : Rabs (Rabs (rnd (cruise endY - takeoff startY)) * 1.5) <= powerRZ 2 38).
  { rewrite Rabs_mult, Rabs_Rabsolu, (Rabs_pos_eq 1.5) by lra.
    rewrite pow2_36 in Hb. rewrite pow2_38. lra. }
  destruct (round_within _ 38 ltac:(lia) Hm) as [Hr2 Hb2].
  split; [exact Hr2|]. split.
  - apply rnd_nonneg. apply Rmult_le_pos; [apply Rabs_pos|lra].
  - apply Rabs_between in Hb2. apply Hb2.
Qed.

Lemma move_cost (k : Z) (n : Ref) :
  (if ((Z.abs (fst n - k) =? 1) && (Z.abs (snd n - k) =? 1))%Z
   then mul (Fin 1) (round (R_sqrt.sqrt 2)) else Fin 1)
  = Fin (step_cost k n) /\
  representable (step_cost k n) /\ 1 <= step_cost k n <= 1.4145.
Proof.
  destruct root2_facts as (Hr & Hrep & Hge & Hclose).
  pose proof sqrt2_bounds as Hw. apply Rabs_between in Hclose.
  unfold step_cost. destruct (_ && _).
  - rewrite Hr. rewrite (mul_is 1 root2 root2) by (try lra; exact Hrep).
    repeat split; try assumption. lra.
  - repeat split; try lra. representable_constant.
Qed.

(** The cost of the step from a node to a neighbour. *)
Lemma tentative_cost (n : Node Rounded.t) (b c : R) :
  base_of startY endY n b -> 0 <= b <= powerRZ 2 38 + 20 ->
  representable c -> 1 <= c <= 1.4145 ->
  add (add (gCost n) (Fin c)) (mul (abs (sub (Fin (cruise endY)) (flyY n))) (Fin 1.5))
  = Fin (rnd (b + c)).
Proof.
  intros Hbase Hb Hrep Hc.
  rewrite pow2_38 in Hb.
  assert (Hsum : Rabs (b + c) <= powerRZ 2 39).
  { rewrite Rabs_pos_eq by lra. rewrite pow2_39. lra. }
  destruct (rnd_close _ Hsum) as [Hr _].
  destruct Hbase as [(Hg & Hf & ->)|(Hg & Hf)]; rewrite Hg, Hf.
  - destruct climb_steps as (d & Hd & Hm & _). rewrite Hd. cbn [abs]. rewrite Hm.
    rewrite (add_is 0 c c) by (try lra; exact Hrep).
    cbn [add]. rewrite Rplus_comm. exact Hr.
  - rewrite (sub_is (cruise endY) (cruise endY) 0) by (try lra; representable_constant).
    cbn [abs]. rewrite Rabs_R0.
    rewrite (mul_is 0 1.5 0) by (try lra; representable_constant).
    change (add (Fin b) (Fin c)) with (round (b + c)). rewrite Hr.
    apply add_is; [lra|apply rnd_representable].
Qed.

Lemma squared_distance_bounds (i j : Z) :
  (0 <= i < 10)%Z -> (0 <= j < 10)%Z -> (0 <= squared_distance (i, j) <= 162)%Z.
Proof. intros Hi Hj. unfold squared_distance. cbn [fst snd]. nia. Qed.

(** The heuristic at a cell, from the flight altitude to the target. *)
Lemma heuristic_value (i j : Z) :
  (0 <= i < 10)%Z -> (0 <= j < 10)%Z ->
  heuristic (cell i j) (Fin (cruise endY)) (Fin (coordinate 9)) (Fin (coordinate 9))
            (Fin (cruise endY))
  = Fin (rnd (R_sqrt.sqrt (IZR (squared_distance (i, j))))) /\
  0 <= rnd (R_sqrt.sqrt (IZR (squared_distance (i, j)))) <= 13 /\
  Rabs (rnd (R_sqrt.sqrt (IZR (squared_distance (i, j))))
        - R_sqrt.sqrt (IZR (squared_distance (i, j)))) <= / 8192.
Proof.
  intros Hi Hj. pose proof (squared_distance_bounds i j Hi Hj) as HN.
  assert (HN0 : 0 <= IZR (squared_distance (i, j))) by (apply IZR_le; lia).
  assert (HN1 : IZR (squared_distance (i, j)) <= 162) by (apply IZR_le; lia).
  assert (Hroot : 0 <= R_sqrt.sqrt (IZR (squared_distance (i, j))) <= 13).
  { split; [apply sqrt_pos|]. apply sqrt_below; lra. }
  assert (Hx : Rabs (R_sqrt.sqrt (IZR (squared_distance (i, j)))) <= powerRZ 2 39).
  { rewrite pow2_39, Rabs_pos_eq by lra. lra. }
  destruct (rnd_close _ Hx) as [Hr He]. split; [|split; [|exact He]].
  - unfold heuristic. cbn [worldX worldZ cell nsub nmul nadd nsqrt number search_number].
    rewrite (sub_is (coordinate 9) (coordinate i) (IZR (9 - i)))
      by (try (unfold coordinate; rewrite minus_IZR; lra); apply representable_IZR; lia).
    rewrite (sub_is (coordinate 9) (coordinate j) (IZR (9 - j)))
      by (try (unfold coordinate; rewrite minus_IZR; lra); apply representable_IZR; lia).
    rewrite (sub_is (cruise endY) (cruise endY) 0) by (try lra; representable_constant).
    rewrite (mul_is (IZR (9 - i)) (IZR (9 - i)) (IZR ((9 - i) * (9 - i))))
      by (try (rewrite mult_IZR; reflexivity); apply representable_IZR; nia).
    rewrite (mul_is (IZR (9 - j)) (IZR (9 - j)) (IZR ((9 - j) * (9 - j))))
      by (try (rewrite mult_IZR; reflexivity); apply representable_IZR; nia).
    rewrite (mul_is 0 0 0) by (try lra; representable_constant).
    rewrite (add_is (IZR ((9 - i) * (9 - i))) (IZR ((9 - j) * (9 - j)))
                    (IZR (squared_distance (i, j))))
      by (try (unfold squared_distance; cbn [fst snd]; rewrite plus_IZR; reflexivity);
          apply representable_IZR; lia).
    rewrite (add_is (IZR (squared_distance (i, j))) 0 (IZR (squared_distance (i, j))))
      by (try lra; apply representable_IZR; lia).
    cbn [sqrt]. destruct (Rlt_dec (IZR (squared_distance (i, j))) 0) as [Hneg|_].
    + lra.
    + exact Hr.
  - split; [apply rnd_nonneg; lra|]. apply rnd_le; [representable_constant|lra].
Qed.

End CostFacts.

Section StepFacts.
Import Rounded NavigationGrid Pathfinder Diagonal.
Context `{Rounding}.
Local Open Scope R_scope.

(** A neighbour of [(k, k)] other than [(k + 1, k + 1)] is not much
    nearer to the target than [(k, k)] is. *)
Lemma far_neighbour (k : Z) (n : Ref) :
  (0 <= k <= 8)%Z -> around k n -> n <> ((k + 1)%Z, (k + 1)%Z) ->
  IZR (9 - k) * R_sqrt.sqrt 2 - 0.69 <= R_sqrt.sqrt (IZR (squared_distance n)).
Proof.
  intros Hk [Hx Hz] Hne. destruct n as [i j]. cbn [fst snd] in *.
  assert (HN : (2 * (9 - k) * (9 - k) - 2 * (9 - k) + 1 <= squared_distance (i, j))%Z).
  { unfold squared_distance. cbn [fst snd].
    assert (Hij : ~ (i = k + 1 /\ j = k + 1)%Z) by (intros [-> ->]; now apply Hne).
    assert (Hi : (i = k - 1 \/ i = k \/ i = k + 1)%Z) by lia.
    assert (Hj : (j = k - 1 \/ j = k \/ j = k + 1)%Z) by lia.
    destruct Hi as [->|[->| ->]]; destruct Hj as [->|[->| ->]]; nia. }
  apply IZR_le in HN.
  rewrite plus_IZR, minus_IZR, !mult_IZR in HN.
  pose proof sqrt2_bounds as Hw.
  assert (Hs : R_sqrt.sqrt 2 * R_sqrt.sqrt 2 = 2) by (apply sqrt_sqrt; lra).
  assert (Ha : 1 <= IZR (9 - k) <= 9) by (split; apply IZR_le; lia).
  set (a := IZR (9 - k)) in *. set (w := R_sqrt.sqrt 2) in *.
  assert (Haw : 1.4142 * a <= a * w).
  { assert (0 <= a * (w - 1.4142)) by (apply Rmult_le_pos; lra). lra. }
  assert (Hsq : a * w * (a * w) = 2 * (a * a)).
  { replace (a * w * (a * w)) with (a * a * (w * w)) by ring. rewrite Hs. ring. }
  apply sqrt_above; [lra|].
  set (p := a * w) in *. lra.
Qed.

Lemma diagonal_neighbour (k : Z) :
  (0 <= k <= 8)%Z ->
  R_sqrt.sqrt (IZR (squared_distance ((k + 1)%Z, (k + 1)%Z))) <= IZR (8 - k) * R_sqrt.sqrt 2.
Proof.
  intros Hk. pose proof sqrt2_bounds as Hw.
  assert (Hs : R_sqrt.sqrt 2 * R_sqrt.sqrt 2 = 2) by (apply sqrt_sqrt; lra).
  assert (Ha : 0 <= IZR (8 - k)) by (apply IZR_le; lia).
  apply sqrt_below; [apply Rmult_le_pos; lra|].
  unfold squared_distance. cbn [fst snd].
  replace (9 - (k + 1))%Z with (8 - k)%Z by lia.
  rewrite plus_IZR, mult_IZR.
  replace (IZR (8 - k) * R_sqrt.sqrt 2 * (IZR (8 - k) * R_sqrt.sqrt 2))
    with (IZR (8 - k) * IZR (8 - k) * (R_sqrt.sqrt 2 * R_sqrt.sqrt 2)) by ring.
  rewrite Hs. lra.
Qed.

Variables startY endY : R.
Hypothesis Hstart : Rabs startY <= powerRZ 2 36.
Hypothesis Hend : Rabs endY <= powerRZ 2 36.

Lemma base_bounds (k : Z) (b : R) :
  (0 <= k <= 8)%Z -> Rabs (b - line startY endY k) <= IZR k / 1000 ->
  0 <= b <= powerRZ 2 38 + 20.
Proof.
  intros Hk Hb. apply Rabs_between in Hb. unfold line in Hb.
  destruct (climb_steps startY endY Hstart Hend) as (_ & _ & _ & Hc).
  pose proof sqrt2_bounds as Hw.
  assert (Ha : 0 <= IZR k <= 8) by (split; apply IZR_le; lia).
  assert (H1 : 0 <= IZR k * (R_sqrt.sqrt 2 - 1)) by (apply Rmult_le_pos; lra).
  assert (H2 : 0 <= (8 - IZR k) * R_sqrt.sqrt 2) by (apply Rmult_le_pos; lra).
  lra.
Qed.

(** The total cost of a neighbour off the diagonal. *)
Lemma total_cost_far (k : Z) (b c hv root : R) :
  (0 <= k <= 8)%Z -> Rabs (b - line startY endY k) <= IZR k / 1000 ->
  1 <= c <= 1.4145 -> 0 <= hv <= 13 -> Rabs (hv - root) <= / 8192 ->
  IZR (9 - k) * R_sqrt.sqrt 2 - 0.69 <= root ->
  add (Fin (rnd (b + c))) (Fin hv) = Fin (rnd (rnd (b + c) + hv)) /\
  line startY endY 9 + 0.3 <= rnd (rnd (b + c) + hv).
Proof.
  intros Hk Hb Hc Hhv Hclose Hroot.
  destruct (base_bounds k b Hk Hb) as [Hb0 Hb1]. rewrite pow2_38 in Hb1.
  apply Rabs_between in Hb. apply Rabs_between in Hclose. unfold line in *.
  rewrite minus_IZR in Hroot.
  assert (Ha : 0 <= IZR k <= 8) by (split; apply IZR_le; lia).
  assert (Hx : Rabs (b + c) <= powerRZ 2 39).
  { rewrite pow2_39, Rabs_pos_eq by lra. lra. }
  destruct (rnd_close _ Hx) as [_ Hv]. apply Rabs_between in Hv.
  assert (Hy : Rabs (rnd (b + c) + hv) <= powerRZ 2 39).
  { rewrite pow2_39. apply Rabs_le. lra. }
  destruct (rnd_close _ Hy) as [Hr Hf]. apply Rabs_between in Hf.
  split; [exact Hr|]. lra.
Qed.

(** The costs of the next cell of the diagonal. *)
Lemma total_cost_diagonal (k : Z) (b hv root : R) :
  (0 <= k <= 8)%Z -> Rabs (b - line startY endY k) <= IZR k / 1000 ->
  0 <= hv <= 13 -> Rabs (hv - root) <= / 8192 ->
  root <= IZR (8 - k) * R_sqrt.sqrt 2 ->
  Rabs (rnd (b + root2) - line startY endY (k + 1)) <= IZR (k + 1) / 1000 /\
  add (Fin (rnd (b + root2))) (Fin hv) = Fin (rnd (rnd (b + root2) + hv)) /\
  rnd (rnd (b + root2) + hv) <= line startY endY 9 + 0.05.
Proof.
  intros Hk Hb Hhv Hclose Hroot.
  destruct (base_bounds k b Hk Hb) as [Hb0 Hb1]. rewrite pow2_38 in Hb1.
  destruct root2_facts as (_ & _ & Hge & Hr2). apply Rabs_between in Hr2.
  pose proof sqrt2_bounds as Hw.
  apply Rabs_between in Hb. apply Rabs_between in Hclose. unfold line in *.
  rewrite minus_IZR in Hroot. rewrite !plus_IZR.
  assert (Ha : 0 <= IZR k <= 8) by (split; apply IZR_le; lia).
  assert (Hx : Rabs (b + root2) <= powerRZ 2 39).
  { rewrite pow2_39, Rabs_pos_eq by lra. lra. }
  destruct (rnd_close _ Hx) as [_ Hv]. apply Rabs_between in Hv.
  assert (Hy : Rabs (rnd (b + root2) + hv) <= powerRZ 2 39).
  { rewrite pow2_39. apply Rabs_le. lra. }
  destruct (rnd_close _ Hy) as [Hr Hf]. apply Rabs_between in Hf.
  split; [apply Rabs_le; lra|]. split; [exact Hr|]. lra.
Qed.

(** The order the sort gives two nodes whose total costs are apart. *)
Lemma compare_apart (a b : R) :
  a + 0.25 <= b ->
  ltb (sub (Fin a) (Fin b)) (Fin 0) = true /\ ltb (sub (Fin b) (Fin a)) (Fin 0) = false.
Proof.
  intros Hab. pose proof huge_pos as Hh.
  assert (Hq : representable 0.25) by representable_as 1%Z (-2)%Z.
  assert (Hq' : representable (- (0.25))) by (apply representable_opp; exact Hq).
  split.
  - cbn [sub opp add]. unfold round.
    destruct (Rle_dec huge (a + - b)); [lra|].
    destruct (Rle_dec (a + - b) (- huge)); [reflexivity|].
    cbn [ltb]. assert (rnd (a + - b) <= - (0.25)) by (apply rnd_le; [exact Hq'|lra]).
    destruct (Rlt_dec (rnd (a + - b)) 0); [reflexivity|lra].
  - cbn [sub opp add]. unfold round.
    destruct (Rle_dec huge (b + - a)); [reflexivity|].
    destruct (Rle_dec (b + - a) (- huge)); [lra|].
    cbn [ltb]. assert (0.25 <= rnd (b + - a)) by (apply rnd_ge; [exact Hq|lra]).
    destruct (Rlt_dec (rnd (b + - a)) 0); [lra|reflexivity].
Qed.

End StepFacts.

Section VisitFacts.
Import Rounded NavigationGrid Pathfinder Diagonal PathSpec.
Context `{Rounding}.
Local Open Scope R_scope.
Variables startY endY : R.
Hypothesis Hstart : Rabs startY <= powerRZ 2 36.
Hypothesis Hend : Rabs endY <= powerRZ 2 36.

Lemma ref_eqb_false (a b : Ref) : a <> b -> ref_eqb a b = false.
Proof.
  intros Hne. destruct (ref_eqb a b) eqn:E; [|reflexivity].
  apply ref_eqb_eq in E. contradiction.
Qed.

Lemma in_set_In (r : Ref) (s : list Ref) : in_set r s = true <-> In r s.
Proof.
  unfold in_set. rewrite existsb_exists. split.
  - intros (x & Hx & E). apply ref_eqb_eq in E. now subst.
  - intros Hr. exists r. split; [exact Hr|]. now apply ref_eqb_eq.
Qed.

Lemma visit_steps (k : Z) (st : SearchState Rounded.t) (n : Ref)
      (nn nk : Node Rounded.t) (b : R) :
  (0 <= k <= 8)%Z -> in_bounds open10 (fst n) (snd n) = true ->
  node_at (nodes st) n = Some nn -> node_at (nodes st) (k, k) = Some nk ->
  (k, k) <> n -> base_of startY endY nk b ->
  Rabs (b - line startY endY k) <= IZR k / 1000 ->
  in_set n (closedSet st) = false ->
  visit_neighbor open10 (goal endY) (Fin 1) (Fin 1.5) (cell 9 9) (Fin (cruise endY))
                 (k, k) (k, k) st n
  = let v := rnd (b + step_cost k n) in
    let hv := rnd (R_sqrt.sqrt (IZR (squared_distance n))) in
    let nodes1 :=
      update_node (fun m => {| gCost := gCost m; hCost := hCost m; fCost := fCost m;
                               parent := parent m; flyY := Fin (cruise endY) |})
                  n (nodes st) in
    if ltb (Fin v) (gCost nn) then
      Returned {| nodes := update_node
                             (fun m => {| gCost := Fin v; hCost := Fin hv;
                                          fCost := add (Fin v) (Fin hv);
                                          parent := Some (k, k); flyY := flyY m |})
                             n nodes1;
                  openSet := if in_set n (openSet st) then openSet st
                             else openSet st ++ [n];
                  closedSet := closedSet st |}
    else if negb (in_set n (openSet st)) then
      Returned {| nodes := update_node
                             (fun m => {| gCost := gCost m; hCost := Fin hv;
                                          fCost := add (gCost m) (Fin hv);
                                          parent := parent m; flyY := flyY m |})
                             n nodes1;
                  openSet := if eqb (gCost nn) PosInf then openSet st ++ [n]
                             else openSet st;
                  closedSet := closedSet st |}
    else Returned {| nodes := nodes1; openSet := openSet st; closedSet := closedSet st |}.
Proof.
  intros Hk Hb Hnn Hnk Hne Hbase Hline Hcl.
  destruct (open10_in_bounds _ _ Hb) as [Hi Hj].
  destruct n as [i j]. cbn [fst snd] in *.
  unfold visit_neighbor. cbn [fst snd].
  rewrite (open10_cell i j Hi Hj), Hnn. cbn [defined bind]. rewrite Hcl.
  cbn [maxObstacleHeight cell vy goal nmax nadd number].
  rewrite (flight_altitude endY). fold (cruise endY).
  rewrite (node_at_update_node _ (i, j) (k, k)) by (cbn [fst snd]; lia).
  rewrite (ref_eqb_false _ _ Hne), Hnk. cbn [defined bind].
  cbn [cellSize open10 nmul nSQRT2 nabs nsub search_number number worldX worldZ cell
       nltb neqb ninfinity].
  destruct (move_cost k (i, j)) as (Hm & Hrep & Hc). cbn [fst snd] in Hm. rewrite Hm.
  rewrite (tentative_cost startY endY Hstart Hend nk b (step_cost k (i, j)) Hbase
             (base_bounds startY endY Hstart Hend k b Hk Hline) Hrep Hc).
  destruct (heuristic_value endY i j Hi Hj) as (Hh & _). rewrite Hh.
  reflexivity.
Qed.

Lemma around_near (k : Z) (n : Ref) : (0 <= k)%Z -> around k n -> near_diagonal (k + 1) n.
Proof. intros Hk Ha. exists k. split; [lia|exact Ha]. Qed.

Lemma closed_in_bounds (k j : Z) : (0 <= k <= 8)%Z -> (0 <= j <= k + 1)%Z ->
  in_bounds open10 j j = true.
Proof. intros Hk Hj. apply in_bounds_open10; lia. Qed.

(** An assignment to the fields of a neighbour of [(k, k)] that is not
    closed. *)
Lemma expanding_update (k : Z) (st : SearchState Rounded.t)
      (F : Node Rounded.t -> Node Rounded.t) (n : Ref) (open' : list Ref) :
  expanding startY endY k st -> (0 <= k <= 8)%Z ->
  in_bounds open10 (fst n) (snd n) = true -> around k n ->
  n <> ((k + 1)%Z, (k + 1)%Z) -> in_set n (closedSet st) = false ->
  (forall r, In r open' -> In r (openSet st) \/ r = n) -> NoDup open' ->
  (forall m, node_at (nodes st) n = Some m -> In n open' ->
             (fCost (F m) = fCost m /\ In n (openSet st)) \/
             (exists f, fCost (F m) = Fin f /\ line startY endY 9 + 0.3 <= f)) ->
  expanding startY endY k
            {| nodes := update_node F n (nodes st); openSet := open';
               closedSet := closedSet st |}.
Proof.
  intros [Hsh Hcl Hch Hbase Hop Hnd Hun] Hk Hb Har Hne Hnc Hsub Hnd' HF.
  destruct (open10_in_bounds _ _ Hb) as [Hi Hj].
  assert (Hdiag : forall j, (0 <= j <= k)%Z -> ref_eqb (j, j) n = false).
  { intros j Hjk. apply ref_eqb_false. intros <-.
    assert (Hin : in_set (j, j) (closedSet st) = true).
    { apply Hcl. exists j. split; [lia|reflexivity]. }
    rewrite Hin in Hnc. discriminate. }
  split; cbn [nodes openSet closedSet].
  - now apply shaped_update_node.
  - exact Hcl.
  - intros j Hjk. destruct (Hch j Hjk) as (m & Hm & Hp). exists m. split; [|exact Hp].
    rewrite node_at_update_node by lia. now rewrite (Hdiag j Hjk).
  - destruct Hbase as (m & b & Hm & Hbm & Hline). exists m, b. split; [|now split].
    rewrite node_at_update_node by lia. now rewrite (Hdiag k ltac:(lia)).
  - intros r Hr. unfold dearer. rewrite node_at_update_node by lia.
    destruct (ref_eqb r n) eqn:E.
    + apply ref_eqb_eq in E. subst r.
      destruct (shaped_node_at n Hsh Hb) as [m Hm]. rewrite Hm. cbn [option_map].
      destruct (HF m Hm Hr) as [[Hsame Hin]|(f & Hf & Hline)].
      * destruct (Hop n Hin) as (m' & f & Hm' & Hf & Hline).
        rewrite Hm in Hm'. injection Hm' as <-.
        exists (F m), f. rewrite Hsame. auto.
      * exists (F m), f. auto.
    + destruct (Hsub r Hr) as [Hin| ->].
      * exact (Hop r Hin).
      * rewrite (proj2 (ref_eqb_eq n n) eq_refl) in E. discriminate.
  - exact Hnd'.
  - intros r Hrb Hfar.
    assert (Hrn : r <> n).
    { intros ->. destruct Hfar as [Hfar|Hfar]; [|contradiction].
      apply Hfar. apply around_near; [lia|exact Har]. }
    destruct (Hun r Hrb Hfar) as [Hnode Hout]. split.
    + rewrite node_at_update_node by lia. now rewrite (ref_eqb_false _ _ Hrn).
    + intros Hin. destruct (Hsub r Hin) as [Hin'|Heq]; contradiction.
Qed.

Lemma NoDup_snoc (l : list Ref) (a : Ref) : NoDup l -> ~ In a l -> NoDup (l ++ [a]).
Proof.
  intros Hl Ha. eapply Permutation_NoDup; [apply Permutation_cons_append|].
  now constructor.
Qed.

Lemma open_after_visit (n : Ref) (l : list Ref) :
  NoDup l ->
  NoDup (if in_set n l then l else l ++ [n]) /\
  forall r, In r (if in_set n l then l else l ++ [n]) -> In r l \/ r = n.
Proof.
  intros Hl. destruct (in_set n l) eqn:E.
  - split; [exact Hl|]. intros r Hr. now left.
  - split.
    + apply NoDup_snoc; [exact Hl|]. intros Hin. apply in_set_In in Hin.
      rewrite Hin in E. discriminate.
    + intros r Hr. apply in_app_or in Hr. destruct Hr as [Hr|[<-|[]]]; auto.
Qed.

(** The visit of a neighbour of [(k, k)] other than [(k + 1, k + 1)]. *)
Lemma visit_other (k : Z) (st : SearchState Rounded.t) (n : Ref) :
  expanding startY endY k st -> (0 <= k <= 8)%Z ->
  in_bounds open10 (fst n) (snd n) = true -> around k n ->
  n <> ((k + 1)%Z, (k + 1)%Z) ->
  exists st',
    visit_neighbor open10 (goal endY) (Fin 1) (Fin 1.5) (cell 9 9) (Fin (cruise endY))
                   (k, k) (k, k) st n = Returned st' /\
    expanding startY endY k st'.
Proof.
  intros He Hk Hb Har Hne.
  pose proof He as [Hsh Hclosed Hch (nk & b & Hnk & Hbase & Hline) Hop Hnd Hun].
  destruct (open10_in_bounds _ _ Hb) as [Hi Hj].
  destruct (shaped_node_at n Hsh Hb) as [nn Hnn].
  destruct (in_set n (closedSet st)) eqn:Hcl.
  - exists st. split; [|exact He]. unfold visit_neighbor.
    rewrite (open10_cell _ _ Hi Hj), Hnn. cbn [defined bind]. now rewrite Hcl.
  - assert (Hkn : (k, k) <> n).
    { intros <-. assert (Hin : in_set (k, k) (closedSet st) = true).
      { apply Hclosed. exists k. split; [lia|reflexivity]. }
      rewrite Hin in Hcl. discriminate. }
    rewrite (visit_steps k st n nn nk b Hk Hb Hnn Hnk Hkn Hbase Hline Hcl). cbv zeta.
    assert (E1 : expanding startY endY k
                   {| nodes := update_node
                                 (fun m => {| gCost := gCost m; hCost := hCost m;
                                              fCost := fCost m; parent := parent m;
                                              flyY := Fin (cruise endY) |})
                                 n (nodes st);
                      openSet := openSet st; closedSet := closedSet st |}).
    { apply (expanding_update k st _ n (openSet st) He Hk Hb Har Hne Hcl).
      - intros r Hr. now left.
      - exact Hnd.
      - intros m _ Hin. left. split; [reflexivity|exact Hin]. }
    destruct (ltb _ (gCost nn)) eqn:Hlt.
    + eexists. split; [reflexivity|].
      destruct (open_after_visit n (openSet st) Hnd) as [Hnd' Hsub].
      apply (expanding_update k _ _ n _ E1 Hk Hb Har Hne Hcl Hsub Hnd').
      intros m _ _. right. cbn [fCost].
      destruct (move_cost k n) as (_ & _ & Hc).
      destruct (heuristic_value endY (fst n) (snd n) Hi Hj) as (_ & Hhv & Hclose).
      rewrite <- surjective_pairing in Hhv, Hclose.
      destruct (total_cost_far startY endY Hstart Hend k b (step_cost k n) _ _
                  Hk Hline Hc Hhv Hclose (far_neighbour k n Hk Har Hne)) as [Hsum Hdear].
      eexists. split; [exact Hsum|exact Hdear].
    + destruct (negb (in_set n (openSet st))) eqn:Hopen.
      * assert (Hfin : eqb (gCost nn) PosInf = false).
        { destruct (gCost nn); cbn in Hlt |- *; try reflexivity. discriminate. }
        rewrite Hfin. eexists. split; [reflexivity|].
        apply (expanding_update k _ _ n _ E1 Hk Hb Har Hne Hcl).
        -- intros r Hr. now left.
        -- exact Hnd.
        -- intros m _ Hin. cbn [openSet] in Hin. apply in_set_In in Hin.
           rewrite Hin in Hopen. discriminate.
      * eexists. split; [reflexivity|exact E1].
Qed.

Lemma step_cost_diagonal (k : Z) : step_cost k ((k + 1)%Z, (k + 1)%Z) = root2.
Proof.
  unfold step_cost. cbn [fst snd]. replace (k + 1 - k)%Z with 1%Z by lia. reflexivity.
Qed.

Lemma around_next (k : Z) : around k ((k + 1)%Z, (k + 1)%Z).
Proof. unfold around. cbn [fst snd]. lia. Qed.

(** The visit of [(k + 1, k + 1)], the last neighbour of [(k, k)]. *)
Lemma visit_diagonal (k : Z) (st : SearchState Rounded.t) :
  expanding startY endY k st -> (0 <= k <= 8)%Z ->
  exists st',
    visit_neighbor open10 (goal endY) (Fin 1) (Fin 1.5) (cell 9 9) (Fin (cruise endY))
                   (k, k) (k, k) st ((k + 1)%Z, (k + 1)%Z) = Returned st' /\
    ready startY endY (k + 1) st'.
Proof.
  intros He Hk.
  pose proof He as [Hsh Hclosed Hch (nk & b & Hnk & Hbase & Hline) Hop Hnd Hun].
  set (n := ((k + 1)%Z, (k + 1)%Z)).
  assert (Hi : (0 <= k + 1 < 10)%Z) by lia.
  assert (Hb : in_bounds open10 (fst n) (snd n) = true) by (apply in_bounds_open10; exact Hi).
  destruct (Hun n Hb (or_intror eq_refl)) as [Hnn Hout].
  assert (Hcl : in_set n (closedSet st) = false).
  { destruct (in_set n (closedSet st)) eqn:E; [|reflexivity].
    apply Hclosed in E. destruct E as (j & Hj & E). unfold n in E. injection E as E1 E2. lia. }
  assert (Hkn : (k, k) <> n). { unfold n; intros E; injection E as E1. lia. }
  assert (Hno : in_set n (openSet st) = false).
  { destruct (in_set n (openSet st)) eqn:E; [|reflexivity].
    apply in_set_In in E. contradiction. }
  assert (Hdiag : forall j, (0 <= j <= k)%Z -> ref_eqb (j, j) n = false).
  { intros j Hj. apply ref_eqb_false. unfold n. intros E. injection E as E1 E2. lia. }
  rewrite (visit_steps k st n untouched nk b Hk Hb Hnn Hnk Hkn Hbase Hline Hcl). cbv zeta.
  cbn [gCost untouched ltb]. rewrite Hno.
  eexists. split; [reflexivity|].
  destruct (heuristic_value endY (k + 1) (k + 1) Hi Hi) as (_ & Hhv & Hclose).
  destruct (total_cost_diagonal startY endY Hstart Hend k b _ _ Hk Hline Hhv Hclose
              (diagonal_neighbour k Hk)) as (Hg & Hsum & Hf).
  fold n in Hsum, Hf. unfold n at 1 2 3. rewrite (step_cost_diagonal k). fold n.
  split; cbn [nodes openSet closedSet].
  - now do 2 apply shaped_update_node.
  - exact Hclosed.
  - intros j Hj. rewrite !node_at_update_node by (unfold n; cbn [fst snd]; lia).
    destruct (Z.eq_dec j (k + 1)) as [->|Hjk].
    + fold n. rewrite (proj2 (ref_eqb_eq n n) eq_refl), Hnn. cbn [option_map].
      eexists. split; [reflexivity|]. cbn [parent].
      destruct (Z.eqb_spec (k + 1) 0) as [E|_]; [lia|].
      replace (k + 1 - 1)%Z with k by lia. reflexivity.
    + rewrite (Hdiag j ltac:(lia)). apply Hch. lia.
  - split; [apply in_or_app; right; now left|]. fold n.
    rewrite !node_at_update_node by (unfold n; cbn [fst snd]; lia).
    rewrite (proj2 (ref_eqb_eq n n) eq_refl), Hnn. cbn [option_map].
    eexists. exists (rnd (b + root2)). eexists. split; [reflexivity|].
    cbn [gCost flyY fCost]. split; [reflexivity|]. split; [reflexivity|].
    split; [exact Hg|]. split; [exact Hsum|exact Hf].
  - intros r Hr Hrn. apply in_app_or in Hr. destruct Hr as [Hr|[<-|[]]]; [|contradiction].
    destruct (Hop r Hr) as (m & f & Hm & Hfm & Hdear). exists m, f.
    rewrite !node_at_update_node by (unfold n; cbn [fst snd]; lia).
    rewrite (ref_eqb_false r n Hrn). auto.
  - apply NoDup_snoc; assumption.
  - intros r Hrb Hfar.
    assert (Hrn : r <> n).
    { intros ->. apply Hfar. apply around_near; [lia|apply around_next]. }
    destruct (Hun r Hrb (or_introl Hfar)) as [Hnode Hout']. split.
    + rewrite !node_at_update_node by (unfold n; cbn [fst snd]; lia).
      now rewrite (ref_eqb_false r n Hrn).
    + intros Hin. apply in_app_or in Hin. destruct Hin as [Hin|[E|[]]]; [contradiction|].
      now apply Hrn.
Qed.

Lemma visit_all (k : Z) (others : list Ref) :
  (0 <= k <= 8)%Z ->
  Forall (fun n => in_bounds open10 (fst n) (snd n) = true /\ around k n /\
                   n <> ((k + 1)%Z, (k + 1)%Z)) others ->
  forall st,
    expanding startY endY k st ->
    exists st',
      for_each (visit_neighbor open10 (goal endY) (Fin 1) (Fin 1.5) (cell 9 9)
                               (Fin (cruise endY)) (k, k) (k, k))
               (others ++ [((k + 1)%Z, (k + 1)%Z)]) st = Returned st' /\
      ready startY endY (k + 1) st'.
Proof.
  intros Hk. induction 1 as [|n others (Hb & Har & Hne) _ IH]; intros st He.
  - cbn [app for_each]. destruct (visit_diagonal k st He Hk) as (st' & Hv & Hr).
    rewrite Hv. cbn [bind for_each]. now exists st'.
  - cbn [app for_each]. destruct (visit_other k st n He Hk Hb Har Hne) as (st1 & Hv & He1).
    rewrite Hv. cbn [bind]. apply IH. exact He1.
Qed.

Lemma neighbours_of_diagonal (k : Z) :
  (0 <= k <= 8)%Z ->
  exists others,
    getNeighbors open10 k k = others ++ [((k + 1)%Z, (k + 1)%Z)] /\
    Forall (fun n => in_bounds open10 (fst n) (snd n) = true /\ around k n /\
                     n <> ((k + 1)%Z, (k + 1)%Z)) others.
Proof.
  intros Hk.
  assert (Hc : (k = 0 \/ k = 1 \/ k = 2 \/ k = 3 \/ k = 4 \/ k = 5 \/ k = 6 \/ k = 7
                \/ k = 8)%Z) by lia.
  destruct Hc as [->|Hc].
  - exists [(1, 0); (0, 1)]%Z. split; [reflexivity|].
    repeat constructor; cbn; try lia; discriminate.
  - exists [(k - 1, k); (k + 1, k); (k, k - 1); (k, k + 1); (k - 1, k - 1);
            (k - 1, k + 1); (k + 1, k - 1)]%Z.
    repeat (destruct Hc as [->|Hc]; [split; [reflexivity|];
                                     repeat constructor; cbn; try lia; discriminate|]).
    subst k. split; [reflexivity|]. repeat constructor; cbn; try lia; discriminate.
Qed.

(** A round that takes [(k, k)] out of the open set. *)
Lemma expand (k : Z) (st : SearchState Rounded.t) (rest : list Ref) (fuel : nat) :
  (0 <= k <= 8)%Z ->
  sort_by_fCost (nodes st) (openSet st) = (k, k) :: rest ->
  expanding startY endY k
            {| nodes := nodes st; openSet := rest; closedSet := (k, k) :: closedSet st |} ->
  exists st',
    search open10 (goal endY) (Fin 1) (Fin 1.5) (cell 9 9) (Fin (cruise endY))
           (S fuel) (9%Z, 9%Z) st
    = search open10 (goal endY) (Fin 1) (Fin 1.5) (cell 9 9) (Fin (cruise endY))
             fuel (9%Z, 9%Z) st' /\
    ready startY endY (k + 1) st'.
Proof.
  intros Hk Hsort He.
  destruct (neighbours_of_diagonal k Hk) as (others & Hn & Ho).
  destruct (visit_all k others Hk Ho _ He) as (st' & Hv & Hr).
  exists st'. split; [|exact Hr].
  cbn [search]. rewrite Hsort.
  rewrite (ref_eqb_false (k, k) (9%Z, 9%Z)) by (intros E; injection E as E1; lia).
  cbn [fst snd]. rewrite (open10_cell k k) by lia. cbn [defined bind worldX worldZ cell].
  rewrite (open10_cell_of k k) by lia. cbn [defined bind fst snd].
  rewrite Hn.
  match goal with
  | |- bind ?X _ = _ => assert (E : X = Returned st') by exact Hv; rewrite E
  end.
  reflexivity.
Qed.

Lemma near_diagonal_next (k : Z) (r : Ref) : near_diagonal k r -> near_diagonal (k + 1) r.
Proof. intros (j & Hj & Ha). exists j. split; [lia|exact Ha]. Qed.

Lemma next_is_far (k : Z) : ~ near_diagonal k ((k + 1)%Z, (k + 1)%Z).
Proof. intros (j & Hj & Hx & _). cbn [fst] in Hx. lia. Qed.

(** The cell [(k, k)] comes first in the sorted open set. *)
Lemma ready_sorted (k : Z) (st : SearchState Rounded.t) :
  ready startY endY k st ->
  exists rest,
    sort_by_fCost (nodes st) (openSet st) = (k, k) :: rest /\ NoDup rest /\
    forall r, In r rest <-> In r (openSet st) /\ r <> (k, k).
Proof.
  intros [Hsh Hclosed Hch (Hin & n & g & f & Hn & Hg & Hfly & Hline & Hf & Hbest)
          Hop Hnd Hun].
  apply sort_head; [exact Hnd|exact Hin|].
  intros r Hr Hne. destruct (Hop r Hr Hne) as (m & f' & Hm & Hf' & Hdear).
  unfold fCost_of. rewrite Hn, Hm, Hf, Hf'.
  apply compare_apart. lra.
Qed.

Lemma search_round (k : Z) (st : SearchState Rounded.t) (fuel : nat) :
  (1 <= k <= 8)%Z -> ready startY endY k st ->
  exists st',
    search open10 (goal endY) (Fin 1) (Fin 1.5) (cell 9 9) (Fin (cruise endY))
           (S fuel) (9%Z, 9%Z) st
    = search open10 (goal endY) (Fin 1) (Fin 1.5) (cell 9 9) (Fin (cruise endY))
             fuel (9%Z, 9%Z) st' /\
    ready startY endY (k + 1) st'.
Proof.
  intros Hk Hr. destruct (ready_sorted k st Hr) as (rest & Hsort & Hnd' & Hrest).
  destruct Hr as [Hsh Hclosed Hch (Hin & n & g & f & Hn & Hg & Hfly & Hline & Hf & Hbest)
                  Hop Hnd Hun].
  apply (expand k st rest fuel ltac:(lia) Hsort).
  split; cbn [nodes openSet closedSet].
  - exact Hsh.
  - intros r. cbn [in_set existsb]. fold (in_set r (closedSet st)).
    rewrite orb_true_iff, ref_eqb_eq, Hclosed. split.
    + intros [->|(j & Hj & ->)]; [exists k|exists j]; split; try reflexivity; lia.
    + intros (j & Hj & ->). destruct (Z.eq_dec j k) as [->|Hjk]; [now left|].
      right. exists j. split; [lia|reflexivity].
  - exact Hch.
  - exists n, g. split; [exact Hn|]. split; [|exact Hline]. right. now split.
  - intros r Hr. apply Hrest in Hr. destruct Hr as [Hr Hne]. now apply Hop.
  - exact Hnd'.
  - intros r Hrb Hfar.
    assert (Hfar' : ~ near_diagonal k r).
    { destruct Hfar as [Hfar| ->].
      - intros Hnear. apply Hfar. now apply near_diagonal_next.
      - apply next_is_far. }
    destruct (Hun r Hrb Hfar') as [Hnode Hout]. split; [exact Hnode|].
    intros Hr. apply Hrest in Hr. now destruct Hr.
Qed.

(** The first round, from the start cell. *)
Lemma first_round (h f : Rounded.t) (fuel : nat) :
  exists st',
    search open10 (goal endY) (Fin 1) (Fin 1.5) (cell 9 9) (Fin (cruise endY))
           (S fuel) (9%Z, 9%Z)
           {| nodes := update_node
                         (fun _ => {| gCost := Fin 0; hCost := h; fCost := f;
                                      parent := None; flyY := Fin (takeoff startY) |})
                         (0%Z, 0%Z) (reset_nodes open10);
              openSet := [(0%Z, 0%Z)]; closedSet := [] |}
    = search open10 (goal endY) (Fin 1) (Fin 1.5) (cell 9 9) (Fin (cruise endY))
             fuel (9%Z, 9%Z) st' /\
    ready startY endY 1 st'.
Proof.
  apply (expand 0 _ [] fuel); [lia|reflexivity|].
  assert (Hb0 : in_bounds open10 0 0 = true) by reflexivity.
  assert (Hsh : shaped open10 (reset_nodes open10)) by apply shaped_reset_nodes.
  destruct (shaped_node_at (0%Z, 0%Z) Hsh Hb0) as [n0 Hn0].
  split; cbn [nodes openSet closedSet].
  - now apply shaped_update_node.
  - intros r. cbn [in_set existsb]. rewrite orb_false_r, ref_eqb_eq. split.
    + intros ->. exists 0%Z. split; [lia|reflexivity].
    + intros (j & Hj & ->). replace j with 0%Z by lia. reflexivity.
  - intros j Hj. replace j with 0%Z by lia.
    rewrite node_at_update_node by (cbn [fst snd]; lia).
    rewrite (proj2 (ref_eqb_eq (0%Z, 0%Z) (0%Z, 0%Z)) eq_refl), Hn0. cbn [option_map].
    eexists. split; reflexivity.
  - rewrite node_at_update_node by (cbn [fst snd]; lia).
    rewrite (proj2 (ref_eqb_eq (0%Z, 0%Z) (0%Z, 0%Z)) eq_refl), Hn0. cbn [option_map].
    eexists. exists (climb startY endY). split; [reflexivity|]. split.
    + left. cbn [gCost flyY]. auto.
    + unfold line. replace (climb startY endY - (climb startY endY + 0 * R_sqrt.sqrt 2))
        with 0 by ring.
      rewrite Rabs_R0. lra.
  - intros r [].
  - constructor.
  - intros r Hrb Hfar.
    assert (Hr0 : r <> (0%Z, 0%Z)).
    { intros ->. destruct Hfar as [Hfar|Hfar]; [|discriminate].
      apply Hfar. exists 0%Z. split; [lia|]. unfold around. cbn [fst snd]. lia. }
    split; [|intros []].
    rewrite node_at_update_node by (cbn [fst snd]; lia).
    rewrite (ref_eqb_false _ _ Hr0).
    destruct (shaped_node_at r Hsh Hrb) as [m Hm]. rewrite Hm.
    now rewrite (reset_nodes_node open10 r Hm).
Qed.

Lemma indices_next (n : nat) :
  indices (Z.of_nat n + 1) = indices (Z.of_nat n) ++ [Z.of_nat n].
Proof.
  unfold indices. replace (Z.to_nat (Z.of_nat n + 1)) with (S n) by lia.
  rewrite Nat2Z.id, seq_S, map_app. reflexivity.
Qed.

(** [reconstructPath] from a cell of the diagonal. *)
Lemma reconstruct_diagonal (nodes : list (list (Node Rounded.t))) :
  chain 9 nodes ->
  forall (m fuel : nat) (acc : list (Vector3 Rounded.t)),
    (m <= 9)%nat -> (m < fuel)%nat ->
    reconstructPath open10 (Fin 1) fuel nodes (Some (Z.of_nat m, Z.of_nat m)) (Fin endY) acc
    = Returned (map (point endY) (indices (Z.of_nat m + 1)) ++ acc).
Proof.
  intros Hch. induction m as [|m IH]; intros fuel acc Hm Hfuel;
    (destruct fuel as [|fuel]; [lia|]).
  - destruct (Hch (Z.of_nat 0)) as (n & Hn & Hp); [lia|].
    cbn [reconstructPath fst snd]. rewrite open10_cell by lia. rewrite Hn.
    cbn [defined bind maxObstacleHeight worldX worldZ cell nmax nadd number].
    rewrite (flight_altitude endY), Hp.
    cbn [Z.of_nat Z.eqb]. destruct fuel; reflexivity.
  - destruct (Hch (Z.of_nat (S m))) as (n & Hn & Hp); [lia|].
    cbn [reconstructPath fst snd]. rewrite open10_cell by lia. rewrite Hn.
    cbn [defined bind maxObstacleHeight worldX worldZ cell nmax nadd number].
    rewrite (flight_altitude endY), Hp.
    destruct (Z.eqb_spec (Z.of_nat (S m)) 0) as [E|_]; [lia|].
    replace (Z.of_nat (S m) - 1)%Z with (Z.of_nat m) by lia.
    rewrite IH by lia.
    rewrite (indices_next (S m)), map_app, <- app_assoc.
    replace (Z.of_nat m + 1)%Z with (Z.of_nat (S m)) by lia. reflexivity.
Qed.

Lemma last_round (st : SearchState Rounded.t) (fuel : nat) :
  ready startY endY 9 st -> (9 <= fuel)%nat ->
  search open10 (goal endY) (Fin 1) (Fin 1.5) (cell 9 9) (Fin (cruise endY))
         (S fuel) (9%Z, 9%Z) st
  = Returned (Some (map (point endY) (indices 10))).
Proof.
  intros Hr Hfuel. destruct (ready_sorted 9 st Hr) as (rest & Hsort & _).
  destruct Hr as [_ _ Hch _ _ _ _].
  cbn [search]. rewrite Hsort.
  rewrite (proj2 (ref_eqb_eq (9%Z, 9%Z) (9%Z, 9%Z)) eq_refl).
  match goal with
  | |- bind ?X _ = _ =>
      assert (E : X = Returned (map (point endY) (indices 10) ++ []))
        by (apply (reconstruct_diagonal (nodes st) Hch 9 (S fuel) []); lia);
      rewrite E
  end.
  cbn [bind]. rewrite app_nil_r. reflexivity.
Qed.

Lemma rounds (m : nat) :
  forall (k : Z) (st : SearchState Rounded.t) (fuel : nat),
    (1 <= k)%Z -> (k = 9 - Z.of_nat m)%Z -> ready startY endY k st ->
    (m + 10 <= fuel)%nat ->
    search open10 (goal endY) (Fin 1) (Fin 1.5) (cell 9 9) (Fin (cruise endY))
           fuel (9%Z, 9%Z) st
    = Returned (Some (map (point endY) (indices 10))).
Proof.
  induction m as [|m IH]; intros k st fuel Hk Hkm Hr Hfuel;
    (destruct fuel as [|fuel]; [lia|]).
  - replace k with 9%Z in Hr by lia. apply last_round; [exact Hr|lia].
  - destruct (search_round k st fuel ltac:(lia) Hr) as (st' & Hs & Hr').
    rewrite Hs. apply (IH (k + 1)%Z); [lia|lia|exact Hr'|lia].
Qed.

(** The search on the open grid returns the diagonal. *)
Lemma findPath_diagonal :
  findPath 100 open10 (start startY) (goal endY) (Fin 1) (Fin 1.5)
  = Returned (Some (map (point endY) (indices 10))).
Proof.
  unfold findPath. cbn [vx vz start goal].
  rewrite (open10_cell_of 0 0), (open10_cell_of 9 9) by lia. cbn [fst snd].
  rewrite (open10_cell 0 0), (open10_cell 9 9) by lia.
  cbn [defined bind isObstacle cell orb maxObstacleHeight vy start goal nmax nadd number].
  rewrite (flight_altitude startY), (flight_altitude endY).
  fold (takeoff startY). fold (cruise endY).
  match goal with
  | |- search _ _ _ _ _ _ _ _ {| nodes := update_node (fun _ => {| gCost := _;
                                   hCost := ?h; fCost := ?f; parent := _; flyY := _ |})
                                   _ _; openSet := _; closedSet := _ |} = _ =>
      destruct (first_round h f 99) as (st' & Hs & Hr)
  end.
  etransitivity; [exact Hs|].
  apply (rounds 8 1 st' 99); [lia|lia|exact Hr|lia].
Qed.

End VisitFacts.

(** ** Claim C1 *)

Section StaircaseClaim.
Import Rounded NavigationGrid Pathfinder Diagonal.
Context `{Rounding}.
Local Open Scope R_scope.

Lemma diagonal_steps_next (g : NavigationGrid.t Rounded.t) (a b : Vector3 Rounded.t)
      (rest : list (Vector3 Rounded.t)) :
  diagonal_steps g (a :: b :: rest)
  = match worldToGridCoordinates g (vx a) (vz a),
          worldToGridCoordinates g (vx b) (vz b) with
    | Some (ax, az), Some (bx, bz) =>
        ((Z.abs (bx - ax) =? 1) && (Z.abs (bz - az) =? 1))%Z
        && diagonal_steps g (b :: rest)
    | _, _ => false
    end.
Proof. reflexivity. Qed.

Lemma diagonal_points_step (endY : R) (m a : nat) :
  (a + m <= 10)%nat ->
  diagonal_steps open10 (map (point endY) (map Z.of_nat (seq a m))) = true.
Proof.
  revert a. induction m as [|m IH]; intros a Ha; [reflexivity|].
  destruct m as [|m]; [reflexivity|].
  specialize (IH (S a) ltac:(lia)).
  cbn [seq map] in IH |- *. rewrite diagonal_steps_next. cbn [vx vz point].
  rewrite !open10_cell_of by lia.
  replace (Z.abs (Z.of_nat (S a) - Z.of_nat a) =? 1)%Z with true
    by (symmetry; apply Z.eqb_eq; lia).
  cbn [andb]. exact IH.
Qed.

Lemma diagonal_points_cells (endY : R) :
  map (cell_of open10) (map (point endY) (indices 10))
  = map (fun k => Some (k, k)) (indices 10).
Proof.
  rewrite map_map. apply map_ext_in. intros a Ha.
  unfold indices in Ha. apply in_map_iff in Ha. destruct Ha as (n & <- & Hn).
  apply in_seq in Hn. unfold cell_of. cbn [vx vz point].
  apply open10_cell_of; lia.
Qed.

(** C1, as the code has it.  On binary64 values, with any rounding to a
    nearest value: on the grid [new NavigationGrid(10, 10, 1)], which has
    no obstacle, [findPath] from the centre of cell (0, 0) to the centre of
    cell (9, 9), with the safety margin 1.0 and the altitude penalty 1.5,
    returns a path of exactly ten points, each step one cell in x and one
    cell in z, through the cells (0, 0), (1, 1), ..., (9, 9), whenever the
    altitudes of the start and of the target are finite numbers of
    magnitude at most [2^36]. *)
Theorem diagonal_staircase_on_open_grid (startY endY : R) :
  Rabs startY <= powerRZ 2 36 -> Rabs endY <= powerRZ 2 36 ->
  exists g,
    construct (Fin 10) (Fin 10) (Fin 1) (Fin 0) = Some g /\
    staircase g (Fin startY) (Fin endY) (Fin 1) (Fin 1.5).
Proof.
  intros Hstart Hend. exists open10. split; [apply open10_is_constructed|].
  exists (start startY), (goal endY), (map (point endY) (indices 10)).
  split; [|split; [|split; [|split; [|split]]]].
  - unfold centre, gridToWorldCoordinates.
    rewrite (in_bounds_open10 0 0), (open10_cell 0 0) by lia. reflexivity.
  - unfold centre, gridToWorldCoordinates.
    rewrite (in_bounds_open10 9 9), (open10_cell 9 9) by lia. reflexivity.
  - apply (findPath_diagonal startY endY Hstart Hend).
  - now rewrite length_map, length_indices.
  - apply (diagonal_points_step endY 10 0). lia.
  - apply diagonal_points_cells.
Qed.

End StaircaseClaim.

Section StaircaseRuns.
Import Rounded NavigationGrid Pathfinder.
Local Open Scope R_scope.

Lemma diagonal_staircase_on_open_grid_witness :
  exists (rounding : Rounding) (g : NavigationGrid.t Rounded.t),
    Rabs 5 <= powerRZ 2 36 /\ Rabs 12 <= powerRZ 2 36 /\
    construct (Fin 10) (Fin 10) (Fin 1) (Fin 0) = Some g /\
    staircase g (Fin 5) (Fin 12) (Fin 1) (Fin 1.5).
Proof.
  destruct rounding_exists as [rounding].
  assert (H5 : Rabs 5 <= powerRZ 2 36) by (rewrite pow2_36, Rabs_pos_eq; lra).
  assert (H12 : Rabs 12 <= powerRZ 2 36) by (rewrite pow2_36, Rabs_pos_eq; lra).
  destruct (diagonal_staircase_on_open_grid 5 12 H5 H12) as (g & Hg & Hs).
  exists rounding, g. auto.
Defined.

End StaircaseRuns.
